(** * flang/lib/Semantics/semantics.cpp: the semantic-analysis driver

    A shallow embedding of the parts of [semantics.cpp] that carry state
    across the checking passes: the diagnostics kept by [SemanticsContext],
    the per-symbol error set, the common-block merge table
    ([CommonBlockMap]), the scope location index, the index-variable guard,
    the composed parse-tree visitor ([SemanticsVisitor]) and the pass
    pipeline ([Semantics::Perform]).

    Conventions.  A C++ reference or pointer to a [Symbol] or a [Scope] is
    an address ([N]); the objects themselves live in a [SymbolGraph], which
    name resolution has built before any function modelled here runs and
    which these functions only read.  A function that can end the process
    ([common::die], a failed [CHECK], a failed [DEREF]) or run into
    behaviour the C++ standard leaves undefined returns an [Outcome]. *)

From stdpp Require Import gmap strings list fin_maps sorting pretty.
From Stdlib Require Import NArith Lia.

Open Scope N_scope.

(** ** Outcomes of fallible code *)

Inductive Outcome (A : Type) : Type :=
| Ret (a : A)          (* normal return *)
| Die (msg : string)   (* common::die, CHECK or DEREF failure: abort *)
| Undefined.           (* undefined behaviour in the C++ sense *)
Arguments Ret {A} a.
Arguments Die {A} msg.
Arguments Undefined {A}.

Global Instance Outcome_bind : MBind Outcome := λ A B k o,
  match o with
  | Ret a => k a
  | Die m => Die m
  | Undefined => Undefined
  end.

(** ** Source positions *)

(** Modelled from the spec: [parser::CharBlock] is declared outside this
    file.  It is a range of cooked source: a start address and a byte count.
    [Contains] is the containment of ranges the spec speaks of ("a range
    actually contains the query position"). *)
Record CharBlock : Type := mkCharBlock { cb_begin : N; cb_size : N }.

Global Instance CharBlock_eq_dec : EqDecision CharBlock.
Proof. solve_decision. Defined.

Definition cb_end (x : CharBlock) : N := cb_begin x + cb_size x.
Definition cb_empty (x : CharBlock) : bool := cb_size x =? 0.

Definition Contains (x that : CharBlock) : bool :=
  (cb_begin x <=? cb_begin that) && (cb_end that <=? cb_end x).

(** ** The scope and symbol graph (read-only here) *)

Abbreviation SymbolRef := N (only parsing).
Abbreviation ScopeRef := N (only parsing).

Inductive TypeCategory := Integer | Real | Complex | Character | Logical | Derived.

Global Instance TypeCategory_eq_dec : EqDecision TypeCategory.
Proof. solve_decision. Defined.

(** What the functions of this file read from a [Symbol].  The fields
    [sym_initialized], [sym_common], [sym_isVariableName], [sym_type] and
    [sym_ultimate] hold the answers of helpers defined elsewhere
    ([IsInitialized], [FindCommonBlockContaining], [IsVariableName],
    [evaluate::DynamicType::From], [ResolveAssociations]). *)
Record Symbol : Type := mkSymbol {
  sym_name : CharBlock;                     (* name() *)
  sym_size : N;                             (* size() *)
  sym_owner : ScopeRef;                     (* owner() *)
  sym_objects : list SymbolRef;             (* CommonBlockDetails::objects() *)
  sym_compilerCreated : bool;               (* test(Flag::CompilerCreated) *)
  sym_initialized : bool;                   (* IsInitialized(symbol) *)
  sym_common : option SymbolRef;            (* FindCommonBlockContaining(symbol) *)
  sym_linkName : bool → string;             (* GetCommonBlockObjectName(symbol, underscoring) *)
  sym_isVariableName : bool;                (* IsVariableName(symbol) *)
  sym_rank : nat;                           (* Rank() *)
  sym_type : option (TypeCategory * Z);     (* DynamicType::From: category, kind *)
  sym_ultimate : SymbolRef;                 (* ResolveAssociations(symbol) *)
}.

Record SymbolGraph : Type := mkGraph {
  symbol_at : SymbolRef → Symbol;
  equivalenceSets : ScopeRef → list (list SymbolRef);  (* Scope::equivalenceSets() *)
}.

(** ** Diagnostics *)

Inductive Severity := SevError | SevWarning | SevPortability | SevNone.

Global Instance Severity_eq_dec : EqDecision Severity.
Proof. solve_decision. Defined.

Inductive MsgArg := ArgName (c : CharBlock) | ArgSize (n : N) | ArgText (s : string).

Global Instance MsgArg_eq_dec : EqDecision MsgArg.
Proof. solve_decision. Defined.

Record Attachment : Type := mkAttachment {
  att_at : CharBlock; att_text : string; att_args : list MsgArg
}.

Global Instance Attachment_eq_dec : EqDecision Attachment.
Proof. solve_decision. Defined.

Record Message : Type := mkMessage {
  msg_severity : Severity;
  msg_at : CharBlock;
  msg_text : string;
  msg_args : list MsgArg;
  msg_attachments : list Attachment;
}.

Global Instance Message_eq_dec : EqDecision Message.
Proof. solve_decision. Defined.

(** [Message::Attach]: one more secondary note on the same diagnostic. *)
Definition Attach (m : Message) (at_ : CharBlock) (text : string)
    (args : list MsgArg) : Message :=
  mkMessage (msg_severity m) (msg_at m) (msg_text m) (msg_args m)
    (msg_attachments m ++ [mkAttachment at_ text args]).

(** Modelled from the spec: [parser::Messages::AnyFatalError] is declared
    outside this file.  A fatal error always counts; a warning counts under
    the "warnings are errors" switch; a portability note never halts. *)
Definition IsFatal (warningsAreErrors : bool) (m : Message) : bool :=
  match msg_severity m with
  | SevError => true
  | SevWarning => warningsAreErrors
  | SevPortability | SevNone => false
  end.

(** Modelled from the spec: [parser::Messages::AnyFatalError], the question
    the diagnostic sink answers: has any fatal error occurred. *)
Definition Messages_AnyFatalError (warningsAreErrors : bool)
    (ms : list Message) : bool :=
  existsb (IsFatal warningsAreErrors) ms.

(** ** The analysis context *)

Inductive WarningKind :=
| DistinctCommonSizes | IndexVarRedefinition | UndefinedFunctionResult.

Inductive IndexVarKind := DO | FORALL.

Global Instance IndexVarKind_eq_dec : EqDecision IndexVarKind.
Proof. solve_decision. Defined.

Record IndexVarInfo : Type := mkIndexVarInfo {
  iv_location : CharBlock; iv_kind : IndexVarKind
}.

Global Instance IndexVarInfo_eq_dec : EqDecision IndexVarInfo.
Proof. solve_decision. Defined.

Record CommonBlockInfo : Type := mkCommonBlockInfo {
  biggestSize : SymbolRef;               (* appearance with the biggest size *)
  initialization : option SymbolRef;     (* appearance with initialized members *)
}.

Global Instance CommonBlockInfo_eq_dec : EqDecision CommonBlockInfo.
Proof. solve_decision. Defined.

(** The members of [SemanticsContext] that this file touches.  Messages are
    kept in the order they were reported.  [shouldWarn_] stands for the
    decision [Warn] takes before it records anything (the category is
    enabled and the location is not inside a module file). *)
Record SemanticsContext : Type := mkContext {
  messages_ : list Message;
  warningsAreErrors_ : bool;
  underscoring_ : bool;
  shouldWarn_ : WarningKind → CharBlock → bool;
  defaultIntegerKind_ : Z;
  location_ : option CharBlock;
  constructStack_ : list N;
  errorSymbols_ : gset N;
  activeIndexVars_ : gmap N IndexVarInfo;
  scopeIndex_ : list (CharBlock * ScopeRef);
  commonBlockMap_ : option (gmap string CommonBlockInfo);
}.

Definition with_messages (c : SemanticsContext) (ms : list Message) :=
  mkContext ms (warningsAreErrors_ c) (underscoring_ c) (shouldWarn_ c)
    (defaultIntegerKind_ c) (location_ c) (constructStack_ c)
    (errorSymbols_ c) (activeIndexVars_ c) (scopeIndex_ c) (commonBlockMap_ c).

Definition with_location (c : SemanticsContext) (l : option CharBlock) :=
  mkContext (messages_ c) (warningsAreErrors_ c) (underscoring_ c)
    (shouldWarn_ c) (defaultIntegerKind_ c) l (constructStack_ c)
    (errorSymbols_ c) (activeIndexVars_ c) (scopeIndex_ c) (commonBlockMap_ c).

Definition with_constructStack (c : SemanticsContext) (s : list N) :=
  mkContext (messages_ c) (warningsAreErrors_ c) (underscoring_ c)
    (shouldWarn_ c) (defaultIntegerKind_ c) (location_ c) s
    (errorSymbols_ c) (activeIndexVars_ c) (scopeIndex_ c) (commonBlockMap_ c).

Definition with_errorSymbols (c : SemanticsContext) (e : gset N) :=
  mkContext (messages_ c) (warningsAreErrors_ c) (underscoring_ c)
    (shouldWarn_ c) (defaultIntegerKind_ c) (location_ c) (constructStack_ c)
    e (activeIndexVars_ c) (scopeIndex_ c) (commonBlockMap_ c).

Definition with_activeIndexVars (c : SemanticsContext)
    (a : gmap N IndexVarInfo) :=
  mkContext (messages_ c) (warningsAreErrors_ c) (underscoring_ c)
    (shouldWarn_ c) (defaultIntegerKind_ c) (location_ c) (constructStack_ c)
    (errorSymbols_ c) a (scopeIndex_ c) (commonBlockMap_ c).

Definition with_scopeIndex (c : SemanticsContext)
    (i : list (CharBlock * ScopeRef)) :=
  mkContext (messages_ c) (warningsAreErrors_ c) (underscoring_ c)
    (shouldWarn_ c) (defaultIntegerKind_ c) (location_ c) (constructStack_ c)
    (errorSymbols_ c) (activeIndexVars_ c) i (commonBlockMap_ c).

Definition with_commonBlockMap (c : SemanticsContext)
    (m : option (gmap string CommonBlockInfo)) :=
  mkContext (messages_ c) (warningsAreErrors_ c) (underscoring_ c)
    (shouldWarn_ c) (defaultIntegerKind_ c) (location_ c) (constructStack_ c)
    (errorSymbols_ c) (activeIndexVars_ c) (scopeIndex_ c) m.

(** Modelled from the spec: [SemanticsContext::Say(at, text, args...)] is
    defined in the header; it hands the located message to the diagnostic
    sink. *)
Definition Say (c : SemanticsContext) (m : Message) : SemanticsContext :=
  with_messages c (messages_ c ++ [m]).

(** Modelled from the spec: [SemanticsContext::Warn(kind, at, text,
    args...)] is defined in the header.  A warning can be suppressed: the
    message is recorded, and a pointer to it returned, only when the warning
    is wanted; otherwise the result is null and nothing is recorded.  The
    continuation [k] is what the caller does with the non-null pointer. *)
Definition Warn (c : SemanticsContext) (kind : WarningKind) (m : Message)
    (k : Message → Message) : SemanticsContext :=
  if shouldWarn_ c kind (msg_at m) then Say c (k m) else c.

Definition AnyFatalError (c : SemanticsContext) : bool :=
  Messages_AnyFatalError (warningsAreErrors_ c) (messages_ c).

Definition set_location (c : SemanticsContext) (l : option CharBlock) :=
  with_location c l.

(** ** Error bookkeeping: HasError, SetError, CheckError *)

(** [HasError] on a reference to a symbol. *)
Definition HasError (c : SemanticsContext) (symbol : SymbolRef) : bool :=
  bool_decide (symbol ∈ errorSymbols_ c).

(** [HasError] on a pointer to a symbol: a null pointer counts as
    erroneous. *)
Definition HasErrorPtr (c : SemanticsContext) (symbol : option SymbolRef) : bool :=
  match symbol with
  | None => true
  | Some s => HasError c s
  end.

Record Name : Type := mkName { name_source : CharBlock; name_symbol : option SymbolRef }.

(** [HasError] on a [parser::Name]: that of its symbol pointer. *)
Definition HasErrorName (c : SemanticsContext) (name : Name) : bool :=
  HasErrorPtr c (name_symbol name).

Definition CheckError (c : SemanticsContext) (symbol : SymbolRef) : Outcome unit :=
  if negb (AnyFatalError c)
  then Die "No error was reported but setting error on: %s"
  else Ret tt.

Definition SetError (c : SemanticsContext) (symbol : SymbolRef) (value : bool)
    : Outcome SemanticsContext :=
  if value then
    CheckError c symbol;;
    Ret (with_errorSymbols c ({[symbol]} ∪ errorSymbols_ c))
  else Ret c.

(** ** MiscChecker: the target of ASSIGN and assigned GO TO *)

Module MiscChecker.

Definition CheckAssignGotoName (G : SymbolGraph) (c : SemanticsContext)
    (name : Name) : Outcome SemanticsContext :=
  if HasErrorPtr c (name_symbol name) then Ret c
  else
    match name_symbol name with
    | None => Die "DEREF(name.symbol)"
    | Some s =>
      let symbol := symbol_at G s in
      let notDefaultInteger :=
        match sym_type symbol with
        | None => true
        | Some (category, kind) =>
          negb (bool_decide (category = Integer))
          || negb (bool_decide (kind = defaultIntegerKind_ c))
        end in
      if negb (sym_isVariableName symbol)
         || negb (bool_decide (sym_rank symbol = 0%nat))
         || notDefaultInteger
      then
        Ret (Say c
          (Attach
             (mkMessage SevError (name_source name)
                "'%s' must be a default integer scalar variable"
                [ArgName (name_source name)] [])
             (sym_name symbol) "Declaration of '%s'"
             [ArgName (sym_name symbol)]))
      else Ret c
    end.

End MiscChecker.

(** ** CommonBlockMap: merging the appearances of a common block *)

(** Keys of a [std::map<std::string, _>] are visited in the order of
    [std::string]'s [operator<], the byte-wise lexicographic order. *)
Definition key_le {V : Type} (a b : string * V) : Prop :=
  String.leb a.1 b.1 = true.

Global Instance key_le_dec {V} (a b : string * V) : Decision (key_le a b).
Proof. unfold key_le. apply _. Defined.

Module CommonBlockMap.
Section WithGraph.
Variable G : SymbolGraph.

Definition name (s : SymbolRef) : CharBlock := sym_name (symbol_at G s).
Definition size (s : SymbolRef) : N := sym_size (symbol_at G s).

(** The second loop nest of [CommonBlockIsInitialized]: the first object,
  in the order of the sets and of the objects within a set, that is not
  compiler-created, lies in [common] and is initialized. *)
Fixpoint InitializedEquivalenceObject (common : SymbolRef)
  (sets : list (list SymbolRef)) : option SymbolRef :=
match sets with
| [] => None
| set :: rest =>
  match
    List.find (λ obj,
      negb (sym_compilerCreated (symbol_at G obj))
      && bool_decide (sym_common (symbol_at G obj) = Some common)
      && sym_initialized (symbol_at G obj)) set
  with
  | Some obj => Some obj
  | None => InitializedEquivalenceObject common rest
  end
end.

(** Returns the symbol of an initialized member if the common block is
  initialized, and null ([None]) otherwise. *)
Definition CommonBlockIsInitialized (common : SymbolRef) : option SymbolRef :=
match
  List.find (λ member, sym_initialized (symbol_at G member))
    (sym_objects (symbol_at G common))
with
| Some member => Some member
| None =>
  InitializedEquivalenceObject common
    (equivalenceSets G (sym_owner (symbol_at G common)))
end.

Definition multipleInitialization (at_ common previousInit : CharBlock)
  : Message :=
Attach
  (mkMessage SevError at_ "Multiple initialization of COMMON block /%s/"
     [ArgName common] [])
  previousInit "Previous initialization of COMMON block /%s/"
  [ArgName common].

Definition distinctSizes (common : CharBlock) (hereSize : N) : Message :=
mkMessage SevPortability common
  "A named COMMON block should have the same size everywhere it appears (%zd bytes here)"
  [ArgSize hereSize] [].

(** The initialization check made on a later appearance ([info] is the
  record found under the link name). *)
Definition checkInitialization (info : CommonBlockInfo)
  (context : SemanticsContext) (common : SymbolRef)
  (isInitialized : option SymbolRef)
  : Outcome (CommonBlockInfo * SemanticsContext) :=
match isInitialized with
| Some initialized =>
  match initialization info with
  | Some previous =>
    if bool_decide (previous ≠ common) then
      match CommonBlockIsInitialized previous with
      | None => Die "DEREF(CommonBlockIsInitialized(**info.initialization))"
      | Some previousInit =>
        Ret (info,
             Say context
               (multipleInitialization (name initialized) (name common)
                  (name previousInit)))
      end
    else Ret (mkCommonBlockInfo (biggestSize info) (Some common), context)
  | None => Ret (mkCommonBlockInfo (biggestSize info) (Some common), context)
  end
| None => Ret (info, context)
end.

(** The size check made on a later appearance. *)
Definition checkSize (info : CommonBlockInfo) (context : SemanticsContext)
  (common : SymbolRef) : SemanticsContext :=
if negb (bool_decide (size common = size (biggestSize info)))
   && negb (cb_empty (name common))
then
  Warn context DistinctCommonSizes (distinctSizes (name common) (size common))
    (λ msg, Attach msg (name (biggestSize info))
              "Previously defined with a size of %zd bytes"
              [ArgSize (size (biggestSize info))])
else context.

Definition MapCommonBlockAndCheckConflicts
  (commonBlocks_ : gmap string CommonBlockInfo)
  (context : SemanticsContext) (common : SymbolRef)
  : Outcome (gmap string CommonBlockInfo * SemanticsContext) :=
let isInitialized := CommonBlockIsInitialized common in
let commonName := sym_linkName (symbol_at G common) (underscoring_ context) in
match commonBlocks_ !! commonName with
| None =>
  (* firstAppearance *)
  Ret (<[commonName :=
           mkCommonBlockInfo common
             (match isInitialized with
              | Some _ => Some common
              | None => None
              end)]> commonBlocks_,
       context)
| Some info =>
  '(info, context) ← checkInitialization info context common isInitialized;
  let context := checkSize info context common in
  let info :=
    if size (biggestSize info) <? size common
    then mkCommonBlockInfo common (initialization info)
    else info in
  Ret (<[commonName := info]> commonBlocks_, context)
end.

(** The pair reported for one record: the initialized appearance when
  there is one, else the biggest, with the biggest size. *)
Definition reported (blockInfo : CommonBlockInfo) : SymbolRef * N :=
(match initialization blockInfo with
 | Some initialized => initialized
 | None => biggestSize blockInfo
 end,
 size (biggestSize blockInfo)).

Definition GetCommonBlocks (commonBlocks_ : gmap string CommonBlockInfo)
  : list (SymbolRef * N) :=
(λ entry, reported entry.2) <$> merge_sort key_le (map_to_list commonBlocks_).

End WithGraph.
End CommonBlockMap.

(** [SemanticsContext::MapCommonBlockAndCheckConflicts]: the map is created
    on first use. *)
Definition MapCommonBlockAndCheckConflicts (G : SymbolGraph)
    (c : SemanticsContext) (common : SymbolRef) : Outcome SemanticsContext :=
  let c :=
    match commonBlockMap_ c with
    | None => with_commonBlockMap c (Some ∅)
    | Some _ => c
    end in
  '(m, c) ← CommonBlockMap.MapCommonBlockAndCheckConflicts G
              (default ∅ (commonBlockMap_ c)) c common;
  Ret (with_commonBlockMap c (Some m)).

(** [SemanticsContext::GetCommonBlocks]. *)
Definition GetCommonBlocks (G : SymbolGraph) (c : SemanticsContext)
    : list (SymbolRef * N) :=
  match commonBlockMap_ c with
  | Some m => CommonBlockMap.GetCommonBlocks G m
  | None => []
  end.

(** The messages that the size comparison of a later appearance adds: the
    portability note, when the sizes differ, the block is named and the
    warning is wanted. *)
Definition sizeNote (G : SymbolGraph) (c : SemanticsContext)
    (biggest common : SymbolRef) : list Message :=
  if negb (bool_decide (CommonBlockMap.size G common = CommonBlockMap.size G biggest))
     && negb (cb_empty (CommonBlockMap.name G common))
     && shouldWarn_ c DistinctCommonSizes (CommonBlockMap.name G common)
  then
    [Attach
       (CommonBlockMap.distinctSizes (CommonBlockMap.name G common)
          (CommonBlockMap.size G common))
       (CommonBlockMap.name G biggest)
       "Previously defined with a size of %zd bytes"
       [ArgSize (CommonBlockMap.size G biggest)]]
  else [].

(** What one call does to the record kept under the link name of [common]:
    [info] is the record found, if any. *)
Definition mergeAppearance (G : SymbolGraph) (info : option CommonBlockInfo)
    (common : SymbolRef) : CommonBlockInfo :=
  let isInitialized := CommonBlockMap.CommonBlockIsInitialized G common in
  match info with
  | None =>
    mkCommonBlockInfo common
      (match isInitialized with Some _ => Some common | None => None end)
  | Some info =>
    mkCommonBlockInfo
      (if CommonBlockMap.size G (biggestSize info) <? CommonBlockMap.size G common
       then common else biggestSize info)
      (match isInitialized, initialization info with
       | Some _, Some previous =>
         if bool_decide (previous ≠ common) then Some previous else Some common
       | Some _, None => Some common
       | None, previous => previous
       end)
  end.

(** The appearances, among the symbols of [commons] and in their order, of
    the common block with link name [n]. *)
Definition appearances (G : SymbolGraph) (underscoring : bool) (n : string)
    (commons : list SymbolRef) : list SymbolRef :=
  filter (λ s, sym_linkName (symbol_at G s) underscoring = n) commons.

(** max(s1..sn) over the sizes of the symbols of [l]. *)
Definition maxSize (G : SymbolGraph) (l : list SymbolRef) : N :=
  foldr N.max 0 (CommonBlockMap.size G <$> l).

(** [b] is the first symbol of [l] that has the largest size of all. *)
Definition IsBiggest (G : SymbolGraph) (l : list SymbolRef) (b : SymbolRef)
    : Prop :=
  ∃ before after,
    l = before ++ b :: after
    ∧ (∀ x, x ∈ before → CommonBlockMap.size G x < CommonBlockMap.size G b)
    ∧ (∀ x, x ∈ after → CommonBlockMap.size G x ≤ CommonBlockMap.size G b).

(** [p] is the first symbol of [l] that is initialized. *)
Definition IsFirstInitialized (G : SymbolGraph) (l : list SymbolRef)
    (p : SymbolRef) : Prop :=
  ∃ before after,
    l = before ++ p :: after
    ∧ is_Some (CommonBlockMap.CommonBlockIsInitialized G p)
    ∧ ∀ x, x ∈ before → CommonBlockMap.CommonBlockIsInitialized G x = None.

(** The record [info] sums up the appearances [l]. *)
Definition Summarizes (G : SymbolGraph) (l : list SymbolRef)
    (info : CommonBlockInfo) : Prop :=
  IsBiggest G l (biggestSize info)
  ∧ match initialization info with
    | Some p => IsFirstInitialized G l p
    | None => ∀ x, x ∈ l → CommonBlockMap.CommonBlockIsInitialized G x = None
    end.

(** The table [m] holds, under every link name, the summary of the
    appearances among [seen], and nothing under other names. *)
Definition Recorded (G : SymbolGraph) (underscoring : bool)
    (m : gmap string CommonBlockInfo) (seen : list SymbolRef) : Prop :=
  ∀ n,
    match m !! n with
    | Some info =>
      appearances G underscoring n seen ≠ []
      ∧ Summarizes G (appearances G underscoring n seen) info
    | None => appearances G underscoring n seen = []
    end.

(** A sequence of calls, as name resolution makes them, one per appearance. *)
Fixpoint MapAll (G : SymbolGraph) (c : SemanticsContext)
    (commons : list SymbolRef) : Outcome SemanticsContext :=
  match commons with
  | [] => Ret c
  | common :: rest =>
    c ← MapCommonBlockAndCheckConflicts G c common;
    MapAll G c rest
  end.

(** ** The scope location index *)

(** [ScopeIndexComparator]: by start, and on equal starts the larger range
    first. *)
Definition ScopeIndexComparator (x y : CharBlock) : bool :=
  (cb_begin x <? cb_begin y)
  || ((cb_begin x =? cb_begin y) && (cb_size y <? cb_size x)).

(** The index is a [std::multimap] under that comparator: here the list of
    its entries in iteration order.  An iterator is a position in the list;
    [begin()] is position 0 and [end()] is the length. *)
Abbreviation ScopeIndex := (list (CharBlock * ScopeRef)) (only parsing).

(** The invariant of the multimap: no entry is followed by one with a
    smaller key. *)
Definition entry_le (a b : CharBlock * ScopeRef) : Prop :=
  ScopeIndexComparator b.1 a.1 = false.

Definition IndexSorted (index : ScopeIndex) : Prop :=
  StronglySorted entry_le index.

(** [upper_bound(source)]: the first position whose key is greater than
    [source], or [end()]. *)
Fixpoint upper_bound (index : ScopeIndex) (source : CharBlock) : nat :=
  match index with
  | [] => 0
  | (key, _) :: rest =>
    if ScopeIndexComparator source key then 0%nat
    else S (upper_bound rest source)
  end.

(** [emplace(key, scope)]: a multimap puts the new entry at the upper bound
    of the keys equivalent to [key]. *)
Definition emplace (index : ScopeIndex) (key : CharBlock) (scope : ScopeRef)
    : ScopeIndex :=
  let i := upper_bound index key in
  take i index ++ (key, scope) :: drop i index.

(** The [do { --iter; ... } while (iter != begin)] loop of
    [SearchScopeIndex], entered with the iterator at [iter].  Decrementing
    [begin()] is undefined. *)
Fixpoint scanBackward (index : ScopeIndex) (source : CharBlock) (iter : nat)
    : Outcome nat :=
  match iter with
  | O => Undefined
  | S iter' =>
    match index !! iter' with
    | None => Undefined
    | Some (key, _) =>
      if Contains key source then Ret iter'
      else
        match iter' with
        | O => Ret (length index)
        | S _ => scanBackward index source iter'
        end
    end
  end.

Definition SearchScopeIndex (c : SemanticsContext) (source : CharBlock)
    : Outcome nat :=
  let index := scopeIndex_ c in
  match index with
  | _ :: _ => scanBackward index source (upper_bound index source)
  | [] => Ret (length index)
  end.

Definition FindScope (c : SemanticsContext) (source : CharBlock)
    : Outcome ScopeRef :=
  iter ← SearchScopeIndex c source;
  if bool_decide (iter ≠ length (scopeIndex_ c)) then
    match scopeIndex_ c !! iter with
    | Some (_, scope) => Ret scope
    | None => Undefined
    end
  else Die "SemanticsContext::FindScope(): invalid source location for '%s'".

(** What [UpdateScopeIndex] reads from its [Scope &] argument. *)
Record Scope : Type := mkScope { scope_ref : ScopeRef; sourceRange : CharBlock }.

(** The [while (&iter->second != &scope)] loop of [UpdateScopeIndex]. *)
Fixpoint findEntryOf (index : ScopeIndex) (scope : ScopeRef) (iter : nat)
    {struct iter} : Outcome nat :=
  match index !! iter with
  | None => Undefined
  | Some (_, s) =>
    if bool_decide (s ≠ scope) then
      match iter with
      | O => Die "CHECK(iter != scopeIndex_.begin())"
      | S iter' => findEntryOf index scope iter'
      end
    else Ret iter
  end.

Definition UpdateScopeIndex (c : SemanticsContext) (scope : Scope)
    (newSource : CharBlock) : Outcome SemanticsContext :=
  if cb_empty (sourceRange scope) then
    Ret (with_scopeIndex c (emplace (scopeIndex_ c) newSource (scope_ref scope)))
  else if negb (Contains (sourceRange scope) newSource) then
    iter ← SearchScopeIndex c (sourceRange scope);
    if bool_decide (iter ≠ length (scopeIndex_ c)) then
      iter ← findEntryOf (scopeIndex_ c) (scope_ref scope) iter;
      Ret (with_scopeIndex c
             (emplace (delete iter (scopeIndex_ c)) newSource (scope_ref scope)))
    else Die "CHECK(iter != scopeIndex_.end())"
  else Ret c.

(** ** The construct stack *)

(** Modelled from the spec: [PushConstruct] is defined in the header; it
    pushes the marker of the construct that is entered. *)
Definition PushConstruct (c : SemanticsContext) (node : N) : SemanticsContext :=
  with_constructStack c (constructStack_ c ++ [node]).

Definition PopConstruct (c : SemanticsContext) : Outcome SemanticsContext :=
  match constructStack_ c with
  | [] => Die "CHECK(!constructStack_.empty())"
  | _ :: _ => Ret (with_constructStack c (removelast (constructStack_ c)))
  end.

(** ** The index-variable guard *)

Definition EnumToString (k : IndexVarKind) : string :=
  match k with DO => "DO" | FORALL => "FORALL" end.

(** [activeIndexVars_] is a [std::map] from the symbol (by address) to a
    constant [IndexVarInfo].  [std::map::emplace] stores nothing when the key
    is present. *)
Definition map_emplace {V : Type} (m : gmap N V) (k : N) (v : V) : gmap N V :=
  match m !! k with
  | Some _ => m
  | None => <[k := v]> m
  end.

(** [CheckIndexVarRedefine(location, variable, message)]: the message
    reported, if any, next to the context. *)
Definition CheckIndexVarRedefineWith (G : SymbolGraph) (c : SemanticsContext)
    (location : CharBlock) (variable : SymbolRef)
    (severity : Severity) (text : string)
    : SemanticsContext * option Message :=
  let symbol := sym_ultimate (symbol_at G variable) in
  match activeIndexVars_ c !! symbol with
  | Some info =>
    let kind := EnumToString (iv_kind info) in
    let msg :=
      Attach
        (mkMessage severity location text
           [ArgText kind; ArgName (sym_name (symbol_at G symbol))] [])
        (iv_location info) "Enclosing %s construct" [ArgText kind] in
    (Say c msg, Some msg)
  | None => (c, None)
  end.

(** [CheckIndexVarRedefine(location, variable)]. *)
Definition CheckIndexVarRedefineAt (G : SymbolGraph) (c : SemanticsContext)
    (location : CharBlock) (variable : SymbolRef) : SemanticsContext :=
  (CheckIndexVarRedefineWith G c location variable SevError
     "Cannot redefine %s variable '%s'").1.

(** [CheckIndexVarRedefine(const parser::Name &)]. *)
Definition CheckIndexVarRedefineName (G : SymbolGraph) (c : SemanticsContext)
    (name : Name) : SemanticsContext :=
  match name_symbol name with
  | Some entity => CheckIndexVarRedefineAt G c (name_source name) entity
  | None => c
  end.

Definition ActivateIndexVar (G : SymbolGraph) (c : SemanticsContext)
    (name : Name) (kind : IndexVarKind) : SemanticsContext :=
  let c := CheckIndexVarRedefineName G c name in
  match name_symbol name with
  | Some indexVar =>
    with_activeIndexVars c
      (map_emplace (activeIndexVars_ c)
         (sym_ultimate (symbol_at G indexVar))
         (mkIndexVarInfo (name_source name) kind))
  | None => c
  end.

(** ** SemanticsVisitor: the composed parse-tree visitor *)

(** Modelled from the spec: the parse tree and [parser::Walk] are declared
    outside this file.  A node has a C++ type (a tag), belongs to one of the
    classes the visitor tells apart, and has children; the walk calls [Pre]
    on a node, descends into its children in order, then calls [Post]. *)
Inductive NodeClass :=
| StatementNode (source : CharBlock)            (* parser::Statement<T> *)
| UnlabeledStatementNode (source : CharBlock)   (* parser::UnlabeledStatement<T> *)
| ConstructNode (construct : N)                 (* a member of ConstructNode *)
| OtherNode.

#[local] Unset Elimination Schemes.
Inductive ParseNode :=
| mkNode (n_type : N) (n_class : NodeClass) (n_children : list ParseNode).
#[local] Set Elimination Schemes.

Definition n_type (n : ParseNode) : N := let 'mkNode t _ _ := n in t.
Definition n_class (n : ParseNode) : NodeClass := let 'mkNode _ c _ := n in c.
Definition n_children (n : ParseNode) : list ParseNode :=
  let 'mkNode _ _ l := n in l.

Definition statementSource (c : NodeClass) : option CharBlock :=
  match c with
  | StatementNode source | UnlabeledStatementNode source => Some source
  | ConstructNode _ | OtherNode => None
  end.

(** Induction on parse trees, with the hypothesis for every child. *)
Fixpoint ParseNode_ind (P : ParseNode → Prop)
    (step : ∀ t c children, Forall P children → P (mkNode t c children))
    (node : ParseNode) : P node :=
  match node with
  | mkNode t c children =>
    step t c children
      ((fix all (l : list ParseNode) : Forall P l :=
          match l with
          | [] => @List.Forall_nil _ P
          | child :: rest =>
            @List.Forall_cons _ P child rest (ParseNode_ind P step child) (all rest)
          end) children)
  end.

(** Whether a statement-level node occurs in a tree. *)
Fixpoint hasStatement (node : ParseNode) : bool :=
  match node with
  | mkNode _ c children =>
    bool_decide (is_Some (statementSource c))
    || existsb hasStatement children
  end.

Definition Handler : Type := ParseNode → SemanticsContext → SemanticsContext.

(** A checker class: for each node type, the [Enter] and the [Leave] it
    declares for that type, if any. *)
Record Checker : Type := mkChecker {
  ck_Enter : N → option Handler;
  ck_Leave : N → option Handler;
}.

(** What happened during a walk, for stating properties of it: each call of
    [set_location] and each call of a checker's handler, with the checker's
    position in the template argument list, the node, and the current
    location at the time of the call. *)
Inductive Event :=
| EvSetLocation (l : option CharBlock)
| EvEnter (checker : nat) (node : ParseNode) (location : option CharBlock)
| EvLeave (checker : nat) (node : ParseNode) (location : option CharBlock).

Record WalkState : Type := mkWalkState {
  ws_context : SemanticsContext;
  ws_events : list Event;
}.

(** The declarations of a handler for node type [t] among the checkers:
    the candidates of the overload resolution of [Enter(node)]. *)
Fixpoint candidates (sel : Checker → N → option Handler) (cs : list Checker)
    (i : nat) (t : N) : list (nat * Handler) :=
  match cs with
  | [] => []
  | c :: rest =>
    match sel c t with
    | Some h => (i, h) :: candidates sel rest (S i) t
    | None => candidates sel rest (S i) t
    end
  end.

(** "No two checkers may have the same Enter or Leave function": with two
    candidates the call is ambiguous and the visitor does not compile. *)
Definition NoCollision (cs : list Checker) : Prop :=
  ∀ t, (length (candidates ck_Enter cs 0 t) ≤ 1)%nat
       ∧ (length (candidates ck_Leave cs 0 t) ≤ 1)%nat.

Definition handlers (cs : list Checker) (h : Handler) : Prop :=
  ∃ c t, c ∈ cs ∧ (ck_Enter c t = Some h ∨ ck_Leave c t = Some h).

(** Checkers that leave the visitor's own bookkeeping alone. *)
Definition PreservesLocation (cs : list Checker) : Prop :=
  ∀ h, handlers cs h → ∀ node c, location_ (h node c) = location_ c.

Definition PreservesConstructStack (cs : list Checker) : Prop :=
  ∀ h, handlers cs h → ∀ node c, constructStack_ (h node c) = constructStack_ c.

(** The location an event was recorded with, for the calls of handlers. *)
Definition handlerLocation (e : Event) : option (option CharBlock) :=
  match e with
  | EvSetLocation _ => None
  | EvEnter _ _ l | EvLeave _ _ l => Some l
  end.

(** [s'] comes after [s] and has recorded the events [evs] since. *)
Definition extends (s s' : WalkState) (evs : list Event) : Prop :=
  ws_events s' = ws_events s ++ evs.

Module SemanticsVisitor.
Section WithCheckers.
Variable checkers : list Checker.

(** [Enter(node)]: the one declared handler, or else the inherited
  [BaseChecker::Enter], which does nothing. *)
Definition Enter (node : ParseNode) (s : WalkState) : WalkState :=
match candidates ck_Enter checkers 0 (n_type node) with
| (i, h) :: _ =>
  mkWalkState (h node (ws_context s))
    (ws_events s ++ [EvEnter i node (location_ (ws_context s))])
| [] => s
end.

Definition Leave (node : ParseNode) (s : WalkState) : WalkState :=
match candidates ck_Leave checkers 0 (n_type node) with
| (i, h) :: _ =>
  mkWalkState (h node (ws_context s))
    (ws_events s ++ [EvLeave i node (location_ (ws_context s))])
| [] => s
end.

Definition setLocation (l : option CharBlock) (s : WalkState) : WalkState :=
mkWalkState (set_location (ws_context s) l) (ws_events s ++ [EvSetLocation l]).

Definition Pre (node : ParseNode) (s : WalkState) : WalkState :=
match n_class node with
| StatementNode source | UnlabeledStatementNode source =>
  Enter node (setLocation (Some source) s)
| ConstructNode construct =>
  Enter node
    (mkWalkState (PushConstruct (ws_context s) construct) (ws_events s))
| OtherNode => Enter node s
end.

Definition Post (node : ParseNode) (s : WalkState) : Outcome WalkState :=
match n_class node with
| StatementNode _ | UnlabeledStatementNode _ =>
  Ret (setLocation None (Leave node s))
| ConstructNode _ =>
  let s := Leave node s in
  c ← PopConstruct (ws_context s);
  Ret (mkWalkState c (ws_events s))
| OtherNode => Ret (Leave node s)
end.

(** Modelled from the spec: [parser::Walk(node, visitor)] calls [Pre],
    visits the children in order, then calls [Post]. *)
Fixpoint WalkNode (node : ParseNode) (s : WalkState) : Outcome WalkState :=
match node with
| mkNode _ _ children =>
  s ← (fix walkChildren (l : list ParseNode) (s : WalkState) :=
         match l with
         | [] => Ret s
         | child :: rest => s ← WalkNode child s; walkChildren rest s
         end) children (Pre node s);
  Post node s
end.

Fixpoint WalkNodes (l : list ParseNode) (s : WalkState) : Outcome WalkState :=
match l with
| [] => Ret s
| child :: rest => s ← WalkNode child s; WalkNodes rest s
end.

(** [SemanticsVisitor::Walk(program)]: the result is read from the
  context once the tree has been walked. *)
Definition Walk (program : list ParseNode) (c : SemanticsContext)
  : Outcome (bool * WalkState) :=
s ← WalkNodes program (mkWalkState c []);
Ret (negb (AnyFatalError (ws_context s)), s).

End WithCheckers.
End SemanticsVisitor.

(** What a walk without statement-level nodes does to the location:
    nothing, and every handler it calls sees that location. *)
Definition keepsLocation (cs : list Checker) (node : ParseNode) : Prop :=
  hasStatement node = false →
  ∀ s s', SemanticsVisitor.WalkNode cs node s = Ret s' →
    location_ (ws_context s') = location_ (ws_context s)
    ∧ ∃ evs, extends s s' evs
             ∧ ∀ e, e ∈ evs → handlerLocation e = Some (location_ (ws_context s)).

(** ** The pass pipeline *)

Inductive Stage :=
| StValidateLabels | StCanonicalizeDo | StCanonicalizeAcc | StCanonicalizeOmp
| StCanonicalizeCUDA | StPerformStatementSemantics | StCanonicalizeDirectives
| StWriteAll.

Global Instance Stage_eq_dec : EqDecision Stage.
Proof. solve_decision. Defined.

(** The order in which [Semantics::Perform] names its stages. *)
Definition stageOrder : list Stage :=
  [StValidateLabels; StCanonicalizeDo; StCanonicalizeAcc; StCanonicalizeOmp;
   StCanonicalizeCUDA; StPerformStatementSemantics; StCanonicalizeDirectives;
   StWriteAll].

Inductive LanguageFeature := OpenACC | OpenMP | CUDA.

Module Semantics.
Section WithPasses.
(** The state a [Semantics] object works on: [program_] and [context_]. *)
Variable State : Type.
Variable context_ : State → SemanticsContext.

(** The passes defined in other files.  Each reads and updates the state;
  a stage also answers whether it succeeded. *)
Variable stage : Stage → State → bool * State.
Variables ResolveNames RewriteParseTree ComputeOffsets CheckDeclarations
StatementSemanticsPass1 StatementSemanticsPass2 AccStructureWalk
OmpStructureWalk CUDAWalk WarnUndefinedFunctionResult
CompileDataInitializationsIntoInitializers : State → State.
Variable IsEnabled : State → LanguageFeature → bool.
Variables UseFortranBuiltinsModule UsePPCBuiltinTypesModule
UsePPCBuiltinsModule : State → State.
Variable programEmpty : State → bool.
Variable frontModule : State → option string.
Variable isPPC : State → bool.

(** [PerformStatementSemantics]: the results of the two walks are dropped;
  the answer is read from the context at the end. *)
Definition PerformStatementSemantics (s : State) : bool * State :=
let s := ResolveNames s in
let s := RewriteParseTree s in
let s := ComputeOffsets s in
let s := CheckDeclarations s in
let s := StatementSemanticsPass1 s in
let s := StatementSemanticsPass2 s in
let s := if IsEnabled s OpenACC then AccStructureWalk s else s in
let s := if IsEnabled s OpenMP then OmpStructureWalk s else s in
let s := if IsEnabled s CUDA then CUDAWalk s else s in
let s :=
  if negb (Messages_AnyFatalError false (messages_ (context_ s)))
  then WarnUndefinedFunctionResult s else s in
let s :=
  if negb (AnyFatalError (context_ s))
  then CompileDataInitializationsIntoInitializers s else s in
(negb (AnyFatalError (context_ s)), s).

(** A computation on the state that also records which stages ran, and
  what each answered. *)
Definition Run (A : Type) : Type :=
State * list (Stage * bool) → A * (State * list (Stage * bool)).

Definition call (st : Stage) : Run bool := λ '(s, ran),
let '(ok, s) :=
  match st with
  | StPerformStatementSemantics => PerformStatementSemantics s
  | _ => stage st s
  end in
(ok, (s, ran ++ [(st, ok)])).

(** The C++ [a && b]: [b] is evaluated only when [a] is true. *)
Definition andThen (a b : Run bool) : Run bool := λ st,
let '(ok, st) := a st in
if ok then b st else (false, st).

(** The implicit USE of the builtin modules before the stages. *)
Definition useBuiltins (s : State) : State :=
if negb (programEmpty s) then
  match frontModule s with
  | Some "__fortran_builtins"%string | Some "__ppc_types"%string => s
  | Some "__ppc_intrinsics"%string | Some "mma"%string =>
    UsePPCBuiltinTypesModule s
  | _ =>
    let s := UseFortranBuiltinsModule s in
    if isPPC s then UsePPCBuiltinsModule (UsePPCBuiltinTypesModule s) else s
  end
else s.

Definition Perform (s : State) : bool * (State * list (Stage * bool)) :=
andThen (call StValidateLabels)
  (andThen (call StCanonicalizeDo)
    (andThen (call StCanonicalizeAcc)
      (andThen (call StCanonicalizeOmp)
        (andThen (call StCanonicalizeCUDA)
          (andThen (call StPerformStatementSemantics)
            (andThen (call StCanonicalizeDirectives)
              (call StWriteAll)))))))
  (useBuiltins s, []).

End WithPasses.
End Semantics.

(** ** Concrete inputs used by the examples below *)

(** A context as the constructor leaves it, with every warning wanted. *)
Definition freshContext : SemanticsContext :=
  mkContext [] false true (λ _ _, true) 4 None [] ∅ ∅ [] None.

Definition anError (at_ : CharBlock) : Message :=
  mkMessage SevError at_ "some error" [] [].

(** A symbol with nothing special about it. *)
Definition plainSymbol (self : SymbolRef) (name_ : CharBlock) : Symbol :=
  mkSymbol name_ 4 0 [] false false None (λ _, ""%string) true 0
    (Some (Integer, 4%Z)) self.

(** Three program units that each declare COMMON /blk/: symbols 1, 2 and 3,
    of 8, 16 and 4 bytes.  The first two initialize a member (symbols 11 and
    12); the third does not (member 13). *)
Definition commonSymbol (name_ : CharBlock) (size_ : N) (owner : ScopeRef)
    (objects : list SymbolRef) (self : SymbolRef) : Symbol :=
  mkSymbol name_ size_ owner objects false false None (λ _, "blk_"%string)
    false 0 None self.

Definition memberSymbol (name_ : CharBlock) (initialized : bool)
    (common : SymbolRef) (self : SymbolRef) : Symbol :=
  mkSymbol name_ 4 0 [] false initialized (Some common) (λ _, ""%string)
    true 0 (Some (Integer, 4%Z)) self.

Definition exampleGraph : SymbolGraph :=
  mkGraph
    (λ s,
       if s =? 1 then commonSymbol (mkCharBlock 100 3) 8 1 [11] 1
       else if s =? 2 then commonSymbol (mkCharBlock 200 3) 16 2 [12] 2
       else if s =? 3 then commonSymbol (mkCharBlock 300 3) 4 3 [13] 3
       else if s =? 11 then memberSymbol (mkCharBlock 110 1) true 1 11
       else if s =? 12 then memberSymbol (mkCharBlock 210 1) true 2 12
       else if s =? 13 then memberSymbol (mkCharBlock 310 1) false 3 13
       else plainSymbol s (mkCharBlock (1000 + s) 1))
    (λ _, []).

(** A pipeline over a counter in which every pass adds one and only the
    stages listed in [failing] fail. *)
Definition countingStage (failing : list Stage) (st : Stage) (s : nat)
    : bool * nat :=
  (negb (bool_decide (st ∈ failing)), S s).

Definition examplePerform (failing : list Stage) (s : nat)
    : bool * (nat * list (Stage * bool)) :=
  Semantics.Perform nat (λ _, freshContext) (countingStage failing)
    S S S S S S S S S S S (λ _ _, false) S S S (λ _, true) (λ _, None)
    (λ _, false) s.

(** Two checkers.  [checkerA] declares handlers for node type 1 (think of
    [parser::Statement<parser::ActionStmt>]); [checkerB] declares handlers
    for node type 2 (the statement inside).  Neither touches the context. *)
Definition quiet : Handler := λ _ c, c.

Definition checkerA : Checker :=
  mkChecker (λ t, if t =? 1 then Some quiet else None)
            (λ t, if t =? 1 then Some quiet else None).

Definition checkerB : Checker :=
  mkChecker (λ t, if t =? 2 then Some quiet else None)
            (λ t, if t =? 2 then Some quiet else None).

(** A checker that reports an error when it leaves a node of type 2. *)
Definition checkerE : Checker :=
  mkChecker (λ _, None)
            (λ t, if t =? 2
                  then Some (λ _ c, Say c (anError (default (mkCharBlock 0 0) (location_ c))))
                  else None).

(** [x = 1]: a statement of type 1 at source [40, 45) around a node of type 2. *)
Definition assignmentStmt : ParseNode :=
  mkNode 1 (StatementNode (mkCharBlock 40 5)) [mkNode 2 OtherNode []].

(** [IF (c) x = 1]: the statement at [60, 74) holds the IF statement (type
    3), which holds the unlabeled action statement at [67, 74). *)
Definition ifStmt : ParseNode :=
  mkNode 1 (StatementNode (mkCharBlock 60 14))
    [mkNode 3 OtherNode
       [mkNode 4 (UnlabeledStatementNode (mkCharBlock 67 7)) [mkNode 2 OtherNode []]]].

(** The order of calls that C6 words for a statement node under checkers
    [A; B] (positions 0 and 1): location set, A's Enter, B's Enter, whatever
    the children cause, A's Leave, B's Leave, location reset; the location
    never null in a handler. *)
Definition ClaimedStatementEvents (node : ParseNode) (source : CharBlock)
    (events : list Event) : Prop :=
  (∃ inner lA lB,
     events =
       [EvSetLocation (Some source);
        EvEnter 0 node (Some source); EvEnter 1 node (Some source)]
       ++ inner ++ [EvLeave 0 node lA; EvLeave 1 node lB; EvSetLocation None])
  ∧ ∀ e, e ∈ events → handlerLocation e ≠ Some None.

(** * Further parts of the file *)

(** ** Vocabulary for the properties of the common-block table *)

(** Two different initialized appearances share a link name. *)
Definition Conflict (G : SymbolGraph) (underscoring : bool)
    (commons : list SymbolRef) : Prop :=
  ∃ x y,
    x ∈ commons ∧ y ∈ commons ∧ x ≠ y
    ∧ sym_linkName (symbol_at G x) underscoring
      = sym_linkName (symbol_at G y) underscoring
    ∧ is_Some (CommonBlockMap.CommonBlockIsInitialized G x)
    ∧ is_Some (CommonBlockMap.CommonBlockIsInitialized G y).

(** Some call among [rest], made after the calls for [seen], meets an
    initialization representative other than its own symbol. *)
Definition StepConflict (G : SymbolGraph) (underscoring : bool)
    (seen rest : list SymbolRef) : Prop :=
  ∃ r1 z r2 p,
    rest = r1 ++ z :: r2
    ∧ is_Some (CommonBlockMap.CommonBlockIsInitialized G z)
    ∧ IsFirstInitialized G
        (appearances G underscoring
           (sym_linkName (symbol_at G z) underscoring) (seen ++ r1)) p
    ∧ p ≠ z.

(** What the initialization check of a later appearance reports: [init] is
    the initialization representative that the record holds. *)
Definition initializationReport (G : SymbolGraph) (init : option SymbolRef)
    (common : SymbolRef) : list Message :=
  match CommonBlockMap.CommonBlockIsInitialized G common, init with
  | Some initialized, Some previous =>
    if bool_decide (previous ≠ common) then
      match CommonBlockMap.CommonBlockIsInitialized G previous with
      | Some previousInit =>
        [CommonBlockMap.multipleInitialization
           (CommonBlockMap.name G initialized) (CommonBlockMap.name G common)
           (CommonBlockMap.name G previousInit)]
      | None => []
      end
    else []
  | _, _ => []
  end.

(** What one call reports: nothing for the first appearance of a link name,
    and for a later appearance what the initialization check and the size
    comparison report. *)
Definition callReports (G : SymbolGraph) (c : SemanticsContext)
    (info : option CommonBlockInfo) (common : SymbolRef) : list Message :=
  match info with
  | Some info =>
    initializationReport G (initialization info) common
    ++ sizeNote G c (biggestSize info) common
  | None => []
  end.

(** ** Sequences of calls of [SetError] *)

Fixpoint SetErrors (c : SemanticsContext) (calls : list (SymbolRef * bool))
    : Outcome SemanticsContext :=
  match calls with
  | [] => Ret c
  | (symbol, value) :: rest => c ← SetError c symbol value; SetErrors c rest
  end.

(** ** The index-variable guard, continued *)

(** [DeactivateIndexVar] removes the entry of the entity only if the
    location it records compares equal to the source of the name.  The
    [operator==] of [parser::CharBlock] is declared in another file;
    [sameSource] stands for it. *)
Definition DeactivateIndexVar (sameSource : CharBlock → CharBlock → bool)
    (G : SymbolGraph) (c : SemanticsContext) (name : Name) : SemanticsContext :=
  match name_symbol name with
  | Some indexVar =>
    let key := sym_ultimate (symbol_at G indexVar) in
    match activeIndexVars_ c !! key with
    | Some info =>
      if sameSource (iv_location info) (name_source name)
      then with_activeIndexVars c (delete key (activeIndexVars_ c))
      else c
    | None => c
    end
  | None => c
  end.

Definition address_le {V : Type} (a b : N * V) : Prop := a.1 ≤ b.1.

Global Instance address_le_dec {V} (a b : N * V) : Decision (address_le a b).
Proof. unfold address_le. apply _. Defined.

(** [GetIndexVars(kind)]: the active symbols of that kind, in the order of
    the map, which is that of their addresses. *)
Definition GetIndexVars (c : SemanticsContext) (kind : IndexVarKind)
    : list SymbolRef :=
  (λ entry, entry.1)
    <$> filter (λ entry, iv_kind entry.2 = kind)
          (merge_sort address_le (map_to_list (activeIndexVars_ c))).

(** ** Temporary names *)

(** The order in which a [std::set<std::string>] is visited. *)
Definition string_le (a b : string) : Prop := String.leb a b = true.

Global Instance string_le_dec (a b : string) : Decision (string_le a b).
Proof. unfold string_le. apply _. Defined.

Definition IsTempName (name : string) : bool :=
  bool_decide (5 < String.length name)%nat
  && bool_decide (String.substring 0 5 name = ".F18."%string).

(** [SaveTempName(name)]: the name as it is kept in [tempNames_], and the
    pool afterwards. *)
Definition SaveTempName (tempNames_ : gset string) (name : string)
    : string * gset string :=
  (name, {[name]} ∪ tempNames_).

(** [GetTempName(scope)]: [scope] is given by the names it declares.
    [std::to_string] of the size of the pool is its decimal numeral. *)
Definition GetTempName (tempNames_ : gset string) (scope : gset string)
    : string * gset string :=
  match
    List.find (λ str, IsTempName str && bool_decide (str ∉ scope))
      (merge_sort string_le (elements tempNames_))
  with
  | Some name => (name, tempNames_)
  | None => SaveTempName tempNames_ (".F18." +:+ pretty (size tempNames_))
  end.

(** The temporary names of the pool are numbered below its size: what a
    pool looks like that grew by [GetTempName] and by saving names that
    are not temporary names. *)
Definition NumberedPool (tempNames_ : gset string) : Prop :=
  ∀ str, str ∈ tempNames_ → IsTempName str = true →
    ∃ k : nat, (k < size tempNames_)%nat ∧ str = ".F18." +:+ pretty k.

(** ** Lazily loaded builtin modules *)

(** The members of [SemanticsContext] that hold the builtin scopes: a null
    pointer is [None]; [cudaBuiltinsScope_] and [cudaDeviceScope_] are
    [std::optional]s of a pointer.  [reads_] and [supplied_] record, for
    stating properties, the calls made to the module-file reader and to
    [IntrinsicProcTable::SupplyBuiltins]. *)
Record BuiltinScopes : Type := mkBuiltinScopes {
  builtinsScope_ : option ScopeRef;
  ppcBuiltinTypesScope_ : option ScopeRef;
  ppcBuiltinsScope_ : option ScopeRef;
  cudaBuiltinsScope_ : option (option ScopeRef);
  cudaDeviceScope_ : option (option ScopeRef);
  reads_ : list string;
  supplied_ : list ScopeRef;
}.

Module Builtins.
Section WithReader.
(** [ModFileReader::Read(name, intrinsic, nullptr, silent)], defined in
    another file: the scope of the module, or null when it is not found. *)
Variable Read : string → option ScopeRef.

Definition GetBuiltinModule (s : BuiltinScopes) (name : string)
    : option ScopeRef * BuiltinScopes :=
  (Read name,
   mkBuiltinScopes (builtinsScope_ s) (ppcBuiltinTypesScope_ s)
     (ppcBuiltinsScope_ s) (cudaBuiltinsScope_ s) (cudaDeviceScope_ s)
     (reads_ s ++ [name]) (supplied_ s)).

Definition UseFortranBuiltinsModule (s : BuiltinScopes) : BuiltinScopes :=
  match builtinsScope_ s with
  | None =>
    let '(scope, s) := GetBuiltinModule s "__fortran_builtins" in
    mkBuiltinScopes scope (ppcBuiltinTypesScope_ s) (ppcBuiltinsScope_ s)
      (cudaBuiltinsScope_ s) (cudaDeviceScope_ s) (reads_ s)
      (match scope with
       | Some builtins => supplied_ s ++ [builtins]
       | None => supplied_ s
       end)
  | Some _ => s
  end.

Definition UsePPCBuiltinTypesModule (s : BuiltinScopes) : BuiltinScopes :=
  match ppcBuiltinTypesScope_ s with
  | None =>
    let '(scope, s) := GetBuiltinModule s "__ppc_types" in
    mkBuiltinScopes (builtinsScope_ s) scope (ppcBuiltinsScope_ s)
      (cudaBuiltinsScope_ s) (cudaDeviceScope_ s) (reads_ s) (supplied_ s)
  | Some _ => s
  end.

Definition UsePPCBuiltinsModule (s : BuiltinScopes) : BuiltinScopes :=
  match ppcBuiltinsScope_ s with
  | None =>
    let '(scope, s) := GetBuiltinModule s "__ppc_intrinsics" in
    mkBuiltinScopes (builtinsScope_ s) (ppcBuiltinTypesScope_ s) scope
      (cudaBuiltinsScope_ s) (cudaDeviceScope_ s) (reads_ s) (supplied_ s)
  | Some _ => s
  end.

Definition GetCUDABuiltinsScope (s : BuiltinScopes)
    : Outcome (ScopeRef * BuiltinScopes) :=
  s ← match cudaBuiltinsScope_ s with
      | None =>
        let '(scope, s) := GetBuiltinModule s "__cuda_builtins" in
        let s :=
          mkBuiltinScopes (builtinsScope_ s) (ppcBuiltinTypesScope_ s)
            (ppcBuiltinsScope_ s) (Some scope) (cudaDeviceScope_ s)
            (reads_ s) (supplied_ s) in
        match scope with
        | Some _ => Ret s
        | None => Die "CHECK(cudaBuiltinsScope_.value() != nullptr)"
        end
      | Some _ => Ret s
      end;
  match cudaBuiltinsScope_ s with
  | Some (Some scope) => Ret (scope, s)
  | _ => Undefined
  end.

Definition GetCUDADeviceScope (s : BuiltinScopes)
    : Outcome (ScopeRef * BuiltinScopes) :=
  s ← match cudaDeviceScope_ s with
      | None =>
        let '(scope, s) := GetBuiltinModule s "cudadevice" in
        let s :=
          mkBuiltinScopes (builtinsScope_ s) (ppcBuiltinTypesScope_ s)
            (ppcBuiltinsScope_ s) (cudaBuiltinsScope_ s) (Some scope)
            (reads_ s) (supplied_ s) in
        match scope with
        | Some _ => Ret s
        | None => Die "CHECK(cudaDeviceScope_.value() != nullptr)"
        end
      | Some _ => Ret s
      end;
  match cudaDeviceScope_ s with
  | Some (Some scope) => Ret (scope, s)
  | _ => Undefined
  end.

End WithReader.
End Builtins.

(** ** Scope trees *)

(** What [WarnUndefinedFunctionResult] reads from [SubprogramDetails]. *)
Record SubprogramDetails : Type := mkSubprogramDetails {
  subp_isFunction : bool;       (* isFunction() *)
  subp_isInterface : bool;      (* isInterface() *)
  subp_stmtFunction : bool;     (* stmtFunction() != nullptr *)
  subp_result : SymbolRef;      (* result() *)
}.

(** A [Scope] with what the traversals of this file read from it:
    [symbol()], [IsModuleFile()], the symbols of the scope and its common
    blocks in iteration order, and [children()]. *)
#[local] Unset Elimination Schemes.
Inductive ScopeTree :=
| mkScopeTree (symbol : option SymbolRef) (isModuleFile : bool)
    (symbols commonBlocks : list SymbolRef) (children : list ScopeTree).
#[local] Set Elimination Schemes.

Definition st_symbol (scope : ScopeTree) : option SymbolRef :=
  let 'mkScopeTree symbol _ _ _ _ := scope in symbol.
Definition st_symbols (scope : ScopeTree) : list SymbolRef :=
  let 'mkScopeTree _ _ symbols _ _ := scope in symbols.

(** Induction on scope trees, with the hypothesis for every child. *)
Fixpoint ScopeTree_ind (P : ScopeTree → Prop)
    (step : ∀ symbol isModuleFile symbols commonBlocks children,
       Forall P children →
       P (mkScopeTree symbol isModuleFile symbols commonBlocks children))
    (scope : ScopeTree) : P scope :=
  match scope with
  | mkScopeTree symbol isModuleFile symbols commonBlocks children =>
    step symbol isModuleFile symbols commonBlocks children
      ((fix all (l : list ScopeTree) : Forall P l :=
          match l with
          | [] => @List.Forall_nil _ P
          | child :: rest =>
            @List.Forall_cons _ P child rest (ScopeTree_ind P step child) (all rest)
          end) children)
  end.

(** *** Collecting the symbol names *)

Module NameToSymbolMap.
Section WithOrder.
(** [operator<] of [parser::CharBlock], which compares the characters the
    blocks refer to and is declared in another file. *)
Variable before : CharBlock → CharBlock → bool.

(** A [std::multimap<CharBlock, SymbolRef>]: its entries in iteration
    order. *)
Definition ordered (a b : CharBlock * SymbolRef) : Prop :=
  before b.1 a.1 = false.

Fixpoint upper_bound (symbols : list (CharBlock * SymbolRef))
    (name : CharBlock) : nat :=
  match symbols with
  | [] => 0
  | (key, _) :: rest =>
    if before name key then 0%nat else S (upper_bound rest name)
  end.

Definition emplace (symbols : list (CharBlock * SymbolRef))
    (name : CharBlock) (symbol : SymbolRef) : list (CharBlock * SymbolRef) :=
  let i := upper_bound symbols name in
  take i symbols ++ (name, symbol) :: drop i symbols.

End WithOrder.
End NameToSymbolMap.

Section SymbolNames.
Variable before : CharBlock → CharBlock → bool.
Variable G : SymbolGraph.

Fixpoint GetSymbolNames (scope : ScopeTree)
    (symbols : list (CharBlock * SymbolRef)) : list (CharBlock * SymbolRef) :=
  match scope with
  | mkScopeTree _ _ locals commonBlocks children =>
    let symbols :=
      foldl (λ symbols symbol,
               NameToSymbolMap.emplace before symbols
                 (sym_name (symbol_at G symbol)) symbol)
        symbols locals in
    let symbols :=
      foldl (λ symbols symbol,
               NameToSymbolMap.emplace before symbols
                 (sym_name (symbol_at G symbol)) symbol)
        symbols commonBlocks in
    foldl (λ symbols child, GetSymbolNames child symbols) symbols children
  end.

End SymbolNames.

(** Every symbol and common block of a scope tree, scope by scope. *)
Fixpoint allSymbols (scope : ScopeTree) : list SymbolRef :=
  match scope with
  | mkScopeTree _ _ locals commonBlocks children =>
    locals ++ commonBlocks ++ flat_map allSymbols children
  end.

(** *** Functions whose result is never defined *)

(** [SemanticsContext::NoteDefinedSymbol] and [IsSymbolDefined], on the set
    [isDefined_]. *)
Definition NoteDefinedSymbol (isDefined_ : gset N) (symbol : SymbolRef)
    : gset N :=
  {[symbol]} ∪ isDefined_.

Definition IsSymbolDefined (isDefined_ : gset N) (symbol : SymbolRef) : bool :=
  bool_decide (symbol ∈ isDefined_).

Section UndefinedFunctionResults.
Variable G : SymbolGraph.
(** [symbol.detailsIf<SubprogramDetails>()]. *)
Variable subprogramDetails : SymbolRef → option SubprogramDetails.
(** [IsFunctionResult(symbol)], declared in another file. *)
Variable IsFunctionResult : SymbolRef → bool.
(** [IsInitialized(symbol, ignoreDataStatements = true, ignoreAllocatable =
    true, ignorePointer = true)], declared in another file. *)
Variable IsInitialized : SymbolRef → bool.
Variable isDefined_ : gset N.

Definition WasDefined (symbol : SymbolRef) : bool :=
  IsSymbolDefined isDefined_ symbol || IsInitialized symbol.

Definition neverDefined (at_ : CharBlock) : Message :=
  mkMessage SevWarning at_ "Function result is never defined" [] [].

Fixpoint WarnUndefinedFunctionResult (context : SemanticsContext)
    (scope : ScopeTree) : SemanticsContext :=
  match scope with
  | mkScopeTree symbol isModuleFile locals _ children =>
    let context :=
      match symbol with
      | Some symbol =>
        match subprogramDetails symbol with
        | Some subp =>
          if subp_isFunction subp && negb (subp_isInterface subp)
             && negb (subp_stmtFunction subp)
          then
            if WasDefined (subp_result subp) then context
            else if existsb (λ local, IsFunctionResult local && WasDefined local)
                      locals
            then context
            else Warn context UndefinedFunctionResult
                   (neverDefined (sym_name (symbol_at G symbol))) id
          else context
        | None => context
        end
      | None => context
      end in
    if negb isModuleFile
    then foldl WarnUndefinedFunctionResult context children
    else context
  end.

(** The scopes the traversal looks at: the children of a module-file scope
    are left out. *)
Fixpoint reached (scope : ScopeTree) : list ScopeTree :=
  match scope with
  | mkScopeTree _ isModuleFile _ _ children =>
    scope :: (if isModuleFile then [] else flat_map reached children)
  end.

(** [scope] is the scope of the function [f], and neither the result of
    [f] nor a function result among the symbols of the scope was defined. *)
Definition UndefinedFunction (scope : ScopeTree) (f : SymbolRef) : Prop :=
  st_symbol scope = Some f
  ∧ ∃ subp, subprogramDetails f = Some subp
      ∧ subp_isFunction subp = true
      ∧ subp_isInterface subp = false
      ∧ subp_stmtFunction subp = false
      ∧ WasDefined (subp_result subp) = false
      ∧ ∀ local, local ∈ st_symbols scope →
          IsFunctionResult local = true → WasDefined local = false.

End UndefinedFunctionResults.

(** ** The record of a pipeline run *)

(** [StagesRun run s ran s']: the record [ran] is that of a real run from
    the state [s] to the state [s'].  Every stage recorded was run on the
    state that the one before it left, and answered what is recorded. *)
Inductive StagesRun {State : Type} (run : Stage → State → bool * State)
    : State → list (Stage * bool) → State → Prop :=
| ran_nil (s : State) : StagesRun run s [] s
| ran_cons (st : Stage) (ok : bool) (s s1 : State)
    (rest : list (Stage * bool)) (s' : State) :
    run st s = (ok, s1) → StagesRun run s1 rest s' →
    StagesRun run s ((st, ok) :: rest) s'.

(** * Properties *)

(** ** Outcomes *)

Lemma bind_Ret {A B} (o : Outcome A) (k : A → Outcome B) (b : B) :
  o ≫= k = Ret b → ∃ a, o = Ret a ∧ k a = Ret b.
Proof. destruct o; simpl; [eauto | discriminate | discriminate]. Qed.

(** ** Error bookkeeping *)

Lemma AnyFatalError_Say c m :
  AnyFatalError (Say c m) = AnyFatalError c || IsFatal (warningsAreErrors_ c) m.
Proof.
  unfold AnyFatalError, Messages_AnyFatalError, Say. simpl.
  rewrite existsb_app. simpl. by rewrite orb_false_r.
Qed.

(** C9. [SetError(symbol, true)] aborts when no fatal diagnostic has been
    recorded; when one has been recorded it returns with the symbol in the
    error set, so that [HasError(symbol)] is true afterwards (and stays true
    for the symbols that were marked before). *)
Theorem SetError_guard (c : SemanticsContext) (symbol : SymbolRef) :
  (AnyFatalError c = false →
     ∃ msg, SetError c symbol true = Die msg)
  ∧ (AnyFatalError c = true →
     ∃ c', SetError c symbol true = Ret c'
           ∧ errorSymbols_ c' = {[symbol]} ∪ errorSymbols_ c
           ∧ HasError c' symbol = true
           ∧ (∀ other, HasError c other = true → HasError c' other = true)
           ∧ messages_ c' = messages_ c).
Proof.
  split; intros Hfatal; unfold SetError, CheckError; rewrite Hfatal; simpl.
  - eauto.
  - eexists. split; [reflexivity |]. simpl. repeat split.
    + unfold HasError. simpl. apply bool_decide_eq_true. set_solver.
    + intros other. unfold HasError. simpl.
      rewrite !bool_decide_eq_true. set_solver.
Qed.

Lemma SetError_guard_witness :
  (∃ msg, SetError freshContext 7 true = Die msg)
  ∧ (∃ c', SetError (Say freshContext (anError (mkCharBlock 0 1))) 7 true = Ret c'
           ∧ HasError c' 7 = true).
Proof.
  split.
  - apply (proj1 (SetError_guard freshContext 7)). reflexivity.
  - destruct (proj2 (SetError_guard (Say freshContext (anError (mkCharBlock 0 1))) 7))
      as (c' & H1 & _ & H2 & _); [reflexivity |].
    exists c'. split; assumption.
Defined.

(** C10. [HasError] is true on a null symbol pointer, hence on a name whose
    symbol was never resolved, and the caller in this file,
    [CheckAssignGotoName], then returns without reporting anything. *)
Theorem HasError_null_symbol (G : SymbolGraph) (c : SemanticsContext)
    (source : CharBlock) :
  HasErrorPtr c None = true
  ∧ HasErrorName c (mkName source None) = true
  ∧ MiscChecker.CheckAssignGotoName G c (mkName source None) = Ret c.
Proof. repeat split. Qed.

(** On a resolved symbol that is not marked, the same check goes on to look
    at the symbol: the early return is specific to erroneous names. *)
Lemma CheckAssignGotoName_resolved (G : SymbolGraph) (c : SemanticsContext)
    (source : CharBlock) (s : SymbolRef) :
  HasError c s = false →
  sym_isVariableName (symbol_at G s) = false →
  ∃ m, MiscChecker.CheckAssignGotoName G c (mkName source (Some s)) = Ret (Say c m)
       ∧ msg_severity m = SevError ∧ msg_at m = source.
Proof.
  intros Hno Hvar. unfold MiscChecker.CheckAssignGotoName. simpl.
  rewrite Hno, Hvar. simpl. eexists. split; [reflexivity |]. split; reflexivity.
Qed.

(** ** The index-variable guard *)

(** C8, as stated, fails: with symbol 5 active as a DO variable since
    location 10, activating it again at location 20 as a FORALL variable
    reports the redefinition but leaves the recorded (location, kind) as it
    was. *)
Lemma ActivateIndexVar_keeps_existing_entry :
  let c := with_activeIndexVars freshContext
             {[5 := mkIndexVarInfo (mkCharBlock 10 1) DO]} in
  let c' := ActivateIndexVar exampleGraph c (mkName (mkCharBlock 20 1) (Some 5)) FORALL in
  activeIndexVars_ c' !! 5 = Some (mkIndexVarInfo (mkCharBlock 10 1) DO)
  ∧ activeIndexVars_ c' !! 5 ≠ Some (mkIndexVarInfo (mkCharBlock 20 1) FORALL)
  ∧ length (messages_ c') = 1%nat.
Proof. vm_compute. repeat split. discriminate. Qed.

(** C8, amended.  [ActivateIndexVar(name, kind)] on a resolved name first
    looks for an active entry of the underlying entity.  If there is one, it
    reports "Cannot redefine" with a note at the recorded location and
    leaves the table as it is; if there is none, it reports nothing and
    records (location, kind) for the entity.  On an unresolved name it does
    nothing. *)
Theorem ActivateIndexVar_spec (G : SymbolGraph) (c : SemanticsContext)
    (name : Name) (kind : IndexVarKind) :
  let c' := ActivateIndexVar G c name kind in
  match name_symbol name with
  | None => c' = c
  | Some indexVar =>
    let entity := sym_ultimate (symbol_at G indexVar) in
    match activeIndexVars_ c !! entity with
    | Some info =>
      activeIndexVars_ c' = activeIndexVars_ c
      ∧ ∃ m, messages_ c' = messages_ c ++ [m]
             ∧ msg_severity m = SevError
             ∧ msg_at m = name_source name
             ∧ msg_text m = "Cannot redefine %s variable '%s'"%string
             ∧ att_at <$> msg_attachments m = [iv_location info]
    | None =>
      activeIndexVars_ c' =
        <[entity := mkIndexVarInfo (name_source name) kind]> (activeIndexVars_ c)
      ∧ messages_ c' = messages_ c
    end
  end.
Proof.
  unfold ActivateIndexVar, CheckIndexVarRedefineName, CheckIndexVarRedefineAt,
    CheckIndexVarRedefineWith.
  destruct (name_symbol name) as [indexVar|]; simpl; [| reflexivity].
  destruct (activeIndexVars_ c !! sym_ultimate (symbol_at G indexVar))
    as [info|] eqn:Hactive; simpl.
  - unfold map_emplace. simpl. rewrite Hactive. split; [reflexivity |].
    eexists. split; [reflexivity |]. repeat split.
  - unfold map_emplace. rewrite Hactive. split; reflexivity.
Qed.

(** ** The pass pipeline *)

Section PerformProperties.
Context {State : Type} (context_ : State → SemanticsContext)
  (stage : Stage → State → bool * State)
  (ResolveNames RewriteParseTree ComputeOffsets CheckDeclarations
     StatementSemanticsPass1 StatementSemanticsPass2 AccStructureWalk
     OmpStructureWalk CUDAWalk WarnUndefinedFunctionResult
     CompileDataInitializationsIntoInitializers : State → State)
  (IsEnabled : State → LanguageFeature → bool)
  (UseFortranBuiltinsModule UsePPCBuiltinTypesModule
     UsePPCBuiltinsModule : State → State)
  (programEmpty : State → bool) (frontModule : State → option string)
  (isPPC : State → bool).

Local Abbreviation Perform :=
  (Semantics.Perform State context_ stage ResolveNames RewriteParseTree
     ComputeOffsets CheckDeclarations StatementSemanticsPass1
     StatementSemanticsPass2 AccStructureWalk OmpStructureWalk CUDAWalk
     WarnUndefinedFunctionResult CompileDataInitializationsIntoInitializers
     IsEnabled UseFortranBuiltinsModule UsePPCBuiltinTypesModule
     UsePPCBuiltinsModule programEmpty frontModule isPPC).
Local Abbreviation useBuiltins :=
  (Semantics.useBuiltins State UseFortranBuiltinsModule
     UsePPCBuiltinTypesModule UsePPCBuiltinsModule programEmpty frontModule
     isPPC).
Local Abbreviation call :=
  (Semantics.call State context_ stage ResolveNames RewriteParseTree
     ComputeOffsets CheckDeclarations StatementSemanticsPass1
     StatementSemanticsPass2 AccStructureWalk OmpStructureWalk CUDAWalk
     WarnUndefinedFunctionResult CompileDataInitializationsIntoInitializers
     IsEnabled).

Local Abbreviation PerformStatementSemantics :=
  (Semantics.PerformStatementSemantics State context_ ResolveNames
     RewriteParseTree ComputeOffsets CheckDeclarations StatementSemanticsPass1
     StatementSemanticsPass2 AccStructureWalk OmpStructureWalk CUDAWalk
     WarnUndefinedFunctionResult CompileDataInitializationsIntoInitializers
     IsEnabled).

(** What a call of a stage is: the stage is run on the state, and its answer
    is appended to the record. *)
Lemma call_run st s ran :
  call st (s, ran) =
    let '(ok, s') :=
      match st with
      | StPerformStatementSemantics => PerformStatementSemantics s
      | _ => stage st s
      end in
    (ok, (s', ran ++ [(st, ok)])).
Proof. reflexivity. Qed.

(** C5. [Perform] runs its stages in the fixed order (label validation, DO
    canonicalization, the OpenACC, OpenMP and CUDA canonicalizations,
    statement semantics, directive canonicalization, module-file writing)
    and stops at the first one that fails.  The stages recorded are an
    initial part of that order; every one of them was really run, on the
    state that the one before it left (the first on the state left by the
    implicit USE of the builtin modules), and answered what is recorded;
    all but the last answered success; the result of [Perform] is the
    answer of the last, and the final state is the state that stage left,
    so no later stage has run; all eight ran when the result is success.
    In particular, when label validation fails it is the only stage that
    ran, the state is as it left it, and the result is failure. *)
Theorem Perform_short_circuit (s : State) :
  let '(ok, (s', ran)) := Perform s in
  (∃ k, (1 ≤ k ≤ 8)%nat
        ∧ ran.*1 = take k stageOrder
        ∧ ran.*2 = replicate (k - 1) true ++ [ok]
        ∧ (ok = true → k = 8%nat))
  ∧ StagesRun
      (λ st before,
         match st with
         | StPerformStatementSemantics => PerformStatementSemantics before
         | _ => stage st before
         end)
      (useBuiltins s) ran s'
  ∧ ((stage StValidateLabels (useBuiltins s)).1 = false →
     ok = false ∧ ran = [(StValidateLabels, false)]
     ∧ s' = (stage StValidateLabels (useBuiltins s)).2).
Proof.
  unfold Semantics.Perform, Semantics.andThen.
  repeat
    (lazymatch goal with
     | |- context [call ?st (?x, ?r)] =>
       rewrite (call_run st x r); cbv beta iota;
       lazymatch goal with
       | |- context [stage st x] =>
         let H := fresh "Hrun" in
         destruct (stage st x) as [[] ?] eqn:H
       | |- context [PerformStatementSemantics x] =>
         let H := fresh "Hrun" in
         destruct (PerformStatementSemantics x) as [[] ?] eqn:H
       end;
       cbv beta iota
     end);
    simpl app;
    (split; [| split]);
    try (by repeat (eapply ran_cons; [cbv beta iota; eassumption |]);
            apply ran_nil);
    try (by intros [=]);
    try (by (intros _; done));
    first
      [ by (exists 1%nat; repeat split; try lia; discriminate)
      | by (exists 2%nat; repeat split; try lia; discriminate)
      | by (exists 3%nat; repeat split; try lia; discriminate)
      | by (exists 4%nat; repeat split; try lia; discriminate)
      | by (exists 5%nat; repeat split; try lia; discriminate)
      | by (exists 6%nat; repeat split; try lia; discriminate)
      | by (exists 7%nat; repeat split; try lia; discriminate)
      | by (exists 8%nat; repeat split; try lia) ].
Qed.
End PerformProperties.

Lemma Perform_short_circuit_witness :
  examplePerform [StValidateLabels] 0 = (false, (1%nat, [(StValidateLabels, false)]))
  ∧ StagesRun
      (λ st before,
         match st with
         | StPerformStatementSemantics =>
           Semantics.PerformStatementSemantics nat (λ _, freshContext)
             S S S S S S S S S S S (λ _ _, false) before
         | _ => countingStage [StCanonicalizeOmp] st before
         end)
      0%nat
      [(StValidateLabels, true); (StCanonicalizeDo, true);
       (StCanonicalizeAcc, true); (StCanonicalizeOmp, false)] 4%nat.
Proof.
  split.
  - pose proof
      (Perform_short_circuit (λ _ : nat, freshContext)
         (countingStage [StValidateLabels])
         S S S S S S S S S S S (λ _ _, false) S S S (λ _, true) (λ _, None)
         (λ _, false) 0%nat) as H.
    fold (examplePerform [StValidateLabels] 0) in H.
    destruct (examplePerform [StValidateLabels] 0) as [ok [s ran]] eqn:E.
    destruct H as (_ & _ & H). destruct (H eq_refl) as (-> & -> & ->).
    reflexivity.
  - pose proof
      (Perform_short_circuit (λ _ : nat, freshContext)
         (countingStage [StCanonicalizeOmp])
         S S S S S S S S S S S (λ _ _, false) S S S (λ _, true) (λ _, None)
         (λ _, false) 0%nat) as H.
    fold (examplePerform [StCanonicalizeOmp] 0) in H.
    vm_compute examplePerform in H.
    destruct H as (_ & H & _). exact H.
Defined.

(** ** The composed visitor *)

Lemma PopConstruct_last c l x :
  constructStack_ c = l ++ [x] → PopConstruct c = Ret (with_constructStack c l).
Proof.
  intros H. unfold PopConstruct. rewrite H.
  destruct (l ++ [x]) eqn:E; [by destruct l |].
  rewrite <- E. by rewrite removelast_last.
Qed.

Section VisitorProperties.
Variable cs : list Checker.

Local Abbreviation Enter := (SemanticsVisitor.Enter cs).
Local Abbreviation Leave := (SemanticsVisitor.Leave cs).
Local Abbreviation Pre := (SemanticsVisitor.Pre cs).
Local Abbreviation Post := (SemanticsVisitor.Post cs).
Local Abbreviation WalkNode := (SemanticsVisitor.WalkNode cs).
Local Abbreviation WalkNodes := (SemanticsVisitor.WalkNodes cs).
Local Abbreviation setLocation := SemanticsVisitor.setLocation.

Lemma WalkNode_unfold t c children s :
  WalkNode (mkNode t c children) s =
    WalkNodes children (Pre (mkNode t c children) s)
      ≫= Post (mkNode t c children).
Proof.
  reflexivity.
Qed.

Lemma candidates_handlers sel l k t i h :
  (i, h) ∈ candidates sel l k t → ∃ c, c ∈ l ∧ sel c t = Some h.
Proof.
  revert k. induction l as [|c l IH]; intros k; simpl.
  - by intros ?%elem_of_nil.
  - destruct (sel c t) as [h'|] eqn:Hsel.
    + intros [Heq|Hin]%elem_of_cons.
      * inversion Heq; subst. exists c. split; [left | done].
      * destruct (IH _ Hin) as (c' & ? & ?). exists c'. split; [by right | done].
    + intros Hin. destruct (IH _ Hin) as (c' & ? & ?).
      exists c'. split; [by right | done].
Qed.

Lemma Enter_handler node s :
  Enter node s = s
  ∨ ∃ i h, handlers cs h
           ∧ candidates ck_Enter cs 0 (n_type node) !! 0%nat = Some (i, h)
           ∧ Enter node s =
               mkWalkState (h node (ws_context s))
                 (ws_events s ++ [EvEnter i node (location_ (ws_context s))]).
Proof.
  unfold SemanticsVisitor.Enter.
  destruct (candidates ck_Enter cs 0 (n_type node)) as [|[i h] rest] eqn:Hc;
    [by left | right].
  exists i, h. split; [| done].
  destruct (candidates_handlers ck_Enter cs 0 (n_type node) i h) as (c & ? & ?).
  { rewrite Hc. left. }
  exists c, (n_type node). auto.
Qed.

Lemma Leave_handler node s :
  Leave node s = s
  ∨ ∃ i h, handlers cs h
           ∧ candidates ck_Leave cs 0 (n_type node) !! 0%nat = Some (i, h)
           ∧ Leave node s =
               mkWalkState (h node (ws_context s))
                 (ws_events s ++ [EvLeave i node (location_ (ws_context s))]).
Proof.
  unfold SemanticsVisitor.Leave.
  destruct (candidates ck_Leave cs 0 (n_type node)) as [|[i h] rest] eqn:Hc;
    [by left | right].
  exists i, h. split; [| done].
  destruct (candidates_handlers ck_Leave cs 0 (n_type node) i h) as (c & ? & ?).
  { rewrite Hc. left. }
  exists c, (n_type node). auto.
Qed.

Lemma Enter_extends node s :
  ∃ evs, extends s (Enter node s) evs
         ∧ ∀ e, e ∈ evs → handlerLocation e = Some (location_ (ws_context s)).
Proof.
  destruct (Enter_handler node s) as [->|(i & h & _ & _ & ->)].
  - exists []. split; [unfold extends; by rewrite app_nil_r |].
    by intros e ?%elem_of_nil.
  - eexists. split; [reflexivity |].
    by intros e ->%list_elem_of_singleton.
Qed.

Lemma Leave_extends node s :
  ∃ evs, extends s (Leave node s) evs
         ∧ ∀ e, e ∈ evs → handlerLocation e = Some (location_ (ws_context s)).
Proof.
  destruct (Leave_handler node s) as [->|(i & h & _ & _ & ->)].
  - exists []. split; [unfold extends; by rewrite app_nil_r |].
    by intros e ?%elem_of_nil.
  - eexists. split; [reflexivity |].
    by intros e ->%list_elem_of_singleton.
Qed.

Section Stack.
Hypothesis Hstack : PreservesConstructStack cs.

Lemma Enter_stack node s :
  constructStack_ (ws_context (Enter node s)) = constructStack_ (ws_context s).
Proof.
  destruct (Enter_handler node s) as [->|(i & h & Hh & _ & ->)]; [done |].
  simpl. by apply Hstack.
Qed.

Lemma Leave_stack node s :
  constructStack_ (ws_context (Leave node s)) = constructStack_ (ws_context s).
Proof.
  destruct (Leave_handler node s) as [->|(i & h & Hh & _ & ->)]; [done |].
  simpl. by apply Hstack.
Qed.

Lemma WalkNodes_returns_from children :
  Forall (λ node, ∀ s, ∃ s', WalkNode node s = Ret s'
            ∧ constructStack_ (ws_context s') = constructStack_ (ws_context s))
    children →
  ∀ s, ∃ s', WalkNodes children s = Ret s'
             ∧ constructStack_ (ws_context s') = constructStack_ (ws_context s).
Proof.
  induction 1 as [|child rest Hchild _ IH]; intros s; simpl; [eauto |].
  destruct (Hchild s) as (s1 & -> & E1). simpl.
  destruct (IH s1) as (s2 & -> & E2). exists s2. split; [done | congruence].
Qed.

(** The walk returns, with the construct stack as it found it: every
    push in [Pre] is matched by the pop in [Post]. *)
Lemma WalkNode_returns node :
  ∀ s, ∃ s', WalkNode node s = Ret s'
             ∧ constructStack_ (ws_context s') = constructStack_ (ws_context s).
Proof.
  induction node as [t c children IH] using ParseNode_ind. intros s.
  rewrite WalkNode_unfold.
  destruct (WalkNodes_returns_from children IH (Pre (mkNode t c children) s))
    as (s1 & -> & E1).
  simpl. unfold SemanticsVisitor.Post, SemanticsVisitor.Pre in *.
  simpl in *. destruct c as [source|source|construct|]; simpl in *.
  - eexists. split; [done |]. simpl.
    rewrite Leave_stack, E1, Enter_stack. done.
  - eexists. split; [done |]. simpl.
    rewrite Leave_stack, E1, Enter_stack. done.
  - rewrite Enter_stack in E1. simpl in E1.
    erewrite PopConstruct_last; [| by rewrite Leave_stack, E1].
    simpl. eexists. split; done.
  - eexists. split; [done |]. rewrite Leave_stack, E1, Enter_stack. done.
Qed.

Lemma WalkNodes_returns children :
  ∀ s, ∃ s', WalkNodes children s = Ret s'
             ∧ constructStack_ (ws_context s') = constructStack_ (ws_context s).
Proof.
  apply WalkNodes_returns_from, Forall_forall. intros node _.
  apply WalkNode_returns.
Qed.
End Stack.

Lemma extends_refl s : extends s s [].
Proof. unfold extends. by rewrite app_nil_r. Qed.

Lemma extends_trans s1 s2 s3 evs evs' :
  extends s1 s2 evs → extends s2 s3 evs' → extends s1 s3 (evs ++ evs').
Proof. unfold extends. intros H1 H2. by rewrite H2, H1, app_assoc. Qed.

Section Location.
Hypothesis Hloc : PreservesLocation cs.

Lemma Enter_location node s :
  location_ (ws_context (Enter node s)) = location_ (ws_context s).
Proof.
  destruct (Enter_handler node s) as [->|(i & h & Hh & _ & ->)]; [done |].
  simpl. by apply Hloc.
Qed.

Lemma Leave_location node s :
  location_ (ws_context (Leave node s)) = location_ (ws_context s).
Proof.
  destruct (Leave_handler node s) as [->|(i & h & Hh & _ & ->)]; [done |].
  simpl. by apply Hloc.
Qed.

Lemma WalkNodes_keepsLocation children :
  Forall (keepsLocation cs) children →
  existsb hasStatement children = false →
  ∀ s s', WalkNodes children s = Ret s' →
    location_ (ws_context s') = location_ (ws_context s)
    ∧ ∃ evs, extends s s' evs
             ∧ ∀ e, e ∈ evs → handlerLocation e = Some (location_ (ws_context s)).
Proof.
  induction 1 as [|child rest Hchild _ IH]; simpl; intros Hno s s' Hwalk.
  - inversion Hwalk; subst. split; [done |]. exists [].
    split; [apply extends_refl |]. by intros e ?%elem_of_nil.
  - apply orb_false_iff in Hno as [Hno1 Hno2].
    apply bind_Ret in Hwalk as (s1 & Hw1 & Hw2).
    destruct (Hchild Hno1 _ _ Hw1) as (L1 & evs1 & X1 & E1).
    destruct (IH Hno2 _ _ Hw2) as (L2 & evs2 & X2 & E2).
    split; [congruence |]. exists (evs1 ++ evs2).
    split; [by eapply extends_trans |].
    intros e [?|?]%elem_of_app; [by apply E1 |].
    rewrite <- L1. by apply E2.
Qed.

Lemma WalkNode_keepsLocation node : keepsLocation cs node.
Proof.
  induction node as [t c children IH] using ParseNode_ind.
  intros Hno s s' Hwalk. simpl in Hno.
  apply orb_false_iff in Hno as [Hc Hno].
  rewrite WalkNode_unfold in Hwalk.
  apply bind_Ret in Hwalk as (s1 & Hw & Hpost).
  destruct (WalkNodes_keepsLocation children IH Hno _ _ Hw)
    as (L1 & evs1 & X1 & E1).
  unfold SemanticsVisitor.Pre in *. unfold SemanticsVisitor.Post in Hpost.
  simpl in *.
  destruct c as [source|source|construct|]; simpl in *; try discriminate.
  - rewrite Enter_location in L1, E1. simpl in L1, E1.
    apply bind_Ret in Hpost as (c1 & Hpop & Hret). inversion Hret; subst.
    unfold PopConstruct in Hpop.
    destruct (constructStack_ _); [discriminate |]. inversion Hpop; subst.
    simpl. rewrite Leave_location. split; [done |].
    destruct (Enter_extends (mkNode t (ConstructNode construct) children)
      {| ws_context := PushConstruct (ws_context s) construct;
         ws_events := ws_events s |}) as (evs0 & X0 & E0).
    destruct (Leave_extends (mkNode t (ConstructNode construct) children) s1)
      as (evs2 & X2 & E2).
    exists (evs0 ++ evs1 ++ evs2). split.
    + unfold extends in *. simpl in *. rewrite X2, X1, X0.
      by rewrite <- !app_assoc.
    + intros e [?|[?|?]%elem_of_app]%elem_of_app;
        [by apply E0 | by apply E1 |]. rewrite <- L1. by apply E2.
  - rewrite Enter_location in L1, E1.
    inversion Hpost; subst. rewrite Leave_location. split; [done |].
    destruct (Enter_extends (mkNode t OtherNode children) s) as (evs0 & X0 & E0).
    destruct (Leave_extends (mkNode t OtherNode children) s1)
      as (evs2 & X2 & E2).
    exists (evs0 ++ evs1 ++ evs2). split.
    + unfold extends in *. rewrite X2, X1, X0. by rewrite <- !app_assoc.
    + intros e [?|[?|?]%elem_of_app]%elem_of_app;
        [by apply E0 | by apply E1 |]. rewrite <- L1. by apply E2.
Qed.
End Location.

Lemma WalkNode_extends node :
  ∀ s s', WalkNode node s = Ret s' → ∃ evs, extends s s' evs.
Proof.
  induction node as [t c children IH] using ParseNode_ind.
  intros s s' Hwalk. rewrite WalkNode_unfold in Hwalk.
  apply bind_Ret in Hwalk as (s1 & Hw & Hpost).
  assert (∃ evs, extends (Pre (mkNode t c children) s) s1 evs) as (evs1 & X1).
  { clear Hpost. revert Hw. generalize (Pre (mkNode t c children) s).
    induction IH as [|child rest Hchild _ IHrest]; simpl; intros s0 Hw.
    - inversion Hw; subst. exists []. apply extends_refl.
    - apply bind_Ret in Hw as (s2 & Hw1 & Hw2).
      destruct (Hchild _ _ Hw1) as (e1 & ?).
      destruct (IHrest _ Hw2) as (e2 & ?).
      exists (e1 ++ e2). by eapply extends_trans. }
  set (node := mkNode t c children) in *.
  destruct (Leave_extends node s1) as (evs2 & X2 & _).
  unfold SemanticsVisitor.Pre, SemanticsVisitor.Post in *. simpl in *.
  destruct c as [source|source|construct|]; simpl in *.
  - inversion Hpost; subst.
    destruct (Enter_extends node (setLocation (Some source) s)) as (evs0 & X0 & _).
    eexists. unfold extends in *. simpl in *.
    rewrite X2, X1, X0. simpl. by rewrite <- !app_assoc.
  - inversion Hpost; subst.
    destruct (Enter_extends node (setLocation (Some source) s)) as (evs0 & X0 & _).
    eexists. unfold extends in *. simpl in *.
    rewrite X2, X1, X0. simpl. by rewrite <- !app_assoc.
  - apply bind_Ret in Hpost as (c1 & _ & Hret). inversion Hret; subst.
    destruct (Enter_extends node
      {| ws_context := PushConstruct (ws_context s) construct;
         ws_events := ws_events s |}) as (evs0 & X0 & _).
    eexists. unfold extends in *. simpl in *.
    rewrite X2, X1, X0. by rewrite <- !app_assoc.
  - inversion Hpost; subst.
    destruct (Enter_extends node s) as (evs0 & X0 & _).
    eexists. unfold extends in *. rewrite X2, X1, X0. by rewrite <- !app_assoc.
Qed.

Lemma WalkNodes_extends children :
  ∀ s s', WalkNodes children s = Ret s' → ∃ evs, extends s s' evs.
Proof.
  induction children as [|child rest IH]; simpl; intros s s' Hwalk.
  - inversion Hwalk; subst. exists []. apply extends_refl.
  - apply bind_Ret in Hwalk as (s1 & Hw1 & Hw2).
    destruct (WalkNode_extends _ _ _ Hw1) as (e1 & ?).
    destruct (IH _ _ Hw2) as (e2 & ?).
    exists (e1 ++ e2). by eapply extends_trans.
Qed.
End VisitorProperties.

Lemma at_most_one {A} (l : list A) :
  (length l ≤ 1)%nat → l = [] ∨ ∃ x, l = [x].
Proof. destruct l as [|x [|y l]]; simpl; [by left | eauto | lia]. Qed.

(** C6, as stated, fails.  Under the checkers [A; B], walking the statement
    [x = 1] calls one Enter handler on the statement node (A's: B declares
    none for that type and is called on the node inside), and A's Leave
    handler is the last one to run.  Walking [IF (c) x = 1], the inner
    unlabeled statement resets the location, so that A's Leave handler for
    the outer statement runs with no current location. *)
Lemma statement_visit_counterexample :
  (∃ s, SemanticsVisitor.WalkNode [checkerA; checkerB] assignmentStmt
          (mkWalkState freshContext []) = Ret s
        ∧ ws_events s =
            [EvSetLocation (Some (mkCharBlock 40 5));
             EvEnter 0 assignmentStmt (Some (mkCharBlock 40 5));
             EvEnter 1 (mkNode 2 OtherNode []) (Some (mkCharBlock 40 5));
             EvLeave 1 (mkNode 2 OtherNode []) (Some (mkCharBlock 40 5));
             EvLeave 0 assignmentStmt (Some (mkCharBlock 40 5));
             EvSetLocation None]
        ∧ ¬ ClaimedStatementEvents assignmentStmt (mkCharBlock 40 5) (ws_events s))
  ∧ (∃ s, SemanticsVisitor.WalkNode [checkerA; checkerB] ifStmt
            (mkWalkState freshContext []) = Ret s
          ∧ EvLeave 0 ifStmt None ∈ ws_events s
          ∧ ¬ ClaimedStatementEvents ifStmt (mkCharBlock 60 14) (ws_events s)).
Proof.
  split.
  - eexists. split; [reflexivity |]. split; [reflexivity |].
    intros [(inner & lA & lB & H) _]. simpl in H. inversion H.
  - eexists. split; [reflexivity |]. simpl. split.
    + repeat (first [by left | right]).
    + intros [_ H]. apply (H (EvLeave 0 ifStmt None)); [| reflexivity].
      repeat (first [by left | right]).
Qed.

(** C6, amended.  When the composed visitor, with checkers that leave the
    construct stack alone, walks a statement-level node, the walk returns
    and what it did is, in this order: the current location is set to the
    statement's source; the Enter handler declared for the node's type, of
    which there is at most one among the checkers, is called with that
    location current; the children are walked; the Leave handler declared
    for the node's type, again at most one, is called; the location is reset
    to none.  If moreover the checkers never change the location and no
    statement-level node occurs below the node, then the Leave handler and
    every handler called for the children ran with the statement's source
    as the current location. *)
Theorem statement_visit_order (cs : list Checker) (t : N) (c : NodeClass)
    (source : CharBlock) (children : list ParseNode) (s : WalkState) :
  statementSource c = Some source →
  NoCollision cs →
  PreservesConstructStack cs →
  let node := mkNode t c children in
  let enters := candidates ck_Enter cs 0 t in
  let leaves := candidates ck_Leave cs 0 t in
  ∃ s' mid inner leaveLocation,
    SemanticsVisitor.WalkNode cs node s = Ret s'
    ∧ (length enters ≤ 1)%nat ∧ (length leaves ≤ 1)%nat
    ∧ SemanticsVisitor.WalkNodes cs children (SemanticsVisitor.Pre cs node s) = Ret mid
    ∧ extends (SemanticsVisitor.Pre cs node s) mid inner
    ∧ ws_events s' =
        ws_events s
        ++ [EvSetLocation (Some source)]
        ++ ((λ ih, EvEnter ih.1 node (Some source)) <$> enters)
        ++ inner
        ++ ((λ ih, EvLeave ih.1 node leaveLocation) <$> leaves)
        ++ [EvSetLocation None]
    ∧ location_ (ws_context s') = None
    ∧ (PreservesLocation cs → existsb hasStatement children = false →
       leaveLocation = Some source
       ∧ ∀ e, e ∈ inner → handlerLocation e = Some (Some source)).
Proof.
  intros Hsrc Hnc Hstack node enters leaves.
  destruct (Hnc t) as [HE HL]. fold enters in HE. fold leaves in HL.
  assert (SemanticsVisitor.Pre cs node s =
          SemanticsVisitor.Enter cs node
            (SemanticsVisitor.setLocation (Some source) s)) as HPre.
  { unfold SemanticsVisitor.Pre. simpl.
    destruct c; simpl in Hsrc; inversion Hsrc; subst; reflexivity. }
  destruct (WalkNodes_returns cs Hstack children (SemanticsVisitor.Pre cs node s))
    as (mid & Hmid & _).
  destruct (WalkNodes_extends cs children _ _ Hmid) as (inner & Hinner).
  exists (SemanticsVisitor.setLocation None (SemanticsVisitor.Leave cs node mid)),
    mid, inner, (location_ (ws_context mid)).
  split.
  { unfold node at 1. rewrite WalkNode_unfold. fold node. rewrite Hmid. simpl.
    unfold SemanticsVisitor.Post. simpl.
    destruct c; simpl in Hsrc; inversion Hsrc; subst; reflexivity. }
  split; [done |]. split; [done |]. split; [done |]. split; [done |].
  split.
  { simpl. unfold extends in Hinner. rewrite HPre in Hinner.
    unfold SemanticsVisitor.Leave, SemanticsVisitor.Enter in *.
    change (n_type node) with t in *. fold enters leaves in Hinner |- *.
    destruct (at_most_one _ HE) as [->|[[i h] ->]];
      destruct (at_most_one _ HL) as [->|[[j k] ->]]; simpl in *;
      rewrite ?Hinner; simpl; rewrite <- ?app_assoc; reflexivity. }
  split; [reflexivity |].
  intros Hloc Hno.
  destruct (WalkNodes_keepsLocation cs children) with (s := SemanticsVisitor.Pre cs node s) (s' := mid)
    as (L & evs & Hevs & Hall); auto.
  { apply Forall_forall. intros child _. by apply WalkNode_keepsLocation. }
  assert (location_ (ws_context (SemanticsVisitor.Pre cs node s)) = Some source) as HL0.
  { rewrite HPre, Enter_location by done. reflexivity. }
  rewrite HL0 in *. split; [done |].
  unfold extends in *. rewrite Hinner in Hevs.
  apply app_inv_head in Hevs. by subst.
Qed.

Lemma quiet_checkers_handlers h :
  handlers [checkerA; checkerB] h → h = quiet.
Proof.
  intros (c & t & Hc & Hh).
  apply elem_of_cons in Hc as [->|Hc]; [| apply list_elem_of_singleton in Hc as ->];
    simpl in Hh; destruct Hh as [Hh|Hh];
    repeat case_match; congruence.
Qed.

Lemma quiet_checkers_NoCollision : NoCollision [checkerA; checkerB].
Proof.
  intros t. simpl.
  destruct (t =? 1) eqn:H1; destruct (t =? 2) eqn:H2; simpl; try lia.
  apply N.eqb_eq in H1, H2. lia.
Qed.

Lemma quiet_checkers_stack : PreservesConstructStack [checkerA; checkerB].
Proof. by intros h ->%quiet_checkers_handlers. Qed.

Lemma quiet_checkers_location : PreservesLocation [checkerA; checkerB].
Proof. by intros h ->%quiet_checkers_handlers. Qed.

Lemma statement_visit_order_witness :
  statementSource (StatementNode (mkCharBlock 40 5)) = Some (mkCharBlock 40 5)
  ∧ NoCollision [checkerA; checkerB]
  ∧ PreservesConstructStack [checkerA; checkerB]
  ∧ ∃ s' leaveLocation,
      SemanticsVisitor.WalkNode [checkerA; checkerB] assignmentStmt
        (mkWalkState freshContext []) = Ret s'
      ∧ location_ (ws_context s') = None
      ∧ leaveLocation = Some (mkCharBlock 40 5).
Proof.
  split; [reflexivity |].
  split; [exact quiet_checkers_NoCollision |].
  split; [exact quiet_checkers_stack |].
  destruct (statement_visit_order [checkerA; checkerB] 1
              (StatementNode (mkCharBlock 40 5)) (mkCharBlock 40 5)
              [mkNode 2 OtherNode []] (mkWalkState freshContext [])
              eq_refl quiet_checkers_NoCollision quiet_checkers_stack)
    as (s' & mid & inner & leaveLocation & Hwalk & _ & _ & _ & _ & _ & Hnone & Hleave).
  exists s', leaveLocation. split; [exact Hwalk |]. split; [exact Hnone |].
  exact (proj1 (Hleave quiet_checkers_location eq_refl)).
Defined.

(** C7, as stated, fails: a fatal error reported before the walk makes
    [Walk] answer false although nothing is reported while it walks. *)
Lemma Walk_counterexample :
  let c := Say freshContext (anError (mkCharBlock 0 1)) in
  ∃ s, SemanticsVisitor.Walk [checkerA; checkerB] [assignmentStmt] c = Ret (false, s)
       ∧ messages_ (ws_context s) = messages_ c.
Proof. eexists. split; reflexivity. Qed.

(** C7, amended.  [Walk] returns (given checkers that leave the construct
    stack alone), and its result is true if and only if the context holds no
    fatal diagnostic when the walk ends: none reported before the walk and
    none reported during it. *)
Theorem Walk_result (cs : list Checker) (program : list ParseNode)
    (c : SemanticsContext) :
  (PreservesConstructStack cs →
     ∃ b s, SemanticsVisitor.Walk cs program c = Ret (b, s))
  ∧ ∀ b s, SemanticsVisitor.Walk cs program c = Ret (b, s) →
      (b = true ↔ AnyFatalError (ws_context s) = false)
      ∧ ∀ reported,
          messages_ (ws_context s) = messages_ c ++ reported →
          warningsAreErrors_ (ws_context s) = warningsAreErrors_ c →
          (b = true ↔
             AnyFatalError c = false
             ∧ Messages_AnyFatalError (warningsAreErrors_ c) reported = false).
Proof.
  split.
  - intros Hstack. unfold SemanticsVisitor.Walk.
    destruct (WalkNodes_returns cs Hstack program (mkWalkState c []))
      as (s & -> & _).
    simpl. eauto.
  - intros b s Hwalk. unfold SemanticsVisitor.Walk in Hwalk.
    apply bind_Ret in Hwalk as (s1 & _ & Hret). inversion Hret; subst.
    split; [by rewrite negb_true_iff |].
    intros reported Hmsgs Hwae.
    rewrite negb_true_iff. unfold AnyFatalError, Messages_AnyFatalError.
    rewrite Hmsgs, Hwae, existsb_app, orb_false_iff. done.
Qed.

Lemma Walk_result_witness :
  ∃ s, SemanticsVisitor.Walk [checkerE] [assignmentStmt] freshContext = Ret (false, s)
       ∧ (false = true ↔
            AnyFatalError freshContext = false
            ∧ Messages_AnyFatalError false [anError (mkCharBlock 40 5)] = false).
Proof.
  eexists. split; [reflexivity |].
  refine (proj2 (proj2 (Walk_result [checkerE] [assignmentStmt] freshContext)
                   false _ eq_refl) [anError (mkCharBlock 40 5)] _ _);
    reflexivity.
Defined.

(** ** The common-block merge table *)

Section CommonBlocks.
Variable G : SymbolGraph.

Local Abbreviation isInit := (CommonBlockMap.CommonBlockIsInitialized G).
Local Abbreviation size := (CommonBlockMap.size G).

Lemma Summarizes_first s : Summarizes G [s] (mergeAppearance G None s).
Proof.
  unfold Summarizes, mergeAppearance. simpl. split.
  - exists [], []. split; [done |]. split; by intros x ?%elem_of_nil.
  - destruct (isInit s) eqn:Hs.
    + exists [], []. split; [done |]. split; [by rewrite Hs |].
      by intros x ?%elem_of_nil.
    + by intros x ->%list_elem_of_singleton.
Qed.

Lemma Summarizes_later l info s :
  Summarizes G l info → Summarizes G (l ++ [s]) (mergeAppearance G (Some info) s).
Proof.
  intros [(before & after & -> & Hb & Ha) Hinit].
  unfold Summarizes, mergeAppearance. simpl. split.
  - destruct (size (biggestSize info) <? size s) eqn:Hlt.
    + apply N.ltb_lt in Hlt.
      exists (before ++ biggestSize info :: after), []. split; [done |].
      split; [| by intros x ?%elem_of_nil].
      intros x [Hx|[->|Hx]%elem_of_cons]%elem_of_app.
      * specialize (Hb x Hx). lia.
      * done.
      * specialize (Ha x Hx). lia.
    + apply N.ltb_ge in Hlt.
      exists before, (after ++ [s]). split; [by rewrite <- app_assoc |].
      split; [done |].
      intros x [?| ->%list_elem_of_singleton]%elem_of_app; [by apply Ha | done].
  - destruct (isInit s) eqn:Hs, (initialization info) as [p|] eqn:Hp.
    + assert (IsFirstInitialized G ((before ++ biggestSize info :: after) ++ [s]) p).
      { destruct Hinit as (b1 & a1 & E & Hsome & Hnone).
        exists b1, (a1 ++ [s]). rewrite E. by rewrite <- app_assoc. }
      case_bool_decide as Hne; [done |].
      by subst.
    + exists (before ++ biggestSize info :: after), []. split; [done |].
      split; [by rewrite Hs | done].
    + destruct Hinit as (b1 & a1 & E & Hsome & Hnone).
      exists b1, (a1 ++ [s]). rewrite E. by rewrite <- app_assoc.
    + intros x [?| ->%list_elem_of_singleton]%elem_of_app; [by apply Hinit | done].
Qed.

Lemma foldr_max_bounded (l : list SymbolRef) (v w : N) :
  (∀ x, x ∈ l → size x ≤ v) → w ≤ v → foldr N.max w (size <$> l) ≤ v.
Proof.
  intros Hl Hw. induction l as [|x l IH]; simpl; [done |].
  apply N.max_lub; [apply Hl; by left |].
  apply IH. intros; apply Hl; by right.
Qed.

Lemma Summarizes_size l info :
  Summarizes G l info → size (biggestSize info) = maxSize G l.
Proof.
  intros [(before & after & -> & Hb & Ha) _]. unfold maxSize.
  rewrite fmap_app, foldr_app. simpl.
  pose proof (foldr_max_bounded after (size (biggestSize info)) 0 Ha ltac:(lia)).
  rewrite N.max_l by done.
  apply N.le_antisymm.
  - clear. induction before as [|x before IH]; simpl; [lia |].
    etrans; [apply IH | apply N.le_max_r].
  - apply foldr_max_bounded; [| lia]. intros x Hx. specialize (Hb x Hx). lia.
Qed.

Lemma maxSize_Permutation l l' : l ≡ₚ l' → maxSize G l = maxSize G l'.
Proof.
  intros Hp. unfold maxSize. apply foldr_permutation_proper; try apply _.
  - intros x y z. lia.
  - by apply fmap_Permutation.
Qed.

Lemma checkSize_fields info c s :
  underscoring_ (CommonBlockMap.checkSize G info c s) = underscoring_ c
  ∧ commonBlockMap_ (CommonBlockMap.checkSize G info c s) = commonBlockMap_ c
  ∧ warningsAreErrors_ (CommonBlockMap.checkSize G info c s) = warningsAreErrors_ c.
Proof.
  unfold CommonBlockMap.checkSize, Warn.
  repeat case_match; simpl; done.
Qed.

Lemma checkInitialization_returns info c s :
  (∀ p, initialization info = Some p → is_Some (isInit p)) →
  ∃ c',
    CommonBlockMap.checkInitialization G info c s (isInit s) =
      Ret (mkCommonBlockInfo (biggestSize info)
             (initialization (mergeAppearance G (Some info) s)), c')
    ∧ underscoring_ c' = underscoring_ c
    ∧ commonBlockMap_ c' = commonBlockMap_ c
    ∧ warningsAreErrors_ c' = warningsAreErrors_ c.
Proof.
  intros Hinv. unfold CommonBlockMap.checkInitialization, mergeAppearance.
  destruct info as [b init]. simpl in *.
  destruct (isInit s) as [i|]; [| eauto].
  destruct init as [p|]; [| eauto].
  case_bool_decide; [| eauto].
  destruct (Hinv p eq_refl) as [q ->]. eauto.
Qed.

Lemma MapCommonBlock_step m c s :
  let n := sym_linkName (symbol_at G s) (underscoring_ c) in
  (∀ info p, m !! n = Some info → initialization info = Some p →
             is_Some (isInit p)) →
  ∃ c',
    CommonBlockMap.MapCommonBlockAndCheckConflicts G m c s =
      Ret (<[n := mergeAppearance G (m !! n) s]> m, c')
    ∧ underscoring_ c' = underscoring_ c
    ∧ commonBlockMap_ c' = commonBlockMap_ c
    ∧ warningsAreErrors_ c' = warningsAreErrors_ c.
Proof.
  intros n Hinv. unfold CommonBlockMap.MapCommonBlockAndCheckConflicts.
  fold n. destruct (m !! n) as [info|] eqn:Hm; [| eauto].
  destruct (checkInitialization_returns info c s) as (c1 & -> & U & M & W).
  { intros p. by apply Hinv. }
  simpl. destruct (checkSize_fields
    (mkCommonBlockInfo (biggestSize info)
       (initialization (mergeAppearance G (Some info) s))) c1 s) as (U' & M' & W').
  eexists. split; [| split; [| split]]; [| by rewrite U' | by rewrite M' | by rewrite W'].
  do 3 f_equal. unfold mergeAppearance. simpl.
  by destruct (_ <? _).
Qed.

Lemma Recorded_step u m seen s :
  Recorded G u m seen →
  Recorded G u
    (<[sym_linkName (symbol_at G s) u :=
         mergeAppearance G (m !! sym_linkName (symbol_at G s) u) s]> m)
    (seen ++ [s]).
Proof.
  intros Hrec n. specialize (Hrec n). unfold appearances in *.
  rewrite filter_app.
  destruct (decide (sym_linkName (symbol_at G s) u = n)) as [<-|Hne].
  - rewrite lookup_insert_eq. rewrite filter_cons_True, filter_nil by done.
    split; [by destruct (filter _ seen) |].
    destruct (m !! _) as [info|].
    + apply Summarizes_later, Hrec.
    + rewrite Hrec. apply Summarizes_first.
  - rewrite lookup_insert_ne by done.
    rewrite filter_cons_False, filter_nil, app_nil_r by done. done.
Qed.

Lemma Recorded_initialized u m seen n info p :
  Recorded G u m seen → m !! n = Some info → initialization info = Some p →
  is_Some (isInit p).
Proof.
  intros Hrec Hm Hp. specialize (Hrec n). rewrite Hm in Hrec.
  destruct Hrec as [_ [_ Hinit]]. rewrite Hp in Hinit.
  by destruct Hinit as (? & ? & _ & ? & _).
Qed.

(** Any sequence of calls returns, and leaves the table holding the
    summary of all appearances seen. *)
Lemma MapAll_Recorded rest :
  ∀ c seen,
    Recorded G (underscoring_ c) (default ∅ (commonBlockMap_ c)) seen →
    ∃ c', MapAll G c rest = Ret c'
          ∧ underscoring_ c' = underscoring_ c
          ∧ Recorded G (underscoring_ c) (default ∅ (commonBlockMap_ c'))
              (seen ++ rest).
Proof.
  induction rest as [|s rest IH]; intros c seen Hrec; simpl.
  - exists c. by rewrite app_nil_r.
  - unfold MapCommonBlockAndCheckConflicts.
    set (c0 := match commonBlockMap_ c with
               | Some _ => c
               | None => with_commonBlockMap c (Some ∅)
               end).
    assert (underscoring_ c0 = underscoring_ c) as U0
      by (unfold c0; by destruct (commonBlockMap_ c)).
    assert (default ∅ (commonBlockMap_ c0) = default ∅ (commonBlockMap_ c)) as M0
      by (unfold c0; destruct (commonBlockMap_ c) eqn:E; simpl; by rewrite ?E).
    destruct (MapCommonBlock_step (default ∅ (commonBlockMap_ c0)) c0 s)
      as (c1 & -> & U1 & _ & _).
    { rewrite U0, M0. intros info p. by eapply Recorded_initialized. }
    simpl.
    match goal with
    | |- context [with_commonBlockMap c1 (Some ?m')] =>
      destruct (IH (with_commonBlockMap c1 (Some m')) (seen ++ [s]))
        as (c' & -> & U' & Hrec')
    end.
    { simpl. rewrite U1, U0, M0. by apply Recorded_step. }
    exists c'. simpl in *. split; [done |]. split; [congruence |].
    rewrite <- app_assoc in Hrec'. simpl in Hrec'. by rewrite U1, U0 in Hrec'.
Qed.

Lemma MapAll_summary c commons n :
  commonBlockMap_ c = None →
  appearances G (underscoring_ c) n commons ≠ [] →
  ∃ c' m info,
    MapAll G c commons = Ret c'
    ∧ commonBlockMap_ c' = Some m
    ∧ m !! n = Some info
    ∧ Summarizes G (appearances G (underscoring_ c) n commons) info.
Proof.
  intros Hnone Hsome.
  destruct (MapAll_Recorded commons c []) as (c' & Hrun & _ & Hrec).
  { rewrite Hnone. intros k. simpl. by rewrite lookup_empty. }
  simpl in Hrec. specialize (Hrec n).
  destruct (commonBlockMap_ c') as [m|] eqn:Hm; simpl in Hrec.
  - destruct (m !! n) as [info|] eqn:Hn; [| done].
    exists c', m, info. by destruct Hrec.
  - rewrite lookup_empty in Hrec. done.
Qed.

Lemma reported_in_GetCommonBlocks c m n info :
  commonBlockMap_ c = Some m → m !! n = Some info →
  CommonBlockMap.reported G info ∈ GetCommonBlocks G c.
Proof.
  intros Hm Hn. unfold GetCommonBlocks, CommonBlockMap.GetCommonBlocks.
  rewrite Hm. apply list_elem_of_fmap. exists (n, info). split; [done |].
  rewrite merge_sort_Permutation. by apply elem_of_map_to_list.
Qed.

Lemma appearances_Permutation u n l l' :
  l ≡ₚ l' → appearances G u n l ≡ₚ appearances G u n l'.
Proof. intros Hp. unfold appearances. by rewrite Hp. Qed.
End CommonBlocks.

(** C1. After any sequence of calls of [MapCommonBlockAndCheckConflicts] on
    a fresh table, [GetCommonBlocks] reports, for the record of each link
    name that appeared, a pair whose size is the maximum of the sizes of
    the appearances under that name, whatever the order of the calls, and
    whose symbol is the first initialized appearance if any appearance is
    initialized, and else the (first) appearance of the largest size. *)
Theorem GetCommonBlocks_biggest_size (G : SymbolGraph) (c : SemanticsContext)
    (commons : list SymbolRef) (n : string) :
  commonBlockMap_ c = None →
  let seen := appearances G (underscoring_ c) n commons in
  seen ≠ [] →
  ∃ c' info,
    MapAll G c commons = Ret c'
    ∧ commonBlockMap_ c' ≫= (.!! n) = Some info
    ∧ CommonBlockMap.reported G info ∈ GetCommonBlocks G c'
    ∧ (CommonBlockMap.reported G info).2 = maxSize G seen
    ∧ match initialization info with
      | Some p =>
        (CommonBlockMap.reported G info).1 = p ∧ IsFirstInitialized G seen p
      | None =>
        (CommonBlockMap.reported G info).1 = biggestSize info
        ∧ ∀ x, x ∈ seen → CommonBlockMap.CommonBlockIsInitialized G x = None
      end
    ∧ IsBiggest G seen (biggestSize info)
    ∧ ∀ commons', commons' ≡ₚ commons →
        ∃ c'' info',
          MapAll G c commons' = Ret c''
          ∧ commonBlockMap_ c'' ≫= (.!! n) = Some info'
          ∧ (CommonBlockMap.reported G info').2 = (CommonBlockMap.reported G info).2.
Proof.
  intros Hnone seen Hseen.
  destruct (MapAll_summary G c commons n Hnone Hseen)
    as (c' & m & info & Hrun & Hm & Hn & Hsum).
  exists c', info. split; [done |].
  split; [by rewrite Hm |].
  split; [by eapply reported_in_GetCommonBlocks |].
  split; [by apply Summarizes_size |].
  destruct Hsum as [Hbig Hinit].
  split.
  { unfold CommonBlockMap.reported.
    destruct (initialization info); simpl; by split. }
  split; [done |].
  intros commons' Hperm.
  pose proof (appearances_Permutation G (underscoring_ c) n _ _ Hperm) as Hp.
  destruct (MapAll_summary G c commons' n Hnone)
    as (c'' & m' & info' & Hrun' & Hm' & Hn' & Hsum').
  { intros Hnil. rewrite Hnil in Hp. by apply Permutation_nil_l in Hp. }
  exists c'', info'. split; [done |]. split; [by rewrite Hm' |].
  simpl. rewrite (Summarizes_size G _ _ Hsum'), (Summarizes_size G _ _ (conj Hbig Hinit)).
  by apply maxSize_Permutation.
Qed.

Lemma GetCommonBlocks_biggest_size_witness :
  ∃ c' info,
    MapAll exampleGraph freshContext [3; 1; 2] = Ret c'
    ∧ CommonBlockMap.reported exampleGraph info = (1, 16)
    ∧ GetCommonBlocks exampleGraph c' = [(1, 16)].
Proof.
  destruct (GetCommonBlocks_biggest_size exampleGraph freshContext [3; 1; 2]
              "blk_" eq_refl)
    as (c' & info & Hrun & Hinfo & _).
  { vm_compute. discriminate. }
  exists c', info. vm_compute in Hrun. inversion Hrun; subst; clear Hrun.
  vm_compute in Hinfo. inversion Hinfo; subst; clear Hinfo.
  split; [reflexivity |]. split; vm_compute; reflexivity.
Defined.

Section Conflicts.
Variable G : SymbolGraph.

Local Abbreviation isInit := (CommonBlockMap.CommonBlockIsInitialized G).
Local Abbreviation name := (CommonBlockMap.name G).

Lemma checkSize_messages info c s :
  messages_ (CommonBlockMap.checkSize G info c s) =
    messages_ c ++ sizeNote G c (biggestSize info) s.
Proof.
  unfold CommonBlockMap.checkSize, sizeNote, Warn. simpl.
  destruct (negb _ && negb _); simpl; [| by rewrite app_nil_r].
  destruct (shouldWarn_ c _ _); simpl; [done | by rewrite app_nil_r].
Qed.

Lemma sizeNote_portability c biggest s msg :
  msg ∈ sizeNote G c biggest s → msg_severity msg = SevPortability.
Proof.
  unfold sizeNote. case_match; [| by intros ?%elem_of_nil].
  by intros ->%list_elem_of_singleton.
Qed.

(** The first appearance of a link name: recorded, nothing reported. *)
Lemma first_appearance c s :
  let n := sym_linkName (symbol_at G s) (underscoring_ c) in
  commonBlockMap_ c ≫= (.!! n) = None →
  MapCommonBlockAndCheckConflicts G c s =
    Ret (with_commonBlockMap c
           (Some (<[n := mergeAppearance G None s]>
                    (default ∅ (commonBlockMap_ c))))).
Proof.
  intros n Hnone. unfold MapCommonBlockAndCheckConflicts,
    CommonBlockMap.MapCommonBlockAndCheckConflicts.
  destruct (commonBlockMap_ c) as [m|] eqn:Hm; simpl in *.
  - rewrite ?Hm. simpl. fold n. by rewrite Hnone.
  - fold n. by rewrite lookup_empty.
Qed.

(** A later appearance: what is reported and what is recorded. *)
Lemma later_appearance c m info s :
  let n := sym_linkName (symbol_at G s) (underscoring_ c) in
  commonBlockMap_ c = Some m → m !! n = Some info →
  (∀ p, initialization info = Some p → is_Some (isInit p)) →
  ∃ c',
    MapCommonBlockAndCheckConflicts G c s = Ret c'
    ∧ commonBlockMap_ c' = Some (<[n := mergeAppearance G (Some info) s]> m)
    ∧ messages_ c' =
        messages_ c
        ++ match isInit s, initialization info with
           | Some i, Some p =>
             if bool_decide (p ≠ s)
             then match isInit p with
                  | Some q =>
                    [CommonBlockMap.multipleInitialization (name i) (name s) (name q)]
                  | None => []
                  end
             else []
           | _, _ => []
           end
        ++ sizeNote G c (biggestSize info) s.
Proof.
  intros n Hm Hn Hinv. unfold MapCommonBlockAndCheckConflicts,
    CommonBlockMap.MapCommonBlockAndCheckConflicts, mergeAppearance.
  rewrite Hm. cbn [default from_option id]. rewrite ?Hm.
  cbn [default from_option id]. fold n. rewrite Hn.
  unfold CommonBlockMap.checkInitialization.
  destruct info as [b init]. cbn [initialization biggestSize] in *.
  destruct (isInit s) as [i|] eqn:Hs.
  - destruct init as [p|].
    + case_bool_decide as Hne.
      * destruct (Hinv p eq_refl) as [q Hq]. rewrite Hq. simpl.
        eexists. split; [reflexivity |]. simpl. split.
        { do 2 f_equal. by destruct (_ <? _). }
        rewrite checkSize_messages. simpl. by rewrite <- app_assoc.
      * simpl. eexists. split; [reflexivity |]. simpl. split.
        { do 2 f_equal. by destruct (_ <? _). }
        by rewrite checkSize_messages.
    + simpl. eexists. split; [reflexivity |]. simpl. split.
      { do 2 f_equal. by destruct (_ <? _). }
      by rewrite checkSize_messages.
  - simpl. eexists. split; [reflexivity |]. simpl. split.
    { do 2 f_equal. by destruct (_ <? _). }
    rewrite checkSize_messages. simpl. by destruct init.
Qed.
End Conflicts.

(** C2, as stated, fails in its second part: COMMON /blk/ appears first
    without initialization and with 4 bytes (symbol 3), then initialized
    and with 8 bytes (symbol 1).  The second call adopts symbol 1 as the
    initialization representative, and it does report a diagnostic: the
    note on the differing sizes. *)
Lemma adoption_counterexample :
  ∃ ca cb,
    MapCommonBlockAndCheckConflicts exampleGraph freshContext 3 = Ret ca
    ∧ (commonBlockMap_ ca ≫= (.!! "blk_")) ≫= initialization = None
    ∧ CommonBlockMap.CommonBlockIsInitialized exampleGraph 1 = Some 11
    ∧ MapCommonBlockAndCheckConflicts exampleGraph ca 1 = Ret cb
    ∧ (commonBlockMap_ cb ≫= (.!! "blk_")) ≫= initialization = Some 1
    ∧ messages_ ca = []
    ∧ msg_severity <$> messages_ cb = [SevPortability].
Proof.
  eexists. eexists.
  split; [vm_compute; reflexivity |].
  split; [vm_compute; reflexivity |].
  split; [vm_compute; reflexivity |].
  split; [vm_compute; reflexivity |].
  split; [vm_compute; reflexivity |].
  split; vm_compute; reflexivity.
Qed.

(** C2, amended.  Let a common block appear twice under one link name, the
    first time as the first appearance of that name.  The first call
    reports nothing.  If both appearances carry an initialized member and
    the two members differ, the second call reports exactly one error,
    "Multiple initialization of COMMON block", at the second initializer,
    with one attached note at the first appearance's initializer, and the
    first appearance stays the initialization representative.  If only the
    second appearance is initialized, the second call adopts it as the
    initialization representative and reports no initialization diagnostic.
    In both cases the only other message the second call can add is the
    portability note of the size comparison. *)
Theorem initialization_conflict (G : SymbolGraph) (c : SemanticsContext)
    (first second : SymbolRef) :
  let n := sym_linkName (symbol_at G first) (underscoring_ c) in
  let isInit := CommonBlockMap.CommonBlockIsInitialized G in
  let name := CommonBlockMap.name G in
  sym_linkName (symbol_at G second) (underscoring_ c) = n →
  commonBlockMap_ c ≫= (.!! n) = None →
  ∃ ca cb,
    MapCommonBlockAndCheckConflicts G c first = Ret ca
    ∧ messages_ ca = messages_ c
    ∧ MapCommonBlockAndCheckConflicts G ca second = Ret cb
    ∧ (∀ m1 m2, isInit first = Some m1 → isInit second = Some m2 → m1 ≠ m2 →
         ∃ error,
           messages_ cb = messages_ c ++ [error] ++ sizeNote G c first second
           ∧ error = CommonBlockMap.multipleInitialization
                       (name m2) (name second) (name m1)
           ∧ msg_severity error = SevError
           ∧ msg_at error = name m2
           ∧ att_at <$> msg_attachments error = [name m1]
           ∧ (commonBlockMap_ cb ≫= (.!! n)) ≫= initialization = Some first)
    ∧ (isInit first = None → is_Some (isInit second) →
         messages_ cb = messages_ c ++ sizeNote G c first second
         ∧ (commonBlockMap_ cb ≫= (.!! n)) ≫= initialization = Some second)
    ∧ (∀ msg, msg ∈ sizeNote G c first second →
         msg_severity msg = SevPortability)
    ∧ (CommonBlockMap.size G second = CommonBlockMap.size G first →
         sizeNote G c first second = []).
Proof.
  intros n isInit name Hsame Hfresh.
  rewrite (first_appearance G c first Hfresh). fold n.
  set (m := <[n := mergeAppearance G None first]> (default ∅ (commonBlockMap_ c))).
  set (ca := with_commonBlockMap c (Some m)).
  destruct (later_appearance G ca m (mergeAppearance G None first) second)
    as (cb & Hrun & Hmap & Hmsgs).
  { reflexivity. }
  { simpl. rewrite Hsame. apply lookup_insert_eq. }
  { unfold mergeAppearance. simpl. intros p Hp. fold isInit in Hp |- *.
    destruct (isInit first) eqn:Hf; inversion Hp; subst. by rewrite Hf. }
  exists ca, cb. split; [done |]. split; [done |]. split; [done |].
  change (underscoring_ ca) with (underscoring_ c) in Hmap. rewrite Hsame in Hmap.
  change (messages_ ca) with (messages_ c) in Hmsgs.
  change (sizeNote G ca) with (sizeNote G c) in Hmsgs.
  unfold mergeAppearance in Hmsgs, Hmap.
  cbn [initialization biggestSize] in Hmsgs, Hmap.
  fold isInit in Hmsgs, Hmap.
  split; [| split; [| split]].
  - intros m1 m2 H1 H2 Hne. rewrite H1, H2 in *.
    assert (first ≠ second) as Hdiff by (intros ->; congruence).
    rewrite bool_decide_eq_true_2 in Hmsgs, Hmap by done.
    rewrite ?H1 in Hmsgs.
    eexists. split; [exact Hmsgs |]. split; [reflexivity |].
    split; [reflexivity |]. split; [reflexivity |]. split; [reflexivity |].
    rewrite Hmap. simpl. by rewrite lookup_insert_eq.
  - intros H1 [m2 H2]. rewrite H1, H2 in *. split; [exact Hmsgs |].
    rewrite Hmap. simpl. by rewrite lookup_insert_eq.
  - apply sizeNote_portability.
  - intros Heq. unfold sizeNote. by rewrite bool_decide_eq_true_2.
Qed.

Lemma initialization_conflict_witness :
  ∃ ca cb,
    MapCommonBlockAndCheckConflicts exampleGraph freshContext 1 = Ret ca
    ∧ MapCommonBlockAndCheckConflicts exampleGraph ca 2 = Ret cb
    ∧ msg_severity <$> messages_ cb = [SevError; SevPortability]
    ∧ (λ msg, att_at <$> msg_attachments msg) <$> messages_ cb =
        [[mkCharBlock 110 1]; [mkCharBlock 100 3]].
Proof.
  destruct (initialization_conflict exampleGraph freshContext 1 2 eq_refl eq_refl)
    as (ca & cb & H1 & _ & H2 & Hconflict & _).
  exists ca, cb. split; [exact H1 |]. split; [exact H2 |].
  destruct (Hconflict 11 12 eq_refl eq_refl) as (error & -> & -> & _);
    [discriminate |].
  split; reflexivity.
Defined.

(** ** The scope location index *)

Lemma comparator_irrefl x : ScopeIndexComparator x x = false.
Proof.
  unfold ScopeIndexComparator.
  rewrite N.ltb_irrefl, (N.ltb_irrefl (cb_size x)). simpl. apply andb_false_r.
Qed.

Lemma comparator_spec x y :
  ScopeIndexComparator x y = true ↔
  cb_begin x < cb_begin y ∨ (cb_begin x = cb_begin y ∧ cb_size y < cb_size x).
Proof.
  unfold ScopeIndexComparator.
  rewrite orb_true_iff, andb_true_iff, !N.ltb_lt, N.eqb_eq. done.
Qed.

Lemma comparator_false x y :
  ScopeIndexComparator x y = false ↔
  cb_begin y < cb_begin x ∨ (cb_begin x = cb_begin y ∧ cb_size x ≤ cb_size y).
Proof.
  rewrite <- not_true_iff_false, comparator_spec. lia.
Qed.

(** The comparator is a strict weak ordering: what is greater than [q] stays
    greater further up. *)
Lemma comparator_trans q a b :
  ScopeIndexComparator q a = true → ScopeIndexComparator b a = false →
  ScopeIndexComparator q b = true.
Proof. rewrite !comparator_spec, comparator_false. lia. Qed.

Lemma comparator_le_trans a b c :
  ScopeIndexComparator b a = false → ScopeIndexComparator c b = false →
  ScopeIndexComparator c a = false.
Proof. rewrite !comparator_false. lia. Qed.

Lemma comparator_asym a b :
  ScopeIndexComparator a b = true → ScopeIndexComparator b a = false.
Proof. rewrite comparator_spec, comparator_false. lia. Qed.

Lemma Contains_spec x q :
  Contains x q = true ↔ cb_begin x ≤ cb_begin q ∧ cb_end q ≤ cb_end x.
Proof. unfold Contains. rewrite andb_true_iff, !N.leb_le. done. Qed.

(** A range that contains [q] is not greater than [q]: it lies before the
    upper bound of [q]. *)
Lemma Contains_not_greater x q :
  Contains x q = true → ScopeIndexComparator q x = false.
Proof. rewrite Contains_spec, comparator_false. unfold cb_end. lia. Qed.


Lemma upper_bound_le index q : (upper_bound index q ≤ length index)%nat.
Proof.
  induction index as [|[k s] rest IH]; simpl; [lia |].
  destruct (ScopeIndexComparator q k); simpl; lia.
Qed.

Lemma upper_bound_before index q e :
  e ∈ take (upper_bound index q) index → ScopeIndexComparator q e.1 = false.
Proof.
  induction index as [|[k s] rest IH]; simpl; [by intros ?%elem_of_nil |].
  destruct (ScopeIndexComparator q k) eqn:Hk; simpl; [by intros ?%elem_of_nil |].
  intros [->|?]%elem_of_cons; [done | by apply IH].
Qed.

Lemma upper_bound_after index q e :
  IndexSorted index →
  e ∈ drop (upper_bound index q) index → ScopeIndexComparator q e.1 = true.
Proof.
  induction 1 as [|[k s] rest _ IH Hall]; simpl; [by intros ?%elem_of_nil |].
  destruct (ScopeIndexComparator q k) eqn:Hk; simpl; [| done].
  intros [->|Hin]%elem_of_cons; [done |].
  rewrite Forall_forall in Hall. apply (comparator_trans q k); [done |].
  by apply (Hall e).
Qed.

Lemma containing_before_upper_bound index q j k s :
  IndexSorted index → index !! j = Some (k, s) → Contains k q = true →
  (j < upper_bound index q)%nat.
Proof.
  intros Hsorted Hj Hc.
  destruct (decide (j < upper_bound index q)%nat) as [|Hge]; [done |].
  assert ((k, s) ∈ drop (upper_bound index q) index) as Hin.
  { apply list_elem_of_lookup. exists (j - upper_bound index q)%nat.
    rewrite lookup_drop. rewrite <- Hj. f_equal. lia. }
  apply (upper_bound_after _ _ _ Hsorted) in Hin. simpl in Hin.
  apply Contains_not_greater in Hc. congruence.
Qed.

(** The backward scan from [iter]: it stops at the last position before
    [iter] whose range contains the source, and ends at [end()] when there
    is none. *)
Lemma scanBackward_spec index q iter :
  (0 < iter ≤ length index)%nat →
  (∃ i k s,
     scanBackward index q iter = Ret i
     ∧ (i < iter)%nat ∧ index !! i = Some (k, s) ∧ Contains k q = true
     ∧ ∀ j k' s', (i < j < iter)%nat → index !! j = Some (k', s') →
                  Contains k' q = false)
  ∨ (scanBackward index q iter = Ret (length index)
     ∧ ∀ j k' s', (j < iter)%nat → index !! j = Some (k', s') →
                  Contains k' q = false).
Proof.
  induction iter as [|i IH]; [lia |]. intros [_ Hle].
  destruct (lookup_lt_is_Some_2 index i ltac:(lia)) as [[k s] Hi].
  simpl. rewrite Hi. destruct (Contains k q) eqn:Hc.
  - left. exists i, k, s. repeat split; try done; try lia.
  - destruct i as [|i'].
    + right. split; [done |]. intros j k' s' Hj Hl.
      assert (j = 0%nat) as -> by lia. congruence.
    + destruct IH as [(i0 & k0 & s0 & Hr & Hlt & Hl & Hc0 & Hbetween)|[Hr Hnone]];
        [lia | |].
      * left. exists i0, k0, s0. split; [done |]. split; [lia |].
        split; [done |]. split; [done |].
        intros j k' s' Hj Hl'.
        destruct (decide (j = S i')) as [->|]; [congruence |].
        apply (Hbetween j k' s'); [lia | done].
      * right. split; [done |]. intros j k' s' Hj Hl.
        destruct (decide (j = S i')) as [->|]; [congruence |].
        apply (Hnone j k' s'); [lia | done].
Qed.

(** When some registered range contains the source, the search ends on the
    last entry, in the order of the index, whose range contains it. *)
Lemma SearchScopeIndex_found c q :
  IndexSorted (scopeIndex_ c) →
  (∃ j k s, scopeIndex_ c !! j = Some (k, s) ∧ Contains k q = true) →
  ∃ i k s,
    SearchScopeIndex c q = Ret i
    ∧ scopeIndex_ c !! i = Some (k, s) ∧ Contains k q = true
    ∧ ∀ j k' s', scopeIndex_ c !! j = Some (k', s') → Contains k' q = true →
        (j ≤ i)%nat ∧ ScopeIndexComparator k k' = false.
Proof.
  intros Hsorted (j0 & k0 & s0 & Hj0 & Hc0).
  pose proof (containing_before_upper_bound _ _ _ _ _ Hsorted Hj0 Hc0) as Hub.
  pose proof (upper_bound_le (scopeIndex_ c) q) as Hlen.
  unfold SearchScopeIndex.
  destruct (scopeIndex_ c) as [|e rest] eqn:Hidx; [by rewrite lookup_nil in Hj0 |].
  rewrite <- Hidx in *.
  destruct (scanBackward_spec (scopeIndex_ c) q (upper_bound (scopeIndex_ c) q))
    as [(i & k & s & Hr & Hlt & Hl & Hc & Hbetween)|[_ Hnone]]; [lia | |].
  - exists i, k, s. split; [done |]. split; [done |]. split; [done |].
    intros j k' s' Hj Hc'.
    pose proof (containing_before_upper_bound _ _ _ _ _ Hsorted Hj Hc') as Hj'.
    assert (j ≤ i)%nat as Hji.
    { destruct (decide (j ≤ i)%nat); [done |].
      rewrite (Hbetween j k' s') in Hc'; [done | lia | done]. }
    split; [done |].
    destruct (decide (j = i)) as [->|Hne].
    { rewrite Hl in Hj. inversion Hj; subst. apply comparator_irrefl. }
    assert (entry_le (k', s') (k, s)) as Hle; [| exact Hle].
    unfold IndexSorted in Hsorted.
    rewrite <- (take_drop_middle _ _ _ Hl) in Hsorted.
    apply (StronglySorted_app_1_elem_of _ _ _ _ _ Hsorted); [| by left].
    apply elem_of_take. exists j. split; [done | lia].
  - rewrite (Hnone j0 k0 s0) in Hc0; done.
Qed.

(** When some registered range contains the position, [FindScope] returns
    the scope of the last entry, in the order of the index, whose range
    contains it.  No containing entry starts later, and none that starts at
    the same point is smaller. *)
Lemma FindScope_innermost c q :
  IndexSorted (scopeIndex_ c) →
  (∃ j k s, scopeIndex_ c !! j = Some (k, s) ∧ Contains k q = true) →
  ∃ i k s,
    FindScope c q = Ret s
    ∧ scopeIndex_ c !! i = Some (k, s) ∧ Contains k q = true
    ∧ ∀ j k' s', scopeIndex_ c !! j = Some (k', s') → Contains k' q = true →
        (j ≤ i)%nat ∧ ScopeIndexComparator k k' = false.
Proof.
  intros Hsorted Hsome.
  destruct (SearchScopeIndex_found c q Hsorted Hsome)
    as (i & k & s & Hr & Hl & Hc & Hlast).
  exists i, k, s. split; [| done].
  unfold FindScope. rewrite Hr. simpl.
  pose proof (lookup_lt_Some _ _ _ Hl).
  rewrite bool_decide_eq_true_2 by lia. by rewrite Hl.
Qed.








(** For a non-empty index all of whose keys are greater than the position,
    the scan begins by decrementing [begin()].  The language defines no
    result for that step, and the model gives none. *)
Lemma FindScope_decrements_begin c q :
  scopeIndex_ c ≠ [] → upper_bound (scopeIndex_ c) q = 0%nat →
  FindScope c q = Undefined.
Proof.
  intros Hne Hub. unfold FindScope, SearchScopeIndex.
  destruct (scopeIndex_ c) as [|e rest] eqn:Hidx; [done |].
  cbv beta iota. rewrite Hub. reflexivity.
Qed.




Lemma IndexSorted_delete index i : IndexSorted index → IndexSorted (delete i index).
Proof.
  unfold IndexSorted. intros Hsorted. rewrite delete_take_drop.
  rewrite <- (take_drop i index) in Hsorted.
  replace (S i) with (i + 1)%nat by lia. rewrite <- drop_drop.
  destruct (drop i index) as [|x rest]; simpl.
  - done.
  - rewrite ?drop_0.
    apply StronglySorted_app in Hsorted as (Hcross & Htake & Hdrop).
    apply StronglySorted_cons in Hdrop as [_ Hrest].
    apply StronglySorted_app. split; [| done].
    intros x1 x2 H1 H2. apply Hcross; [done | by right].
Qed.

Lemma IndexSorted_emplace index k s :
  IndexSorted index → IndexSorted (emplace index k s).
Proof.
  unfold IndexSorted, emplace. intros Hsorted.
  pose proof Hsorted as Hparts.
  rewrite <- (take_drop (upper_bound index k) index) in Hparts.
  apply StronglySorted_app in Hparts as (Hcross & Htake & Hdrop).
  apply StronglySorted_app. split; [| split; [done |]].
  - intros x1 x2 H1 [->|H2]%elem_of_cons.
    + by apply upper_bound_before in H1.
    + by apply Hcross.
  - apply StronglySorted_cons. split; [| done].
    apply Forall_forall. intros e He.
    apply (upper_bound_after _ _ _ Hsorted) in He.
    by apply comparator_asym.
Qed.

Lemma elem_of_emplace index k s e :
  e ∈ emplace index k s ↔ e = (k, s) ∨ e ∈ index.
Proof.
  unfold emplace. split.
  - intros [H|[->|H]%elem_of_cons]%elem_of_app; [right | by left | right].
    + exact (elem_of_sublist _ _ _ H (sublist_take _ _)).
    + exact (elem_of_sublist _ _ _ H (sublist_drop _ _)).
  - intros [->|H]; apply elem_of_app; [right; by left |].
    rewrite <- (take_drop (upper_bound index k) index) in H.
    apply elem_of_app in H as [H|H]; [by left | right; by right].
Qed.



Lemma elem_of_delete_other (index : list (CharBlock * N)) i range scope k s :
  index !! i = Some (range, scope) → s ≠ scope →
  (k, s) ∈ delete i index ↔ (k, s) ∈ index.
Proof.
  intros Hi Hne. split.
  - intros H. exact (elem_of_sublist _ _ _ H (sublist_delete _ _)).
  - intros [j Hj]%list_elem_of_lookup. apply list_elem_of_lookup.
    destruct (decide (j < i)%nat).
    + exists j. by rewrite list_lookup_delete_lt.
    + assert (j ≠ i) by (intros ->; congruence).
      exists (j - 1)%nat. rewrite list_lookup_delete_ge by lia.
      rewrite <- Hj. f_equal. lia.
Qed.





(** * Further properties *)

(** ** The scope location index, continued *)

(** X1. [ScopeIndexComparator] is a strict total order on ranges, as a
    [std::multimap] needs: it is irreflexive, asymmetric and transitive,
    two ranges that it does not order are the same range, and of two ranges
    with one start the larger comes first. *)
Theorem ScopeIndexComparator_strict_order :
  (∀ x, ScopeIndexComparator x x = false)
  ∧ (∀ x y, ScopeIndexComparator x y = true → ScopeIndexComparator y x = false)
  ∧ (∀ x y z, ScopeIndexComparator x y = true → ScopeIndexComparator y z = true →
              ScopeIndexComparator x z = true)
  ∧ (∀ x y, ScopeIndexComparator x y = false → ScopeIndexComparator y x = false →
            x = y)
  ∧ (∀ x y, cb_begin x = cb_begin y →
            (ScopeIndexComparator x y = true ↔ cb_size y < cb_size x)).
Proof.
  split; [apply comparator_irrefl |].
  split; [apply comparator_asym |].
  split; [intros x y z; rewrite !comparator_spec; lia |].
  split.
  - intros [xb xs] [yb ys]. rewrite !comparator_false. simpl. intros H1 H2.
    f_equal; lia.
  - intros x y Hb. rewrite comparator_spec. lia.
Qed.

Lemma ScopeIndexComparator_strict_order_witness :
  ScopeIndexComparator (mkCharBlock 0 20) (mkCharBlock 0 10) = true
  ∧ ScopeIndexComparator (mkCharBlock 0 10) (mkCharBlock 0 20) = false
  ∧ ScopeIndexComparator (mkCharBlock 0 20) (mkCharBlock 5 1) = true.
Proof.
  destruct ScopeIndexComparator_strict_order as (_ & Hasym & Htrans & _ & Hsize).
  assert (ScopeIndexComparator (mkCharBlock 0 20) (mkCharBlock 0 10) = true) as H1.
  { apply (Hsize (mkCharBlock 0 20) (mkCharBlock 0 10) eq_refl). reflexivity. }
  split; [exact H1 |]. split; [exact (Hasym _ _ H1) |].
  apply (Htrans _ (mkCharBlock 0 10)); [exact H1 | reflexivity].
Defined.

(** X2. When the range of some entry of the (sorted) index contains the
    position, [FindScope] returns the scope of an entry whose range contains
    the position, and that entry is the last such entry of the index: no
    other containing range starts later, and none with the same start is
    smaller. *)
Theorem FindScope_last_containing (c : SemanticsContext) (q : CharBlock) :
  IndexSorted (scopeIndex_ c) →
  (∃ j k s, scopeIndex_ c !! j = Some (k, s) ∧ Contains k q = true) →
  ∃ i k s,
    FindScope c q = Ret s
    ∧ scopeIndex_ c !! i = Some (k, s)
    ∧ Contains k q = true
    ∧ ∀ j k' s', scopeIndex_ c !! j = Some (k', s') → Contains k' q = true →
        (j ≤ i)%nat
        ∧ cb_begin k' ≤ cb_begin k
        ∧ (cb_begin k' = cb_begin k → cb_size k ≤ cb_size k').
Proof.
  intros Hsorted Hsome.
  destruct (FindScope_innermost c q Hsorted Hsome) as (i & k & s & Hr & Hi & Hc & Hlast).
  exists i, k, s. split; [done |]. split; [done |]. split; [done |].
  intros j k' s' Hj Hc'. destruct (Hlast j k' s' Hj Hc') as [Hji Hcmp].
  split; [done |]. apply comparator_false in Hcmp. lia.
Qed.

Lemma FindScope_last_containing_witness :
  FindScope
    (with_scopeIndex freshContext
       [(mkCharBlock 0 30, 1); (mkCharBlock 5 10, 2); (mkCharBlock 20 5, 3)])
    (mkCharBlock 7 2) = Ret 2.
Proof.
  destruct (FindScope_last_containing
              (with_scopeIndex freshContext
                 [(mkCharBlock 0 30, 1); (mkCharBlock 5 10, 2); (mkCharBlock 20 5, 3)])
              (mkCharBlock 7 2))
    as (i & k & s & Hr & _).
  - repeat constructor.
  - exists 0%nat, (mkCharBlock 0 30), 1. split; reflexivity.
  - vm_compute in Hr |- *. exact eq_refl.
Defined.

(** X3. [FindScope] aborts with its "invalid source location" message when
    no registered range contains the position and the index is empty or
    holds a key that is not greater than the position. *)
Theorem FindScope_invalid_location (c : SemanticsContext) (q : CharBlock) :
  (∀ j k s, scopeIndex_ c !! j = Some (k, s) → Contains k q = false) →
  scopeIndex_ c = [] ∨ (0 < upper_bound (scopeIndex_ c) q)%nat →
  FindScope c q =
    Die "SemanticsContext::FindScope(): invalid source location for '%s'".
Proof.
  intros Hnone Hcase. unfold FindScope, SearchScopeIndex.
  destruct Hcase as [->|Hub]; [reflexivity |].
  pose proof (upper_bound_le (scopeIndex_ c) q) as Hlen.
  destruct (scopeIndex_ c) as [|e rest] eqn:Hidx; [simpl in Hub; lia |].
  rewrite <- Hidx in *.
  destruct (scanBackward_spec (scopeIndex_ c) q (upper_bound (scopeIndex_ c) q))
    as [(i & k & s & Hr & Hlt & Hl & Hc & _)|[Hr _]]; [lia | |].
  - rewrite (Hnone i k s) in Hc; done.
  - rewrite Hr. simpl. by rewrite bool_decide_eq_false_2 by auto.
Qed.

Lemma FindScope_invalid_location_witness :
  FindScope (with_scopeIndex freshContext [(mkCharBlock 10 10, 1)])
    (mkCharBlock 25 1) =
    Die "SemanticsContext::FindScope(): invalid source location for '%s'"
  ∧ FindScope freshContext (mkCharBlock 25 1) =
      Die "SemanticsContext::FindScope(): invalid source location for '%s'".
Proof.
  split.
  - apply FindScope_invalid_location.
    + intros [|j] k s; simpl; [by intros [= <- <-] | by rewrite lookup_nil].
    + right. vm_compute. lia.
  - apply FindScope_invalid_location.
    + intros j k s. simpl. by rewrite lookup_nil.
    + by left.
Defined.

(** The [while] loop of [UpdateScopeIndex] runs into its [CHECK] when the
    scope has no entry at or before the starting position. *)
Lemma findEntryOf_absent (index : list (CharBlock * N)) scope j :
  (j < length index)%nat →
  (∀ j' k, (j' ≤ j)%nat → index !! j' ≠ Some (k, scope)) →
  findEntryOf index scope j = Die "CHECK(iter != scopeIndex_.begin())".
Proof.
  induction j as [|j IH]; intros Hlen Hnone.
  - destruct (lookup_lt_is_Some_2 index 0%nat Hlen) as [[k s] H0].
    simpl. rewrite H0.
    rewrite bool_decide_eq_true_2; [done |].
    intros ->. by apply (Hnone 0%nat k).
  - destruct (lookup_lt_is_Some_2 index (S j) Hlen) as [[k s] Hj].
    cbn [findEntryOf]. rewrite Hj.
    rewrite bool_decide_eq_true_2 by (intros ->; by apply (Hnone (S j) k)).
    apply IH; [lia |]. intros j' k' Hj'. apply Hnone. lia.
Qed.

Lemma emplace_Permutation index k s : emplace index k s ≡ₚ (k, s) :: index.
Proof.
  unfold emplace. rewrite <- Permutation_middle.
  by rewrite take_drop.
Qed.

(** X4. [UpdateScopeIndex] for a scope whose source range is still empty
    registers the scope under the new source: the index gains exactly that
    entry and stays sorted, nothing else in the context changes, and a
    later [FindScope] at a position inside the new source returns a scope
    whose range contains the position. *)
Theorem UpdateScopeIndex_registers (c : SemanticsContext) (scope : Scope)
    (newSource : CharBlock) :
  cb_empty (sourceRange scope) = true →
  IndexSorted (scopeIndex_ c) →
  ∃ c',
    UpdateScopeIndex c scope newSource = Ret c'
    ∧ c' = with_scopeIndex c (scopeIndex_ c')
    ∧ scopeIndex_ c' ≡ₚ (newSource, scope_ref scope) :: scopeIndex_ c
    ∧ IndexSorted (scopeIndex_ c')
    ∧ ∀ q, Contains newSource q = true →
        ∃ k s, FindScope c' q = Ret s
               ∧ (k, s) ∈ scopeIndex_ c' ∧ Contains k q = true.
Proof.
  intros Hempty Hsorted. unfold UpdateScopeIndex. rewrite Hempty.
  eexists. split; [reflexivity |]. simpl. split; [reflexivity |].
  split; [apply emplace_Permutation |].
  assert (IndexSorted (emplace (scopeIndex_ c) newSource (scope_ref scope)))
    as Hsorted' by (by apply IndexSorted_emplace).
  split; [done |].
  intros q Hq.
  destruct (FindScope_innermost
              (with_scopeIndex c (emplace (scopeIndex_ c) newSource (scope_ref scope)))
              q Hsorted') as (i & k & s & Hr & Hi & Hc & _).
  { assert ((newSource, scope_ref scope)
              ∈ emplace (scopeIndex_ c) newSource (scope_ref scope))
      as [j Hj]%list_elem_of_lookup by (apply elem_of_emplace; by left).
    by exists j, newSource, (scope_ref scope). }
  exists k, s. split; [done |]. split; [| done].
  apply list_elem_of_lookup. by exists i.
Qed.

Lemma UpdateScopeIndex_registers_witness :
  ∃ c',
    UpdateScopeIndex
      (with_scopeIndex freshContext [(mkCharBlock 0 10, 1)])
      (mkScope 2 (mkCharBlock 0 0)) (mkCharBlock 3 4) = Ret c'
    ∧ scopeIndex_ c' = [(mkCharBlock 0 10, 1); (mkCharBlock 3 4, 2)]
    ∧ FindScope c' (mkCharBlock 4 1) = Ret 2.
Proof.
  destruct (UpdateScopeIndex_registers
              (with_scopeIndex freshContext [(mkCharBlock 0 10, 1)])
              (mkScope 2 (mkCharBlock 0 0)) (mkCharBlock 3 4) eq_refl)
    as (c' & Hrun & _).
  - repeat constructor.
  - exists c'. split; [exact Hrun |].
    vm_compute in Hrun. inversion Hrun; subst. split; reflexivity.
Defined.

(** X5. [UpdateScopeIndex] for a scope with a non-empty range that must
    grow, but that has no entry in the index, ends in a failed [CHECK]
    (the index being empty or holding a key not greater than the range). *)
Theorem UpdateScopeIndex_unregistered (c : SemanticsContext) (scope : Scope)
    (newSource : CharBlock) :
  cb_empty (sourceRange scope) = false →
  Contains (sourceRange scope) newSource = false →
  (∀ j k, scopeIndex_ c !! j ≠ Some (k, scope_ref scope)) →
  scopeIndex_ c = [] ∨ (0 < upper_bound (scopeIndex_ c) (sourceRange scope))%nat →
  ∃ msg, UpdateScopeIndex c scope newSource = Die msg.
Proof.
  intros Hne Hnc Hnone Hcase. unfold UpdateScopeIndex, SearchScopeIndex.
  rewrite Hne, Hnc. simpl.
  destruct Hcase as [->|Hub]; [simpl; eauto |].
  pose proof (upper_bound_le (scopeIndex_ c) (sourceRange scope)) as Hlen.
  destruct (scopeIndex_ c) as [|e rest] eqn:Hidx; [simpl in Hub; lia |].
  rewrite <- Hidx in *.
  destruct (scanBackward_spec (scopeIndex_ c) (sourceRange scope)
              (upper_bound (scopeIndex_ c) (sourceRange scope)))
    as [(i & k & s & Hr & Hlt & Hl & Hc & _)|[Hr _]]; [lia | |].
  - rewrite Hr. simpl. rewrite bool_decide_eq_true_2 by lia.
    rewrite findEntryOf_absent; [simpl; eauto | lia |].
    intros j' k' _. apply Hnone.
  - rewrite Hr. simpl. rewrite bool_decide_eq_false_2 by auto. eauto.
Qed.

Lemma UpdateScopeIndex_unregistered_witness :
  ∃ msg,
    UpdateScopeIndex (with_scopeIndex freshContext [(mkCharBlock 0 10, 1)])
      (mkScope 2 (mkCharBlock 2 3)) (mkCharBlock 2 6) = Die msg.
Proof.
  apply UpdateScopeIndex_unregistered.
  - reflexivity.
  - reflexivity.
  - intros [|j] k; simpl; [discriminate | by rewrite lookup_nil].
  - right. vm_compute. lia.
Defined.

Lemma findEntryOf_Ret (index : list (CharBlock * N)) scope j i :
  findEntryOf index scope j = Ret i →
  ∃ k, index !! i = Some (k, scope).
Proof.
  revert i. induction j as [|j IH]; intros i; cbn [findEntryOf];
    destruct (index !! _) as [[k s]|] eqn:Hj; try discriminate;
    case_bool_decide as Hs; try discriminate.
  - intros [= <-]. exists k. rewrite Hj. f_equal. f_equal.
    by destruct (decide (s = scope)).
  - apply IH.
  - intros [= <-]. exists k. rewrite Hj. f_equal. f_equal.
    by destruct (decide (s = scope)).
Qed.

(** X6. A call of [UpdateScopeIndex] that returns keeps the index sorted,
    changes nothing else in the context, and leaves the entries of all
    other scopes as they were; unless the scope's range already contained
    the new source, the scope is registered under the new source
    afterwards. *)
Theorem UpdateScopeIndex_frame (c c' : SemanticsContext) (scope : Scope)
    (newSource : CharBlock) :
  IndexSorted (scopeIndex_ c) →
  UpdateScopeIndex c scope newSource = Ret c' →
  IndexSorted (scopeIndex_ c')
  ∧ c' = with_scopeIndex c (scopeIndex_ c')
  ∧ (∀ k s, s ≠ scope_ref scope →
       (k, s) ∈ scopeIndex_ c' ↔ (k, s) ∈ scopeIndex_ c)
  ∧ (cb_empty (sourceRange scope) = true
     ∨ Contains (sourceRange scope) newSource = false →
     (newSource, scope_ref scope) ∈ scopeIndex_ c').
Proof.
  intros Hsorted Hrun. unfold UpdateScopeIndex in Hrun.
  destruct (cb_empty (sourceRange scope)) eqn:Hempty.
  - inversion Hrun; subst; clear Hrun. simpl.
    split; [by apply IndexSorted_emplace |]. split; [done |].
    split.
    + intros k s Hne. rewrite elem_of_emplace. split; [| by right].
      intros [[= _ ->]|?]; done.
    + intros _. apply elem_of_emplace. by left.
  - destruct (Contains (sourceRange scope) newSource) eqn:Hc; simpl in Hrun.
    + inversion Hrun; subst; clear Hrun.
      split; [done |]. split; [by destruct c' |]. split; [done |].
      by intros [?|?].
    + apply bind_Ret in Hrun as (iter & _ & Hrun).
      case_bool_decide; [| done].
      apply bind_Ret in Hrun as (i & Hfind & Hret).
      inversion Hret; subst; clear Hret. simpl.
      destruct (findEntryOf_Ret _ _ _ _ Hfind) as [k0 Hi].
      split; [by apply IndexSorted_emplace, IndexSorted_delete |].
      split; [done |]. split.
      * intros k s Hne. rewrite elem_of_emplace.
        rewrite (elem_of_delete_other _ _ _ _ _ _ Hi Hne). split; [| by right].
        intros [[= _ ->]|?]; done.
      * intros _. apply elem_of_emplace. by left.
Qed.

Lemma UpdateScopeIndex_frame_witness :
  let c' := with_scopeIndex freshContext
              [(mkCharBlock 0 10, 1); (mkCharBlock 11 6, 2)] in
  UpdateScopeIndex
    (with_scopeIndex freshContext [(mkCharBlock 0 10, 1); (mkCharBlock 12 3, 2)])
    (mkScope 2 (mkCharBlock 12 3)) (mkCharBlock 11 6) = Ret c'
  ∧ IndexSorted (scopeIndex_ c')
  ∧ (mkCharBlock 11 6, 2) ∈ scopeIndex_ c'
  ∧ (mkCharBlock 0 10, 1) ∈ scopeIndex_ c'.
Proof.
  intros c'. split; [reflexivity |].
  destruct (UpdateScopeIndex_frame
              (with_scopeIndex freshContext
                 [(mkCharBlock 0 10, 1); (mkCharBlock 12 3, 2)])
              c' (mkScope 2 (mkCharBlock 12 3)) (mkCharBlock 11 6))
    as (Hs & _ & Hothers & Hself).
  - repeat constructor.
  - reflexivity.
  - split; [exact Hs |]. split; [apply Hself; by right |].
    apply Hothers; [done | by left].
Defined.

(** ** The common-block merge table, continued *)

(** X7. [CommonBlockIsInitialized] answers with an initialized symbol that
    is a direct member of the common block or, when no direct member is
    initialized, an object of an equivalence set of the owning scope that
    is not compiler-created and lies in the common block; it answers null
    exactly when there is neither. *)
Theorem CommonBlockIsInitialized_spec (G : SymbolGraph) (common : SymbolRef) :
  let members := sym_objects (symbol_at G common) in
  let sets := equivalenceSets G (sym_owner (symbol_at G common)) in
  let aliases obj :=
    sym_compilerCreated (symbol_at G obj) = false
    ∧ sym_common (symbol_at G obj) = Some common in
  match CommonBlockMap.CommonBlockIsInitialized G common with
  | Some m =>
    sym_initialized (symbol_at G m) = true
    ∧ (m ∈ members
       ∨ ((∀ x, x ∈ members → sym_initialized (symbol_at G x) = false)
          ∧ aliases m ∧ ∃ set, set ∈ sets ∧ m ∈ set))
  | None =>
    (∀ x, x ∈ members → sym_initialized (symbol_at G x) = false)
    ∧ ∀ set obj, set ∈ sets → obj ∈ set → aliases obj →
        sym_initialized (symbol_at G obj) = false
  end.
Proof.
  intros members sets aliases. unfold CommonBlockMap.CommonBlockIsInitialized.
  fold members sets.
  destruct (List.find _ members) as [m|] eqn:Hdirect.
  { apply find_some in Hdirect as [Hin Hinit].
    split; [done |]. left. by apply list_elem_of_In. }
  assert (∀ x, x ∈ members → sym_initialized (symbol_at G x) = false) as Hnone.
  { intros x Hx. apply (find_none _ _ Hdirect). by apply list_elem_of_In. }
  clear Hdirect. induction sets as [|set rest IH]; simpl.
  - split; [done |]. by intros set obj ?%elem_of_nil.
  - destruct (List.find _ set) as [obj|] eqn:Hset.
    + apply find_some in Hset as [Hin Hp].
      apply andb_true_iff in Hp as [Hp Hinit].
      apply andb_true_iff in Hp as [Hcc Hcommon].
      apply negb_true_iff in Hcc. apply bool_decide_eq_true in Hcommon.
      split; [done |]. right. split; [done |]. split; [done |].
      exists set. split; [by left | by apply list_elem_of_In].
    + destruct (CommonBlockMap.InitializedEquivalenceObject G common rest)
        as [m|] eqn:Hrest.
      * destruct IH as (Hinit & [Hm|(_ & Ha & set' & Hs' & Hm)]);
          (split; [done |]); [by left |].
        right. split; [done |]. split; [done |].
        exists set'. split; [by right | done].
      * destruct IH as [_ IH]. split; [done |].
        intros set' obj [->|Hin]%elem_of_cons Hobj [Hcc Hcommon].
        -- apply list_elem_of_In in Hobj.
           pose proof (find_none _ _ Hset obj Hobj) as Hf. simpl in Hf.
           rewrite Hcc, Hcommon in Hf. simpl in Hf.
           by rewrite bool_decide_eq_true_2 in Hf by done.
        -- by apply (IH set' obj).
Qed.

Lemma CommonBlockIsInitialized_spec_witness :
  CommonBlockMap.CommonBlockIsInitialized exampleGraph 1 = Some 11
  ∧ sym_initialized (symbol_at exampleGraph 11) = true
  ∧ CommonBlockMap.CommonBlockIsInitialized exampleGraph 3 = None
  ∧ sym_initialized (symbol_at exampleGraph 13) = false.
Proof.
  pose proof (CommonBlockIsInitialized_spec exampleGraph 1) as H1.
  pose proof (CommonBlockIsInitialized_spec exampleGraph 3) as H3.
  change (CommonBlockMap.CommonBlockIsInitialized exampleGraph 1) with (Some 11) in H1.
  change (CommonBlockMap.CommonBlockIsInitialized exampleGraph 3) with (@None N) in H3.
  cbv zeta in H1, H3. destruct H1 as [Hinit _]. destruct H3 as [Hnone _].
  split; [reflexivity |]. split; [exact Hinit |]. split; [reflexivity |].
  apply (Hnone 13). by left.
Defined.

Lemma mergeAppearance_idempotent G o s :
  mergeAppearance G (Some (mergeAppearance G o s)) s = mergeAppearance G o s.
Proof.
  unfold mergeAppearance.
  destruct o as [[b init]|]; cbn [biggestSize initialization].
  - destruct (CommonBlockMap.size G b <? CommonBlockMap.size G s) eqn:Hlt.
    + rewrite N.ltb_irrefl.
      destruct (CommonBlockMap.CommonBlockIsInitialized G s); [| done].
      destruct init as [p|]; [| by rewrite bool_decide_eq_false_2 by auto].
      case_bool_decide; [by rewrite bool_decide_eq_true_2 by done |].
      by rewrite bool_decide_eq_false_2 by auto.
    + rewrite Hlt.
      destruct (CommonBlockMap.CommonBlockIsInitialized G s); [| done].
      destruct init as [p|]; [| by rewrite bool_decide_eq_false_2 by auto].
      case_bool_decide; [by rewrite bool_decide_eq_true_2 by done |].
      by rewrite bool_decide_eq_false_2 by auto.
  - rewrite N.ltb_irrefl.
    destruct (CommonBlockMap.CommonBlockIsInitialized G s); [| done].
    by rewrite bool_decide_eq_false_2 by auto.
Qed.

(** Whenever a call returns, the table afterwards is the table before with
    the record of the link name merged with the appearance. *)
Lemma MapCommonBlock_table G c c' s :
  MapCommonBlockAndCheckConflicts G c s = Ret c' →
  let n := sym_linkName (symbol_at G s) (underscoring_ c) in
  let m := default ∅ (commonBlockMap_ c) in
  commonBlockMap_ c' = Some (<[n := mergeAppearance G (m !! n) s]> m)
  ∧ underscoring_ c' = underscoring_ c.
Proof.
  intros Hrun. cbv zeta.
  set (n := sym_linkName (symbol_at G s) (underscoring_ c)).
  destruct (commonBlockMap_ c) as [m0|] eqn:Hm0; cbn [default from_option id].
  - destruct (m0 !! n) as [info|] eqn:Hn.
    + unfold MapCommonBlockAndCheckConflicts,
        CommonBlockMap.MapCommonBlockAndCheckConflicts in Hrun.
      rewrite Hm0 in Hrun. cbn [default from_option id] in Hrun.
      rewrite ?Hm0 in Hrun. cbn [default from_option id] in Hrun.
      fold n in Hrun. rewrite Hn in Hrun.
      apply bind_Ret in Hrun as ([m1 c1] & Hrun & Hret).
      inversion Hret; subst; clear Hret.
      apply bind_Ret in Hrun as ([info1 c2] & Hinit & Hret).
      inversion Hret; subst; clear Hret. simpl.
      destruct (checkSize_fields G info1 c2 s) as (U & _).
      assert (info1 = mkCommonBlockInfo (biggestSize info)
                        (initialization (mergeAppearance G (Some info) s))
              ∧ underscoring_ c2 = underscoring_ c) as [-> U2].
      { unfold CommonBlockMap.checkInitialization, mergeAppearance in *.
        destruct info as [b init]. cbn [biggestSize initialization] in *.
        destruct (CommonBlockMap.CommonBlockIsInitialized G s);
          [| by inversion Hinit].
        destruct init as [p|]; [| by inversion Hinit].
        case_bool_decide; [| by inversion Hinit].
        destruct (CommonBlockMap.CommonBlockIsInitialized G p);
          [by inversion Hinit | done]. }
      split; [| congruence].
      do 2 f_equal. unfold mergeAppearance. cbn [biggestSize initialization].
      by destruct (_ <? _).
    + rewrite (first_appearance G c s) in Hrun
        by (fold n; rewrite Hm0; exact Hn).
      inversion Hrun; subst. simpl. rewrite Hm0. by split.
  - rewrite (first_appearance G c s) in Hrun by (by rewrite Hm0).
    inversion Hrun; subst. simpl. rewrite Hm0. by split.
Qed.

(** Whenever a call returns, it has changed the table and the messages of
    the context, and nothing else. *)
Lemma MapCommonBlock_effect G c c' s :
  MapCommonBlockAndCheckConflicts G c s = Ret c' →
  let n := sym_linkName (symbol_at G s) (underscoring_ c) in
  let m := default ∅ (commonBlockMap_ c) in
  c' = with_commonBlockMap
         (with_messages c (messages_ c ++ callReports G c (m !! n) s))
         (Some (<[n := mergeAppearance G (m !! n) s]> m)).
Proof.
  intros Hrun. cbv zeta.
  set (n := sym_linkName (symbol_at G s) (underscoring_ c)).
  destruct (commonBlockMap_ c) as [m0|] eqn:Hm0; cbn [default from_option id].
  - destruct (m0 !! n) as [info|] eqn:Hn.
    + unfold MapCommonBlockAndCheckConflicts,
        CommonBlockMap.MapCommonBlockAndCheckConflicts in Hrun.
      rewrite Hm0 in Hrun. cbn [default from_option id] in Hrun.
      rewrite ?Hm0 in Hrun. cbn [default from_option id] in Hrun.
      fold n in Hrun. rewrite Hn in Hrun.
      unfold callReports, initializationReport, mergeAppearance, sizeNote.
      unfold CommonBlockMap.checkInitialization, CommonBlockMap.checkSize,
        Warn, Say in Hrun.
      destruct info as [b init]. cbn [biggestSize initialization] in *.
      destruct (CommonBlockMap.CommonBlockIsInitialized G s) as [i|];
        [destruct init as [p|];
         [case_bool_decide;
          [destruct (CommonBlockMap.CommonBlockIsInitialized G p) as [q|];
           [| done] |] |] |];
        simpl in Hrun;
        destruct (negb (bool_decide (CommonBlockMap.size G s
                                     = CommonBlockMap.size G b))
                  && negb (cb_empty (CommonBlockMap.name G s)));
        simpl in Hrun |- *;
        try destruct (shouldWarn_ c DistinctCommonSizes
                        (CommonBlockMap.name G s));
        simpl in Hrun |- *;
        destruct (CommonBlockMap.size G b <? CommonBlockMap.size G s);
        inversion Hrun; subst; clear Hrun;
        unfold with_commonBlockMap, with_messages; simpl;
        rewrite <- ?app_assoc, ?app_nil_r; reflexivity.
    + rewrite (first_appearance G c s) in Hrun
        by (fold n; rewrite Hm0; exact Hn).
      inversion Hrun; subst. unfold with_commonBlockMap, with_messages. simpl.
      rewrite Hm0. simpl. by rewrite app_nil_r.
  - rewrite (first_appearance G c s) in Hrun by (by rewrite Hm0).
    inversion Hrun; subst. unfold with_commonBlockMap, with_messages. simpl.
    rewrite Hm0. simpl. by rewrite app_nil_r.
Qed.

Lemma initializationReport_merged G o s :
  initializationReport G (initialization (mergeAppearance G o s)) s
  = match o with
    | Some info => initializationReport G (initialization info) s
    | None => []
    end.
Proof.
  unfold initializationReport, mergeAppearance.
  destruct o as [[b init]|]; cbn [initialization].
  - destruct (CommonBlockMap.CommonBlockIsInitialized G s) as [i|]; [| done].
    destruct init as [p|].
    + case_bool_decide as Hne.
      * by rewrite bool_decide_eq_true_2 by done.
      * by rewrite bool_decide_eq_false_2 by auto.
    + by rewrite bool_decide_eq_false_2 by auto.
  - destruct (CommonBlockMap.CommonBlockIsInitialized G s) as [i|]; [| done].
    by rewrite bool_decide_eq_false_2 by auto.
Qed.

Lemma sizeNote_merged G c c1 o s :
  shouldWarn_ c1 = shouldWarn_ c →
  sizeNote G c1 (biggestSize (mergeAppearance G o s)) s
  = match o with
    | Some info =>
      if CommonBlockMap.size G (biggestSize info) <? CommonBlockMap.size G s
      then [] else sizeNote G c (biggestSize info) s
    | None => []
    end.
Proof.
  intros Hwarn. unfold sizeNote, mergeAppearance. rewrite Hwarn.
  destruct o as [[b init]|]; cbn [biggestSize].
  - destruct (CommonBlockMap.size G b <? CommonBlockMap.size G s); [| done].
    by rewrite bool_decide_eq_true_2 by done.
  - by rewrite bool_decide_eq_true_2 by done.
Qed.

(** X8. Mapping the same appearance again leaves the table as it is, and
    [GetCommonBlocks] with it: a repeated call can only repeat diagnostics.
    It changes nothing in the context but the messages, and the messages it
    adds are, in their order, among the messages that the first call of the
    appearance added. *)
Theorem MapCommonBlock_repeated (G : SymbolGraph) (c c1 c2 : SemanticsContext)
    (common : SymbolRef) :
  MapCommonBlockAndCheckConflicts G c common = Ret c1 →
  MapCommonBlockAndCheckConflicts G c1 common = Ret c2 →
  commonBlockMap_ c2 = commonBlockMap_ c1
  ∧ GetCommonBlocks G c2 = GetCommonBlocks G c1
  ∧ c2 = with_messages c1 (messages_ c2)
  ∧ ∃ first again,
      messages_ c1 = messages_ c ++ first
      ∧ messages_ c2 = messages_ c1 ++ again
      ∧ again `sublist_of` first.
Proof.
  intros H1 H2.
  destruct (MapCommonBlock_table G c c1 common H1) as [E1 U1].
  destruct (MapCommonBlock_table G c1 c2 common H2) as [E2 _].
  pose proof (MapCommonBlock_effect G c c1 common H1) as F1.
  pose proof (MapCommonBlock_effect G c1 c2 common H2) as F2.
  cbv zeta in F1, F2.
  rewrite E1 in E2, F2. cbn [default from_option id] in E2, F2.
  rewrite U1, lookup_insert_eq, mergeAppearance_idempotent, insert_insert_eq
    in E2, F2.
  assert (commonBlockMap_ c2 = commonBlockMap_ c1) as E by congruence.
  split; [done |]. split; [unfold GetCommonBlocks; by rewrite E |].
  set (n := sym_linkName (symbol_at G common) (underscoring_ c)) in *.
  set (o := default ∅ (commonBlockMap_ c) !! n) in *.
  assert (shouldWarn_ c1 = shouldWarn_ c) as Hwarn by (by rewrite F1).
  assert (messages_ c1 = messages_ c ++ callReports G c o common) as M1
    by (by rewrite F1).
  assert (messages_ c2 =
            messages_ c1
            ++ callReports G c1 (Some (mergeAppearance G o common)) common)
    as M2 by (by rewrite F2).
  split.
  { rewrite M2. rewrite F2 at 1. rewrite <- E1.
    unfold with_commonBlockMap, with_messages. by destruct c1. }
  exists (callReports G c o common),
         (callReports G c1 (Some (mergeAppearance G o common)) common).
  split; [done |]. split; [done |].
  unfold callReports at 1.
  rewrite initializationReport_merged, (sizeNote_merged G c c1 o common Hwarn).
  unfold callReports. destruct o as [info|]; [| done].
  apply sublist_app; [done |].
  destruct (_ <? _); [apply sublist_nil_l | done].
Qed.

Lemma MapCommonBlock_repeated_witness :
  match MapAll exampleGraph freshContext [1; 2], MapAll exampleGraph freshContext [1; 2; 2] with
  | Ret c1, Ret c2 =>
    GetCommonBlocks exampleGraph c2 = GetCommonBlocks exampleGraph c1
    ∧ length (messages_ c1) = 2%nat ∧ length (messages_ c2) = 3%nat
    ∧ ∃ again, messages_ c2 = messages_ c1 ++ again
               ∧ again `sublist_of` messages_ c1
  | _, _ => False
  end.
Proof.
  simpl.
  destruct (MapCommonBlockAndCheckConflicts exampleGraph freshContext 1)
    as [c0| |] eqn:H0; try (vm_compute in H0; discriminate).
  simpl.
  destruct (MapCommonBlockAndCheckConflicts exampleGraph c0 2)
    as [c1| |] eqn:H1;
    try (vm_compute in H0; inversion H0; subst; vm_compute in H1; discriminate).
  simpl.
  destruct (MapCommonBlockAndCheckConflicts exampleGraph c1 2)
    as [c2| |] eqn:H2;
    try (vm_compute in H0; inversion H0; subst; vm_compute in H1;
         inversion H1; subst; vm_compute in H2; discriminate).
  destruct (MapCommonBlock_repeated _ _ _ _ _ H1 H2)
    as (_ & Hsame & _ & first & again & Hfirst & Hagain & Hsub).
  split; [exact Hsame |].
  assert (messages_ c0 = []) as Hnone
    by (vm_compute in H0; inversion H0; reflexivity).
  rewrite Hnone in Hfirst. simpl in Hfirst.
  split; [| split].
  - vm_compute in H0; inversion H0; subst; vm_compute in H1;
      inversion H1; reflexivity.
  - vm_compute in H0; inversion H0; subst; vm_compute in H1;
      inversion H1; subst; vm_compute in H2; inversion H2; reflexivity.
  - exists again. split; [exact Hagain |]. by rewrite Hfirst.
Defined.




Section ConflictReports.
Variable G : SymbolGraph.

Local Abbreviation isInit := (CommonBlockMap.CommonBlockIsInitialized G).

Lemma IsFirstInitialized_unique l p p' :
  IsFirstInitialized G l p → IsFirstInitialized G l p' → p = p'.
Proof.
  intros (b1 & a1 & -> & [i1 H1] & Hb1) (b2 & a2 & E & [i2 H2] & Hb2).
  revert b2 E Hb2. induction b1 as [|x b1 IH]; intros [|y b2] E Hb2;
    simpl in E; inversion E; subst.
  - done.
  - pose proof (Hb2 _ ltac:(left)). congruence.
  - pose proof (Hb1 _ ltac:(left)). congruence.
  - apply (IH ltac:(intros; apply Hb1; by right) b2); [done |].
    intros; apply Hb2; by right.
Qed.

Lemma IsFirstInitialized_initialized l p :
  IsFirstInitialized G l p → p ∈ l ∧ is_Some (isInit p).
Proof.
  intros (b & a & -> & Hp & _). split; [| done].
  apply elem_of_app. right. left.
Qed.

(** What one call reports, given what the table records. *)
Lemma MapCommonBlock_reports c seen s :
  let u := underscoring_ c in
  let n := sym_linkName (symbol_at G s) u in
  Recorded G u (default ∅ (commonBlockMap_ c)) seen →
  ∃ c' added,
    MapCommonBlockAndCheckConflicts G c s = Ret c'
    ∧ underscoring_ c' = u
    ∧ Recorded G u (default ∅ (commonBlockMap_ c')) (seen ++ [s])
    ∧ messages_ c' = messages_ c ++ added
    ∧ (∀ m, m ∈ added →
         msg_severity m = SevError ∨ msg_severity m = SevPortability)
    ∧ ((∃ m, m ∈ added ∧ msg_severity m = SevError) ↔
       is_Some (isInit s)
       ∧ ∃ p, IsFirstInitialized G (appearances G u n seen) p ∧ p ≠ s).
Proof.
  intros u n Hrec.
  pose proof (Recorded_step G u _ seen s Hrec) as Hstep. fold n in Hstep.
  pose proof (Hrec n) as Hn.
  destruct (commonBlockMap_ c) as [m|] eqn:Hm; cbn [default from_option id] in *.
  - destruct (m !! n) as [info|] eqn:Hinfo.
    + destruct (later_appearance G c m info s Hm Hinfo) as (c' & Hrun & Hmap & Hmsgs).
      { intros p Hp. exact (Recorded_initialized G u m seen n info p Hrec Hinfo Hp). }
      destruct (MapCommonBlock_table G c c' s Hrun) as [_ U].
      eexists c', _. split; [done |]. split; [done |].
      split; [by rewrite Hmap |]. split; [exact Hmsgs |].
      destruct Hn as [_ [_ Hinit]].
      split.
      * intros msg [Hin|Hin]%elem_of_app;
          [| right; by eapply sizeNote_portability].
        left. repeat case_match; try by apply elem_of_nil in Hin.
        by apply list_elem_of_singleton in Hin as ->.
      * split.
        -- intros (msg & [Hin|Hin]%elem_of_app & Hsev);
             [| by rewrite (sizeNote_portability _ _ _ _ _ Hin) in Hsev].
           destruct (isInit s) as [i|]; [| by apply elem_of_nil in Hin].
           destruct (initialization info) as [p|]; [| by apply elem_of_nil in Hin].
           case_bool_decide; [| by apply elem_of_nil in Hin].
           split; [done |]. by exists p.
        -- intros ([i Hi] & p & Hp & Hne). rewrite Hi.
           destruct (initialization info) as [p'|].
           ++ assert (p' = p) as -> by (by eapply IsFirstInitialized_unique).
              rewrite bool_decide_eq_true_2 by done.
              destruct (IsFirstInitialized_initialized _ _ Hp) as [_ [q ->]].
              eexists. split; [apply elem_of_app; left; by left | done].
           ++ destruct (IsFirstInitialized_initialized _ _ Hp) as [Hin [q Hq]].
              by rewrite (Hinit p Hin) in Hq.
    + rewrite (first_appearance G c s) by (by rewrite Hm).
      exists (with_commonBlockMap c
                (Some (<[n := mergeAppearance G None s]> (default ∅ (commonBlockMap_ c))))), [].
      split; [done |]. split; [done |].
      split; [simpl; by rewrite Hm |]. split; [simpl; by rewrite app_nil_r |].
      split; [by intros ? ?%elem_of_nil |]. split.
      * by intros (? & ?%elem_of_nil & _).
      * intros (_ & p & Hp & _). rewrite Hn in Hp.
        destruct Hp as ([|? ?] & ? & ? & _); done.
  - rewrite lookup_empty in Hn, Hstep.
    rewrite (first_appearance G c s) by (by rewrite Hm).
    exists (with_commonBlockMap c
              (Some (<[n := mergeAppearance G None s]> (default ∅ (commonBlockMap_ c))))), [].
    split; [done |]. split; [done |].
    split; [simpl; by rewrite Hm |]. split; [simpl; by rewrite app_nil_r |].
    split; [by intros ? ?%elem_of_nil |]. split.
    + by intros (? & ?%elem_of_nil & _).
    + intros (_ & p & Hp & _). rewrite Hn in Hp.
      destruct Hp as ([|? ?] & ? & ? & _); done.
Qed.

Lemma StepConflict_cons u seen s rest :
  StepConflict G u seen (s :: rest) ↔
  (is_Some (isInit s)
   ∧ ∃ p, IsFirstInitialized G
            (appearances G u (sym_linkName (symbol_at G s) u) seen) p ∧ p ≠ s)
  ∨ StepConflict G u (seen ++ [s]) rest.
Proof.
  split.
  - intros ([|x r1] & z & r2 & p & E & Hz & Hp & Hne); simpl in E; inversion E; subst.
    + left. rewrite app_nil_r in Hp. eauto.
    + right. exists r1, z, r2, p. rewrite <- app_assoc. done.
  - intros [(Hs & p & Hp & Hne)|(r1 & z & r2 & p & -> & Hz & Hp & Hne)].
    + exists [], s, rest, p. rewrite app_nil_r. done.
    + exists (s :: r1), z, r2, p. rewrite <- app_assoc in Hp. done.
Qed.

Lemma MapAll_reports rest :
  ∀ c seen,
    Recorded G (underscoring_ c) (default ∅ (commonBlockMap_ c)) seen →
    ∃ c' added,
      MapAll G c rest = Ret c'
      ∧ messages_ c' = messages_ c ++ added
      ∧ (∀ m, m ∈ added →
           msg_severity m = SevError ∨ msg_severity m = SevPortability)
      ∧ ((∃ m, m ∈ added ∧ msg_severity m = SevError) ↔
         StepConflict G (underscoring_ c) seen rest).
Proof.
  induction rest as [|s rest IH]; intros c seen Hrec.
  - exists c, []. split; [done |]. split; [by rewrite app_nil_r |].
    split; [by intros ? ?%elem_of_nil |]. split.
    + by intros (? & ?%elem_of_nil & _).
    + by intros ([|? ?] & ? & ? & ? & ? & _).
  - destruct (MapCommonBlock_reports c seen s Hrec)
      as (c1 & added1 & Hrun1 & U1 & Hrec1 & Hmsgs1 & Hsev1 & Herr1).
    rewrite <- U1 in Hrec1.
    destruct (IH c1 (seen ++ [s]) Hrec1)
      as (c' & added2 & Hrun2 & Hmsgs2 & Hsev2 & Herr2).
    exists c', (added1 ++ added2). simpl. rewrite Hrun1. simpl.
    split; [done |]. split; [by rewrite Hmsgs2, Hmsgs1, app_assoc |].
    split; [intros m [?|?]%elem_of_app; auto |].
    rewrite U1 in Herr2. rewrite StepConflict_cons, <- Herr1, <- Herr2. split.
    + intros (m & [?|?]%elem_of_app & ?); [left | right]; eauto.
    + intros [(m & ? & ?)|(m & ? & ?)]; exists m;
        (split; [apply elem_of_app; auto | done]).
Qed.

Lemma exists_first {A} (P : A → Prop) `{∀ x, Decision (P x)} (l : list A) x :
  x ∈ l → P x →
  ∃ b p a, l = b ++ p :: a ∧ P p ∧ ∀ y, y ∈ b → ¬ P y.
Proof.
  induction l as [|h l IH]; [by intros ?%elem_of_nil |].
  intros Hin Hx. destruct (decide (P h)) as [Hh|Hh].
  - exists [], h, l. split; [done |]. split; [done |]. by intros ? ?%elem_of_nil.
  - apply elem_of_cons in Hin as [->|Hin]; [done |].
    destruct (IH Hin Hx) as (b & p & a & -> & Hp & Hb).
    exists (h :: b), p, a. split; [done |]. split; [done |].
    intros y [->|?]%elem_of_cons; auto.
Qed.

Lemma StepConflict_Conflict u commons :
  StepConflict G u [] commons ↔ Conflict G u commons.
Proof.
  split.
  - intros (r1 & z & r2 & p & -> & Hz & Hp & Hne). simpl in Hp.
    destruct (IsFirstInitialized_initialized _ _ Hp) as [Hin Hinit].
    apply list_elem_of_filter in Hin as [Hn Hin].
    exists p, z. split; [apply elem_of_app; by left |].
    split; [apply elem_of_app; right; by left |]. done.
  - intros (x & y & Hx & Hy & Hne & Hn & Hix & Hiy).
    set (n := sym_linkName (symbol_at G x) u) in *.
    set (P := λ z, sym_linkName (symbol_at G z) u = n ∧ is_Some (isInit z)).
    destruct (exists_first P commons x Hx) as (b & p & a & E & [Hpn Hpi] & Hb);
      [done |].
    assert (∃ z, z ∈ commons ∧ P z ∧ p ≠ z) as (z & Hz & HPz & Hpz).
    { destruct (decide (p = x)) as [->|]; [exists y | exists x]; done. }
    rewrite E in Hz. apply elem_of_app in Hz as [Hz|Hz]; [by destruct (Hb z Hz) |].
    apply elem_of_cons in Hz as [->|Hz]; [done |].
    apply list_elem_of_split in Hz as (a1 & a2 & ->).
    exists (b ++ p :: a1), z, a2, p. split; [by rewrite E, <- app_assoc |].
    split; [by destruct HPz |]. split; [| done].
    destruct HPz as [-> _]. simpl. unfold appearances.
    rewrite filter_app, filter_cons_True by done.
    eexists _, _. split; [done |]. split; [done |].
    intros w [Hwn Hw]%list_elem_of_filter.
    destruct (isInit w) eqn:Hiw; [| done].
    destruct (Hb w Hw). split; [done | by rewrite Hiw].
Qed.
End ConflictReports.

(** X10. A sequence of calls on a fresh table returns and adds only
    "multiple initialization" errors and size notes to the messages; it
    adds an error if and only if two different initialized appearances
    share a link name. *)
Theorem MapAll_error_iff_conflict (G : SymbolGraph) (c : SemanticsContext)
    (commons : list SymbolRef) :
  commonBlockMap_ c = None →
  ∃ c' added,
    MapAll G c commons = Ret c'
    ∧ messages_ c' = messages_ c ++ added
    ∧ (∀ m, m ∈ added →
         msg_severity m = SevError ∨ msg_severity m = SevPortability)
    ∧ ((∃ m, m ∈ added ∧ msg_severity m = SevError) ↔
       Conflict G (underscoring_ c) commons).
Proof.
  intros Hfresh.
  destruct (MapAll_reports G commons c []) as (c' & added & H1 & H2 & H3 & H4).
  { rewrite Hfresh. intros k. simpl. by rewrite lookup_empty. }
  exists c', added. rewrite <- StepConflict_Conflict. done.
Qed.

Lemma MapAll_error_iff_conflict_witness :
  (∃ c', MapAll exampleGraph freshContext [3; 1; 3] = Ret c'
         ∧ msg_severity <$> messages_ c' = [SevPortability; SevPortability])
  ∧ ¬ Conflict exampleGraph true [3; 1; 3].
Proof.
  destruct (MapAll_error_iff_conflict exampleGraph freshContext [3; 1; 3] eq_refl)
    as (c' & added & Hrun & Hmsgs & _ & Hiff).
  vm_compute in Hrun. inversion Hrun; subst; clear Hrun.
  split; [eexists; split; reflexivity |].
  intros Hconflict. apply Hiff in Hconflict as (m & Hin & Hsev).
  simpl in Hmsgs. subst added.
  apply elem_of_cons in Hin as [->|Hin]; [discriminate |].
  apply list_elem_of_singleton in Hin as ->. discriminate.
Defined.

(** ** The composed visitor, continued *)

(** X11. Under checkers that leave the construct stack alone, walking any
    program returns, never failing the [CHECK] of [PopConstruct], and
    leaves the construct stack as it found it: every construct entered has
    been left. *)
Theorem Walk_restores_construct_stack (cs : list Checker)
    (program : list ParseNode) (c : SemanticsContext) :
  PreservesConstructStack cs →
  ∃ b s,
    SemanticsVisitor.Walk cs program c = Ret (b, s)
    ∧ constructStack_ (ws_context s) = constructStack_ c.
Proof.
  intros Hstack. unfold SemanticsVisitor.Walk.
  destruct (WalkNodes_returns cs Hstack program (mkWalkState c []))
    as (s & -> & Hsame).
  simpl. eauto.
Qed.

Lemma Walk_restores_construct_stack_witness :
  ∃ b s,
    SemanticsVisitor.Walk [checkerA; checkerB]
      [mkNode 5 (ConstructNode 77) [assignmentStmt; mkNode 6 (ConstructNode 78) []]]
      (PushConstruct freshContext 1) = Ret (b, s)
    ∧ constructStack_ (ws_context s) = [1].
Proof.
  destruct (Walk_restores_construct_stack [checkerA; checkerB]
              [mkNode 5 (ConstructNode 77)
                 [assignmentStmt; mkNode 6 (ConstructNode 78) []]]
              (PushConstruct freshContext 1) quiet_checkers_stack)
    as (b & s & Hrun & Hstack).
  exists b, s. split; [exact Hrun | exact Hstack].
Defined.

(** ** Error bookkeeping, continued *)

Lemma SetError_marks_step c s :
  (AnyFatalError c = false → ∃ msg, SetError c s true = Die msg)
  ∧ (AnyFatalError c = true →
     ∃ c', SetError c s true = Ret c'
           ∧ errorSymbols_ c' = {[s]} ∪ errorSymbols_ c
           ∧ messages_ c' = messages_ c
           ∧ warningsAreErrors_ c' = warningsAreErrors_ c).
Proof.
  split; intros Hfatal; unfold SetError, CheckError; rewrite Hfatal; simpl;
    eauto.
Qed.

(** X12. A sequence of [SetError] calls returns when a fatal diagnostic has
    been recorded or no call asks to set the flag, and aborts otherwise.
    When it returns, no message has been added and a symbol carries the
    error flag exactly if it carried it before or a call set it: a call
    with [false] never clears a flag. *)
Theorem SetErrors_marks (c : SemanticsContext) (calls : list (SymbolRef * bool)) :
  (AnyFatalError c = true ∨ (∀ call, call ∈ calls → call.2 = false) →
   ∃ c', SetErrors c calls = Ret c'
         ∧ messages_ c' = messages_ c
         ∧ ∀ s, HasError c' s = true ↔
                HasError c s = true ∨ (s, true) ∈ calls)
  ∧ (AnyFatalError c = false → (∃ s, (s, true) ∈ calls) →
     ∃ msg, SetErrors c calls = Die msg).
Proof.
  split.
  - revert c. induction calls as [|[s v] rest IH]; intros c Hok.
    + exists c. split; [done |]. split; [done |]. intros s. split; [auto |].
      intros [?|?%elem_of_nil]; done.
    + simpl. destruct v.
      * destruct Hok as [Hfatal|Hnone];
          [| by specialize (Hnone (s, true) ltac:(left))].
        destruct (proj2 (SetError_marks_step c s) Hfatal) as (c1 & -> & He & Hm & Hw).
        simpl. destruct (IH c1) as (c' & -> & Hm' & Hiff).
        { left. unfold AnyFatalError in *. by rewrite Hm, Hw. }
        exists c'. split; [done |]. split; [congruence |].
        intros x. rewrite Hiff. unfold HasError. rewrite He.
        rewrite !bool_decide_eq_true, elem_of_cons, elem_of_union,
          elem_of_singleton.
        split; [intros [[->|?]|?]; auto | intros [?|[[= ->]|?]]; auto].
      * simpl. destruct (IH c) as (c' & -> & Hm' & Hiff).
        { destruct Hok as [?|Hnone]; [by left | right].
          intros call Hin. apply Hnone. by right. }
        exists c'. split; [done |]. split; [done |].
        intros x. rewrite Hiff, elem_of_cons. split; [tauto |].
        intros [?|[[=]|?]]; auto.
  - intros Hfatal. induction calls as [|[s v] rest IH];
      intros [x Hx]; [by apply elem_of_nil in Hx |].
    simpl. destruct v.
    + unfold SetError, CheckError. rewrite Hfatal. simpl. eauto.
    + simpl. apply IH. apply elem_of_cons in Hx as [[=]|Hx]. eauto.
Qed.

Lemma SetErrors_marks_witness :
  (∃ c', SetErrors (Say freshContext (anError (mkCharBlock 0 1)))
           [(7, true); (7, false); (8, false)] = Ret c'
         ∧ HasError c' 7 = true ∧ HasError c' 8 = false)
  ∧ ∃ msg, SetErrors freshContext [(8, false); (7, true)] = Die msg.
Proof.
  split.
  - destruct (proj1 (SetErrors_marks (Say freshContext (anError (mkCharBlock 0 1)))
                       [(7, true); (7, false); (8, false)]))
      as (c' & Hrun & _ & Hiff); [by left |].
    exists c'. split; [exact Hrun |]. split.
    + apply Hiff. right. by left.
    + apply not_true_iff_false. rewrite Hiff. intros [Hc|Hin]; [done |].
      repeat (apply elem_of_cons in Hin as [[=]|Hin]).
      by apply elem_of_nil in Hin.
  - apply (proj2 (SetErrors_marks freshContext [(8, false); (7, true)]));
      [reflexivity |].
    exists 7. right. by left.
Defined.

(** ** The index-variable guard, continued *)

(** X13. An index variable that is not active is activated without a
    diagnostic; while it is active, [CheckIndexVarRedefine] on any symbol
    with the same underlying entity reports one "Cannot redefine" error at
    the given location with a note at the source of the activating name;
    deactivating with the same name restores the table of active index
    variables, after which the same check reports nothing.  (Comparing a
    source with itself is taken to answer true.) *)
Theorem index_variable_guard (sameSource : CharBlock → CharBlock → bool)
    (G : SymbolGraph) (c : SemanticsContext) (name : Name) (kind : IndexVarKind)
    (indexVar variable : SymbolRef) (location : CharBlock) :
  (∀ x, sameSource x x = true) →
  name_symbol name = Some indexVar →
  let entity := sym_ultimate (symbol_at G indexVar) in
  activeIndexVars_ c !! entity = None →
  sym_ultimate (symbol_at G variable) = entity →
  let c1 := ActivateIndexVar G c name kind in
  let c2 := CheckIndexVarRedefineAt G c1 location variable in
  let c3 := DeactivateIndexVar sameSource G c2 name in
  let c4 := CheckIndexVarRedefineAt G c3 location variable in
  messages_ c1 = messages_ c
  ∧ activeIndexVars_ c1 !! entity = Some (mkIndexVarInfo (name_source name) kind)
  ∧ (∃ m, messages_ c2 = messages_ c ++ [m]
          ∧ msg_severity m = SevError
          ∧ msg_at m = location
          ∧ msg_text m = "Cannot redefine %s variable '%s'"%string
          ∧ msg_args m =
              [ArgText (EnumToString kind); ArgName (sym_name (symbol_at G entity))]
          ∧ att_at <$> msg_attachments m = [name_source name])
  ∧ activeIndexVars_ c3 = activeIndexVars_ c
  ∧ messages_ c4 = messages_ c2.
Proof.
  intros Hrefl Hname entity Hinactive Hsame c1 c2 c3 c4.
  assert (c1 = with_activeIndexVars c
                 (<[entity := mkIndexVarInfo (name_source name) kind]>
                    (activeIndexVars_ c))) as Hc1.
  { unfold c1, ActivateIndexVar, CheckIndexVarRedefineName,
      CheckIndexVarRedefineAt, CheckIndexVarRedefineWith.
    rewrite Hname. fold entity. rewrite Hinactive. simpl.
    unfold map_emplace. by rewrite Hinactive. }
  assert (c2 = Say c1
            (Attach
               (mkMessage SevError location "Cannot redefine %s variable '%s'"
                  [ArgText (EnumToString kind);
                   ArgName (sym_name (symbol_at G entity))] [])
               (name_source name) "Enclosing %s construct"
               [ArgText (EnumToString kind)])) as Hc2.
  { unfold c2, CheckIndexVarRedefineAt, CheckIndexVarRedefineWith.
    rewrite Hsame, Hc1. simpl. by rewrite lookup_insert_eq. }
  assert (c3 = with_activeIndexVars c2 (activeIndexVars_ c)) as Hc3.
  { unfold c3, DeactivateIndexVar. rewrite Hname. fold entity.
    rewrite Hc2, Hc1. simpl. rewrite lookup_insert_eq. simpl.
    rewrite Hrefl. by rewrite delete_insert_id. }
  split; [by rewrite Hc1 |]. split; [rewrite Hc1; simpl; apply lookup_insert_eq |].
  split.
  { eexists. split; [rewrite Hc2, Hc1; reflexivity |]. repeat split. }
  split; [by rewrite Hc3 |].
  unfold c4, CheckIndexVarRedefineAt, CheckIndexVarRedefineWith.
  rewrite Hsame, Hc3. simpl. by rewrite Hinactive.
Qed.

Lemma index_variable_guard_witness :
  let name := mkName (mkCharBlock 50 1) (Some 20) in
  let c1 := ActivateIndexVar exampleGraph freshContext name DO in
  let c2 := CheckIndexVarRedefineAt exampleGraph c1 (mkCharBlock 60 5) 20 in
  let c3 := DeactivateIndexVar (λ x y, bool_decide (x = y)) exampleGraph c2 name in
  length (messages_ c2) = 1%nat ∧ activeIndexVars_ c3 = ∅.
Proof.
  intros name c1 c2 c3.
  destruct (index_variable_guard (λ x y, bool_decide (x = y)) exampleGraph
              freshContext name DO 20 20 (mkCharBlock 60 5))
    as (_ & _ & (m & Hm & _) & Hback & _).
  - intros x. by apply bool_decide_eq_true.
  - reflexivity.
  - reflexivity.
  - reflexivity.
  - fold c1 c2 in Hm. fold c1 c2 c3 in Hback. split; [by rewrite Hm | exact Hback].
Defined.

(** X14. [GetIndexVars(kind)] lists, each once, exactly the symbols that
    are active with that kind. *)
Theorem GetIndexVars_spec (c : SemanticsContext) (kind : IndexVarKind) :
  NoDup (GetIndexVars c kind)
  ∧ ∀ s, s ∈ GetIndexVars c kind ↔
         ∃ info, activeIndexVars_ c !! s = Some info ∧ iv_kind info = kind.
Proof.
  unfold GetIndexVars. split.
  - apply (sublist_NoDup _
             ((merge_sort address_le (map_to_list (activeIndexVars_ c))).*1)).
    + rewrite merge_sort_Permutation. apply NoDup_fst_map_to_list.
    + apply fmap_sublist, sublist_filter.
  - intros s. rewrite list_elem_of_fmap. split.
    + intros ([s' info] & -> & [Hk Hin]%list_elem_of_filter).
      rewrite merge_sort_Permutation in Hin.
      apply elem_of_map_to_list in Hin. by exists info.
    + intros (info & Hs & Hk). exists (s, info). split; [done |].
      apply list_elem_of_filter. split; [done |].
      rewrite merge_sort_Permutation. by apply elem_of_map_to_list.
Qed.

Lemma GetIndexVars_spec_witness :
  let c := ActivateIndexVar exampleGraph
             (ActivateIndexVar exampleGraph freshContext
                (mkName (mkCharBlock 50 1) (Some 20)) DO)
             (mkName (mkCharBlock 70 1) (Some 21)) FORALL in
  20 ∈ GetIndexVars c DO ∧ 21 ∉ GetIndexVars c DO.
Proof.
  intros c. pose proof (proj2 (GetIndexVars_spec c DO)) as Hiff. split.
  - apply Hiff. eexists. split; [vm_compute; reflexivity | reflexivity].
  - rewrite Hiff. intros (info & Hl & Hk). vm_compute in Hl.
    inversion Hl; subst. discriminate.
Defined.

(** ** Temporary names *)

Lemma pretty_N_go_nonempty (x : N) :
  ∀ s, s ≠ ""%string → pretty_N_go x s ≠ ""%string.
Proof.
  induction (N.lt_wf_0 x) as [x _ IH]. intros s Hs.
  destruct (decide (0 < x)) as [Hpos|Hz].
  - rewrite pretty_N_go_step by done. apply IH; [| done].
    apply N.div_lt; lia.
  - assert (x = 0) as -> by lia. by rewrite pretty_N_go_0.
Qed.

Lemma pretty_nat_nonempty (n : nat) : pretty n ≠ ""%string.
Proof.
  unfold pretty, pretty_nat, pretty, pretty_N.
  destruct (decide (N.of_nat n = 0)); [done |].
  rewrite pretty_N_go_step by lia. by apply pretty_N_go_nonempty.
Qed.

Lemma IsTempName_synthesized (n : nat) : IsTempName (".F18." +:+ pretty n) = true.
Proof.
  pose proof (pretty_nat_nonempty n) as Hne.
  destruct (pretty n) as [|a d] eqn:Hd; [done |].
  unfold IsTempName. apply andb_true_iff. split; apply bool_decide_eq_true.
  - simpl. lia.
  - reflexivity.
Qed.

Lemma synthesized_inj (n k : nat) :
  ".F18." +:+ pretty n = ".F18." +:+ pretty k → n = k.
Proof.
  intros H. by apply (inj pretty), (inj (String.append ".F18.")).
Qed.

Lemma GetTempName_valid_aux (tempNames_ scope : gset string) :
  let '(name, pool) := GetTempName tempNames_ scope in
  IsTempName name = true
  ∧ name ∈ pool
  ∧ (pool = tempNames_ ∧ name ∉ scope
     ∨ pool = {[name]} ∪ tempNames_
       ∧ name = ".F18." +:+ pretty (size tempNames_)
       ∧ ∀ str, str ∈ tempNames_ → IsTempName str = true → str ∈ scope).
Proof.
  unfold GetTempName.
  destruct (List.find _ _) as [name|] eqn:Hfind.
  - apply find_some in Hfind as [Hin Hp].
    apply andb_true_iff in Hp as [Htemp Hfree].
    apply bool_decide_eq_true in Hfree.
    apply list_elem_of_In in Hin. rewrite merge_sort_Permutation in Hin.
    apply elem_of_elements in Hin. split; [done |]. split; [done |]. by left.
  - unfold SaveTempName. split; [apply IsTempName_synthesized |].
    split; [set_solver |]. right. split; [done |]. split; [done |].
    intros str Hin Htemp.
    assert (In str (merge_sort string_le (elements tempNames_))) as Hin'.
    { apply list_elem_of_In. rewrite merge_sort_Permutation.
      by apply elem_of_elements. }
    pose proof (find_none _ _ Hfind str Hin') as Hf. simpl in Hf.
    rewrite Htemp in Hf. simpl in Hf. apply bool_decide_eq_false in Hf.
    by apply dec_stable.
Qed.


(** X15. [GetTempName] returns a temporary name (longer than the prefix
    ".F18." and starting with it) that is in the pool afterwards; the pool
    only grows, by at most that name; and when the name was taken from the
    pool as it was, the scope does not declare it. *)
Theorem GetTempName_valid (tempNames_ scope : gset string) :
  let '(name, pool) := GetTempName tempNames_ scope in
  IsTempName name = true
  ∧ name ∈ pool
  ∧ (pool = tempNames_ ∧ name ∉ scope
     ∨ pool = {[name]} ∪ tempNames_
       ∧ name = ".F18." +:+ pretty (size tempNames_)
       ∧ ∀ str, str ∈ tempNames_ → IsTempName str = true → str ∈ scope).
Proof. apply GetTempName_valid_aux. Qed.

(** X16. In a pool whose temporary names are numbered below its size, and
    for a scope whose temporary names all come from the pool,
    [GetTempName] returns a name the scope does not declare, and the pool
    stays numbered.  The empty pool is numbered, and saving a name that is
    not a temporary name keeps a pool numbered. *)
Theorem GetTempName_unique (tempNames_ scope : gset string) :
  NumberedPool ∅
  ∧ (∀ other, IsTempName other = false → NumberedPool tempNames_ →
              NumberedPool (SaveTempName tempNames_ other).2)
  ∧ (NumberedPool tempNames_ →
     (∀ str, str ∈ scope → IsTempName str = true → str ∈ tempNames_) →
     let '(name, pool) := GetTempName tempNames_ scope in
     (name ∉ scope) ∧ NumberedPool pool).
Proof.
  split; [by intros str ?%elem_of_empty |]. split.
  - intros other Hother Hpool str Hin Htemp. simpl in *.
    apply elem_of_union in Hin as [->%elem_of_singleton|Hin]; [congruence |].
    destruct (Hpool str Hin Htemp) as (k & Hk & ->). exists k. split; [| done].
    eapply Nat.lt_le_trans; [done |]. apply subseteq_size. set_solver.
  - intros Hpool Hscope.
    pose proof (GetTempName_valid_aux tempNames_ scope) as Hvalid.
    destruct (GetTempName tempNames_ scope) as [name pool].
    destruct Hvalid as (Htemp & Hin & [[-> Hfree]|(-> & -> & Hall)]); [done |].
    assert (".F18." +:+ pretty (size tempNames_) ∉ tempNames_) as Hfresh.
    { intros Hold.
      destruct (Hpool _ Hold (IsTempName_synthesized _)) as (k & Hk & Heq).
      apply synthesized_inj in Heq. lia. }
    split.
    + intros Hdecl. apply Hfresh, Hscope; [done | apply IsTempName_synthesized].
    + intros str Hstr Hstemp. rewrite size_union by set_solver.
      rewrite size_singleton.
      apply elem_of_union in Hstr as [->%elem_of_singleton|Hstr].
      * exists (size tempNames_). split; [lia | done].
      * destruct (Hpool str Hstr Hstemp) as (k & Hk & ->).
        exists k. split; [lia | done].
Qed.

Lemma GetTempName_valid_witness :
  GetTempName {[".F18.0"; "x"]} {[".F18.0"]} =
    (".F18.2", {[".F18.2"]} ∪ {[".F18.0"; "x"]})
  ∧ IsTempName ".F18.2" = true
  ∧ GetTempName {[".F18.0"; "x"]} {["y"]} = (".F18.0", {[".F18.0"; "x"]}).
Proof.
  pose proof (GetTempName_valid {[".F18.0"; "x"]} {[".F18.0"]}) as H.
  assert (GetTempName {[".F18.0"; "x"]} {[".F18.0"]} =
            (".F18.2", {[".F18.2"]} ∪ {[".F18.0"; "x"]})) as E
    by (vm_compute; reflexivity).
  rewrite E in H. destruct H as (Htemp & _).
  split; [exact E |]. split; [exact Htemp |]. vm_compute. reflexivity.
Defined.

Lemma GetTempName_unique_witness :
  NumberedPool {[".F18.0"]}
  ∧ (GetTempName {[".F18.0"]} {[".F18.0"]}).1 ∉ ({[".F18.0"]} : gset string).
Proof.
  assert (NumberedPool {[".F18.0"]}) as Hpool.
  { intros str ->%elem_of_singleton _. exists 0%nat.
    split; [rewrite size_singleton; lia | reflexivity]. }
  split; [exact Hpool |].
  destruct (GetTempName_unique {[".F18.0"]} {[".F18.0"]}) as (_ & _ & H).
  specialize (H Hpool ltac:(by intros str ? _)).
  destruct (GetTempName {[".F18.0"]} {[".F18.0"]}) as [name pool].
  exact (proj1 H).
Defined.

(** ** Lazily loaded builtin modules *)

(** X17. However often [UseFortranBuiltinsModule] is called, a module that
    is found is read once and supplied to the intrinsics table once, a
    call made when the scope is already set does nothing, and a module
    that is not found is looked for again at every call and never
    supplied. *)
Theorem UseFortranBuiltinsModule_once (Read : string → option ScopeRef)
    (s : BuiltinScopes) (n : nat) :
  let s' := Nat.iter (S n) (Builtins.UseFortranBuiltinsModule Read) s in
  match builtinsScope_ s, Read "__fortran_builtins" with
  | Some _, _ => s' = s
  | None, Some builtins =>
    builtinsScope_ s' = Some builtins
    ∧ reads_ s' = reads_ s ++ ["__fortran_builtins"]
    ∧ supplied_ s' = supplied_ s ++ [builtins]
  | None, None =>
    builtinsScope_ s' = None
    ∧ reads_ s' = reads_ s ++ replicate (S n) "__fortran_builtins"
    ∧ supplied_ s' = supplied_ s
  end.
Proof.
  induction n as [|n IH].
  - simpl. unfold Builtins.UseFortranBuiltinsModule, Builtins.GetBuiltinModule.
    destruct (builtinsScope_ s) eqn:Hs; [done |].
    by destruct (Read "__fortran_builtins").
  - cbv zeta in *. rewrite Nat.iter_succ.
    remember (Nat.iter (S n) (Builtins.UseFortranBuiltinsModule Read) s)
      as s1 eqn:Hs1. clear Hs1.
    unfold Builtins.UseFortranBuiltinsModule, Builtins.GetBuiltinModule.
    destruct (builtinsScope_ s) eqn:Hs.
    + subst s1. by rewrite Hs.
    + destruct (Read "__fortran_builtins") as [builtins|] eqn:Hr.
      * destruct IH as (Hb & ? & ?). by rewrite Hb.
      * destruct IH as (Hb & Hreads & Hsupplied). rewrite Hb. simpl.
        split; [done |]. split; [| done].
        rewrite Hreads, <- app_assoc. f_equal.
        change (replicate (S n) "__fortran_builtins" ++ ["__fortran_builtins"]
                = "__fortran_builtins" :: replicate (S n) "__fortran_builtins").
        by rewrite <- replicate_cons_app.
Qed.

(** X18. [GetCUDABuiltinsScope], called when the scope is not set yet,
    reads the module "__cuda_builtins": when it is not found the [CHECK]
    fails; when it is found the scope is returned, and every later call
    returns the same scope without reading again. *)
Theorem GetCUDABuiltinsScope_memo (Read : string → option ScopeRef)
    (s : BuiltinScopes) :
  cudaBuiltinsScope_ s = None →
  match Read "__cuda_builtins" with
  | None => ∃ msg, Builtins.GetCUDABuiltinsScope Read s = Die msg
  | Some scope =>
    ∃ s', Builtins.GetCUDABuiltinsScope Read s = Ret (scope, s')
          ∧ reads_ s' = reads_ s ++ ["__cuda_builtins"]
          ∧ Builtins.GetCUDABuiltinsScope Read s' = Ret (scope, s')
  end.
Proof.
  intros Hunset.
  destruct (Read "__cuda_builtins") as [scope|] eqn:Hread.
  - eexists. split; [| split].
    + unfold Builtins.GetCUDABuiltinsScope, Builtins.GetBuiltinModule.
      rewrite Hunset, Hread. reflexivity.
    + reflexivity.
    + reflexivity.
  - eexists. unfold Builtins.GetCUDABuiltinsScope, Builtins.GetBuiltinModule.
    rewrite Hunset, Hread. reflexivity.
Qed.

Lemma GetCUDABuiltinsScope_memo_witness :
  let s := mkBuiltinScopes None None None None None [] [] in
  (∃ s', Builtins.GetCUDABuiltinsScope (λ _, Some 9) s = Ret (9, s')
         ∧ reads_ s' = ["__cuda_builtins"])
  ∧ ∃ msg, Builtins.GetCUDABuiltinsScope (λ _, None) s = Die msg.
Proof.
  intros s. split.
  - destruct (GetCUDABuiltinsScope_memo (λ _, Some 9) s eq_refl)
      as (s' & Hrun & Hreads & _).
    exists s'. split; [exact Hrun | exact Hreads].
  - exact (GetCUDABuiltinsScope_memo (λ _, None) s eq_refl).
Defined.

(** ** Scope trees *)

Lemma names_emplace_Permutation before symbols name symbol :
  NameToSymbolMap.emplace before symbols name symbol ≡ₚ (name, symbol) :: symbols.
Proof.
  unfold NameToSymbolMap.emplace. rewrite <- Permutation_middle.
  by rewrite take_drop.
Qed.

Lemma names_emplace_cons before key value rest name symbol :
  NameToSymbolMap.emplace before ((key, value) :: rest) name symbol
  = if before name key then (name, symbol) :: (key, value) :: rest
    else (key, value) :: NameToSymbolMap.emplace before rest name symbol.
Proof.
  unfold NameToSymbolMap.emplace. simpl. by destruct (before name key).
Qed.

Lemma names_emplace_sorted before symbols name symbol :
  (∀ x, before x x = false) →
  (∀ x y z, before x y = true → before y z = true → before x z = true) →
  StronglySorted (NameToSymbolMap.ordered before) symbols →
  StronglySorted (NameToSymbolMap.ordered before)
    (NameToSymbolMap.emplace before symbols name symbol).
Proof.
  intros Hirrefl Htrans. induction symbols as [|[key value] rest IH]; intros Hsorted.
  - repeat constructor.
  - apply StronglySorted_inv in Hsorted as [Hrest Hkey].
    rewrite names_emplace_cons. destruct (before name key) eqn:Hbefore.
    + constructor; [by constructor |]. constructor.
      * unfold NameToSymbolMap.ordered. simpl.
        destruct (before key name) eqn:Hback; [| done].
        pose proof (Htrans _ _ _ Hback Hbefore) as Hloop.
        by rewrite Hirrefl in Hloop.
      * eapply Forall_impl; [exact Hkey |]. intros [k v].
        unfold NameToSymbolMap.ordered. simpl. intros Hk.
        destruct (before k name) eqn:Hback; [| done].
        by rewrite (Htrans _ _ _ Hback Hbefore) in Hk.
    + constructor; [by apply IH |].
      rewrite names_emplace_Permutation. by constructor.
Qed.

Lemma emplace_all_Permutation before G l symbols :
  foldl (λ symbols symbol,
           NameToSymbolMap.emplace before symbols
             (sym_name (symbol_at G symbol)) symbol) symbols l
  ≡ₚ symbols ++ ((λ symbol, (sym_name (symbol_at G symbol), symbol)) <$> l).
Proof.
  revert symbols. induction l as [|x l IH]; intros symbols; simpl.
  - by rewrite app_nil_r.
  - rewrite IH, names_emplace_Permutation. simpl.
    by rewrite <- Permutation_middle.
Qed.

Lemma emplace_all_sorted before G l symbols :
  (∀ x, before x x = false) →
  (∀ x y z, before x y = true → before y z = true → before x z = true) →
  StronglySorted (NameToSymbolMap.ordered before) symbols →
  StronglySorted (NameToSymbolMap.ordered before)
    (foldl (λ symbols symbol,
              NameToSymbolMap.emplace before symbols
                (sym_name (symbol_at G symbol)) symbol) symbols l).
Proof.
  intros Hirrefl Htrans. revert symbols.
  induction l as [|x l IH]; intros symbols Hsorted; simpl; [done |].
  apply IH. by apply names_emplace_sorted.
Qed.

(** X19. [GetSymbolNames] adds to the multimap one entry for every symbol
    and every common block of every scope of the tree, as often as it
    occurs, under its name; when [operator<] on names is a strict order
    the entries stay in name order. *)
Theorem GetSymbolNames_collects (before : CharBlock → CharBlock → bool)
    (G : SymbolGraph) (scope : ScopeTree)
    (symbols : list (CharBlock * SymbolRef)) :
  (∀ x, before x x = false) →
  (∀ x y z, before x y = true → before y z = true → before x z = true) →
  StronglySorted (NameToSymbolMap.ordered before) symbols →
  GetSymbolNames before G scope symbols
    ≡ₚ symbols
       ++ ((λ symbol, (sym_name (symbol_at G symbol), symbol))
            <$> allSymbols scope)
  ∧ StronglySorted (NameToSymbolMap.ordered before)
      (GetSymbolNames before G scope symbols).
Proof.
  intros Hirrefl Htrans. revert symbols.
  induction scope as [symbol isModuleFile locals commonBlocks children IH]
    using ScopeTree_ind.
  intros symbols Hsorted. simpl.
  set (own := foldl _ (foldl _ symbols locals) commonBlocks).
  assert (Hown : own ≡ₚ symbols
            ++ ((λ symbol, (sym_name (symbol_at G symbol), symbol))
                 <$> (locals ++ commonBlocks))).
  { unfold own. rewrite !emplace_all_Permutation, fmap_app.
    by rewrite <- app_assoc. }
  assert (Hownsorted : StronglySorted (NameToSymbolMap.ordered before) own).
  { unfold own. apply emplace_all_sorted; [done | done |].
    by apply emplace_all_sorted. }
  assert (Hchildren : ∀ start,
    StronglySorted (NameToSymbolMap.ordered before) start →
    foldl (λ symbols child, GetSymbolNames before G child symbols) start children
      ≡ₚ start
         ++ ((λ symbol, (sym_name (symbol_at G symbol), symbol))
              <$> flat_map allSymbols children)
    ∧ StronglySorted (NameToSymbolMap.ordered before)
        (foldl (λ symbols child, GetSymbolNames before G child symbols)
           start children)).
  { clear own Hown Hownsorted Hsorted symbols.
    induction IH as [|child rest Hchild _ IHrest]; intros start Hstart; simpl.
    - by rewrite app_nil_r.
    - destruct (Hchild start Hstart) as [Hperm Hsorted].
      destruct (IHrest _ Hsorted) as [Hperm' Hsorted'].
      split; [| done].
      rewrite Hperm', Hperm, fmap_app. by rewrite <- app_assoc. }
  destruct (Hchildren own Hownsorted) as [Hperm Hall].
  split; [| done].
  rewrite Hperm, Hown, !fmap_app. by rewrite <- !app_assoc.
Qed.

Lemma GetSymbolNames_collects_witness :
  let before := λ x y : CharBlock, cb_begin x <? cb_begin y in
  let scope := mkScopeTree None false [11; 12] [1] [mkScopeTree None false [13] [2] []] in
  GetSymbolNames before exampleGraph scope []
    ≡ₚ (λ symbol, (sym_name (symbol_at exampleGraph symbol), symbol))
         <$> [11; 12; 1; 13; 2].
Proof.
  intros before scope.
  refine (proj1 (GetSymbolNames_collects before exampleGraph scope [] _ _ _)).
  - intros x. apply N.ltb_irrefl.
  - intros x y z ?%N.ltb_lt ?%N.ltb_lt. apply N.ltb_lt. lia.
  - constructor.
Defined.

Section UndefinedFunctionResultFacts.
Variable G : SymbolGraph.
Variable subprogramDetails : SymbolRef → option SubprogramDetails.
Variable IsFunctionResult : SymbolRef → bool.
Variable IsInitialized : SymbolRef → bool.

(** The warnings a traversal adds, given which warnings are wanted. *)
Lemma WarnUndefinedFunctionResult_added (isDefined_ : gset N)
    (scope : ScopeTree) (context : SemanticsContext) :
  ∃ added,
    WarnUndefinedFunctionResult G subprogramDetails IsFunctionResult
      IsInitialized isDefined_ context scope
    = with_messages context (messages_ context ++ added)
    ∧ ∀ m, m ∈ added ↔
        ∃ sc f, sc ∈ reached scope
          ∧ UndefinedFunction subprogramDetails IsFunctionResult
              IsInitialized isDefined_ sc f
          ∧ shouldWarn_ context UndefinedFunctionResult
              (sym_name (symbol_at G f)) = true
          ∧ m = neverDefined (sym_name (symbol_at G f)).
Proof.
  revert context.
  induction scope as [symbol isModuleFile locals commonBlocks children IH]
    using ScopeTree_ind.
  intros context.
  set (Q := λ (sc : ScopeTree) (m : Message),
         ∃ f, UndefinedFunction subprogramDetails IsFunctionResult
                IsInitialized isDefined_ sc f
              ∧ shouldWarn_ context UndefinedFunctionResult
                  (sym_name (symbol_at G f)) = true
              ∧ m = neverDefined (sym_name (symbol_at G f))).
  set (here := mkScopeTree symbol isModuleFile locals commonBlocks children).
  (* the scope itself *)
  assert (Hown : ∃ own,
    match symbol with
    | Some symbol =>
      match subprogramDetails symbol with
      | Some subp =>
        if subp_isFunction subp && negb (subp_isInterface subp)
           && negb (subp_stmtFunction subp)
        then
          if WasDefined IsInitialized isDefined_ (subp_result subp) then context
          else if existsb
                    (λ local, IsFunctionResult local
                              && WasDefined IsInitialized isDefined_ local)
                    locals
          then context
          else Warn context UndefinedFunctionResult
                 (neverDefined (sym_name (symbol_at G symbol))) id
        else context
      | None => context
      end
    | None => context
    end = with_messages context (messages_ context ++ own)
    ∧ ∀ m, m ∈ own ↔ Q here m).
  { assert (Hnone : (∀ m, ¬ Q here m) →
      ∃ own, context = with_messages context (messages_ context ++ own)
             ∧ ∀ m, m ∈ own ↔ Q here m).
    { intros Hno. exists []. split.
      - rewrite app_nil_r. by destruct context.
      - intros m. split; [by intros ?%elem_of_nil | by intros ?%Hno]. }
    destruct symbol as [f|]; [| apply Hnone; intros m (f & [[=] _] & _)].
    destruct (subprogramDetails f) as [subp|] eqn:Hsubp;
      [| apply Hnone; intros m (f' & [[= <-] (subp & Hs & _)] & _);
         congruence].
    destruct (subp_isFunction subp) eqn:Hfun; simpl;
      [| apply Hnone; intros m (f' & [[= <-] (subp' & Hs & ? & _)] & _);
         congruence].
    destruct (subp_isInterface subp) eqn:Hint; simpl;
      [apply Hnone; intros m (f' & [[= <-] (subp' & Hs & ? & ? & _)] & _);
       congruence |].
    destruct (subp_stmtFunction subp) eqn:Hstmt; simpl;
      [apply Hnone; intros m (f' & [[= <-] (subp' & Hs & ? & ? & ? & _)] & _);
       congruence |].
    destruct (WasDefined IsInitialized isDefined_ (subp_result subp)) eqn:Hres;
      [apply Hnone;
       intros m (f' & [[= <-] (subp' & Hs & ? & ? & ? & ? & _)] & _);
       congruence |].
    destruct (existsb _ locals) eqn:Hentry.
    { apply Hnone.
      intros m (f' & [[= <-] (subp' & Hs & ? & ? & ? & ? & Hlocals)] & _).
      apply existsb_exists in Hentry as (local & Hin & Hlocal).
      apply andb_true_iff in Hlocal as [Hfr Hdef].
      apply list_elem_of_In in Hin.
      specialize (Hlocals local Hin Hfr). congruence. }
    assert (Hundefined : UndefinedFunction subprogramDetails IsFunctionResult
              IsInitialized isDefined_ here f).
    { split; [done |]. exists subp. repeat split; try done.
      intros local Hin Hfr.
      destruct (WasDefined IsInitialized isDefined_ local) eqn:Hdef; [| done].
      assert (existsb (λ local, IsFunctionResult local
                && WasDefined IsInitialized isDefined_ local) locals = true)
        as Hyes; [| congruence].
      apply existsb_exists. exists local. split.
      - by apply list_elem_of_In.
      - by rewrite Hfr, Hdef. }
    unfold Warn. simpl.
    destruct (shouldWarn_ context UndefinedFunctionResult
                (sym_name (symbol_at G f))) eqn:Hwarn.
    - exists [neverDefined (sym_name (symbol_at G f))]. split; [done |].
      intros m. rewrite list_elem_of_singleton. split.
      + intros ->. by exists f.
      + intros (f' & [[= <-] _] & _ & ->). done.
    - apply Hnone. intros m (f' & [[= <-] _] & ? & _). congruence. }
  destruct Hown as (own & Hown & Hownspec).
  (* the children *)
  assert (Hchildren : ∀ c, shouldWarn_ c = shouldWarn_ context →
    ∃ below,
      foldl (WarnUndefinedFunctionResult G subprogramDetails IsFunctionResult
               IsInitialized isDefined_) c children
      = with_messages c (messages_ c ++ below)
      ∧ ∀ m, m ∈ below ↔
          ∃ sc, sc ∈ flat_map reached children ∧ Q sc m).
  { clear Hown Hownspec own.
    induction IH as [|child rest Hchild _ IHrest]; intros c Hc.
    - exists []. split.
      + simpl. rewrite app_nil_r. by destruct c.
      + intros m. split; [by intros ?%elem_of_nil |].
        by intros (sc & ?%elem_of_nil & _).
    - destruct (Hchild c) as (first & Hfirst & Hfirstspec).
      destruct (IHrest (with_messages c (messages_ c ++ first)))
        as (others & Hothers & Hothersspec); [exact Hc |].
      exists (first ++ others). split.
      + simpl. rewrite Hfirst, Hothers. simpl. by rewrite app_assoc.
      + intros m. rewrite elem_of_app, Hfirstspec, Hothersspec. simpl.
        setoid_rewrite list_elem_of_In. setoid_rewrite in_app_iff.
        setoid_rewrite <- list_elem_of_In. rewrite Hc. unfold Q.
        split.
        * intros [(sc & f & ? & ? & ? & ?) | (sc & ? & f & ?)];
            eauto 10.
        * intros (sc & [?|?] & f & ? & ? & ?); eauto 10. }
  unfold here at 1 2. cbn [WarnUndefinedFunctionResult reached]. fold here.
  rewrite Hown. destruct isModuleFile; simpl.
  - exists own. split; [done |]. intros m. rewrite Hownspec. unfold Q.
    fold here. split.
    + intros (f & ?). exists here, f. split; [apply list_elem_of_here | done].
    + intros (sc & f & ->%list_elem_of_singleton & ?). by exists f.
  - destruct (Hchildren (with_messages context (messages_ context ++ own)))
      as (below & Hbelow & Hbelowspec); [done |].
    exists (own ++ below). split.
    + rewrite Hbelow. simpl. by rewrite app_assoc.
    + intros m. rewrite elem_of_app, Hownspec, Hbelowspec. unfold Q.
      fold here. split.
      * intros [(f & ?) | (sc & ? & f & ?)].
        -- exists here, f. split; [apply list_elem_of_here | done].
        -- exists sc, f. split; [by apply list_elem_of_further | done].
      * intros (sc & f & [-> | ?]%elem_of_cons & ?).
        -- left. by exists f.
        -- right. exists sc. split; [done |]. by exists f.
Qed.

(** X20. [WarnUndefinedFunctionResult] changes nothing of the context but
    its messages, which it extends; a message is in the context afterwards
    exactly when it was there before or it is the warning "Function result
    is never defined", wanted at the name of a function whose scope the
    traversal looks at (no scope below a module-file scope) and for which
    neither its result nor a function result among the symbols of its
    scope was defined. *)
Theorem WarnUndefinedFunctionResult_spec (isDefined_ : gset N)
    (context : SemanticsContext) (scope : ScopeTree) :
  let context' :=
    WarnUndefinedFunctionResult G subprogramDetails IsFunctionResult
      IsInitialized isDefined_ context scope in
  context' = with_messages context (messages_ context')
  ∧ messages_ context `prefix_of` messages_ context'
  ∧ ∀ m, m ∈ messages_ context' ↔
      m ∈ messages_ context
      ∨ ∃ sc f, sc ∈ reached scope
          ∧ UndefinedFunction subprogramDetails IsFunctionResult
              IsInitialized isDefined_ sc f
          ∧ shouldWarn_ context UndefinedFunctionResult
              (sym_name (symbol_at G f)) = true
          ∧ m = neverDefined (sym_name (symbol_at G f)).
Proof.
  intros context'.
  destruct (WarnUndefinedFunctionResult_added isDefined_ scope context)
    as (added & Heq & Hspec).
  fold context' in Heq. rewrite Heq. simpl. split; [done |].
  split; [by exists added |].
  intros m. by rewrite elem_of_app, Hspec.
Qed.

(** X21. Noting more symbols as defined never adds a warning: every
    message present after the traversal with the larger set of defined
    symbols is present after the traversal with the smaller one. *)
Theorem NoteDefinedSymbol_silences (isDefined_ isDefined' : gset N)
    (context : SemanticsContext) (scope : ScopeTree) (m : Message) :
  isDefined_ ⊆ isDefined' →
  m ∈ messages_ (WarnUndefinedFunctionResult G subprogramDetails
                   IsFunctionResult IsInitialized isDefined' context scope) →
  m ∈ messages_ (WarnUndefinedFunctionResult G subprogramDetails
                   IsFunctionResult IsInitialized isDefined_ context scope).
Proof.
  intros Hsub.
  destruct (WarnUndefinedFunctionResult_added isDefined' scope context)
    as (added' & -> & Hspec').
  destruct (WarnUndefinedFunctionResult_added isDefined_ scope context)
    as (added & -> & Hspec).
  simpl. rewrite !elem_of_app, Hspec, Hspec'.
  intros [? | (sc & f & Hsc & Hundefined & Hwarn & ->)]; [by left |].
  right. exists sc, f. repeat split; try done.
  - apply Hundefined.
  - destruct Hundefined as (_ & subp & Hs & Hfun & Hint & Hstmt & Hres & Hloc).
    assert (Hmono : ∀ s, WasDefined IsInitialized isDefined' s = false →
                         WasDefined IsInitialized isDefined_ s = false).
    { intros s. unfold WasDefined, IsSymbolDefined.
      rewrite !orb_false_iff, !bool_decide_eq_false.
      intros [Hnot ?]. split; [| done]. intros Hin. apply Hnot.
      by apply Hsub. }
    exists subp. repeat split; try done; [by apply Hmono |].
    intros local Hin Hfr. apply Hmono. by apply Hloc.
Qed.

End UndefinedFunctionResultFacts.

Lemma NoteDefinedSymbol_silences_witness :
  let details := λ symbol : SymbolRef,
    if symbol =? 1 then Some (mkSubprogramDetails true false false 11)
    else if symbol =? 2 then Some (mkSubprogramDetails true false false 12)
    else None in
  let scope :=
    mkScopeTree None false [] []
      [mkScopeTree (Some 1) false [11] [] [];
       mkScopeTree (Some 2) false [12] [] []] in
  neverDefined (sym_name (symbol_at exampleGraph 2))
  ∈ messages_ (WarnUndefinedFunctionResult exampleGraph details (λ _, false)
                 (λ _, false) ∅ freshContext scope).
Proof.
  intros details scope.
  apply (NoteDefinedSymbol_silences exampleGraph details (λ _, false)
           (λ _, false) ∅ (NoteDefinedSymbol ∅ 11) freshContext scope).
  - apply empty_subseteq.
  - apply (bool_decide_unpack _). vm_compute. exact I.
Defined.

(** ** The target of ASSIGN and assigned GO TO *)

(** X22. [CheckAssignGotoName] always returns: the [DEREF] of the symbol
    pointer is only reached when [HasError] has found the pointer non-null.
    It reports nothing for a name that is unresolved or marked erroneous,
    and nothing for a scalar variable of default integer kind; for any
    other symbol it adds one error at the name, with one attached note at
    the declaration, after which the context has a fatal error and
    [SetError] on the symbol passes its check. *)
Theorem CheckAssignGotoName_reports (G : SymbolGraph) (c : SemanticsContext)
    (name : Name) :
  ∃ c', MiscChecker.CheckAssignGotoName G c name = Ret c'
    ∧ match name_symbol name with
      | None => c' = c
      | Some s =>
        if HasError c s
           || (sym_isVariableName (symbol_at G s)
               && bool_decide (sym_rank (symbol_at G s) = 0%nat)
               && bool_decide (sym_type (symbol_at G s)
                               = Some (Integer, defaultIntegerKind_ c)))
        then c' = c
        else ∃ m, c' = Say c m
               ∧ msg_severity m = SevError
               ∧ msg_at m = name_source name
               ∧ att_at <$> msg_attachments m = [sym_name (symbol_at G s)]
               ∧ AnyFatalError c' = true
               ∧ ∃ c'', SetError c' s true = Ret c'' ∧ HasError c'' s = true
      end.
Proof.
  unfold MiscChecker.CheckAssignGotoName.
  destruct name as [source [s|]]; simpl; [| by eexists].
  destruct (HasError c s) eqn:Hmarked; simpl; [by eexists |].
  assert (Hreport : ∀ m, msg_severity m = SevError →
            AnyFatalError (Say c m) = true
            ∧ ∃ c'', SetError (Say c m) s true = Ret c''
                     ∧ HasError c'' s = true).
  { intros m Hm.
    assert (Hfatal : AnyFatalError (Say c m) = true).
    { unfold AnyFatalError, Messages_AnyFatalError, Say. simpl.
      rewrite existsb_app. simpl. unfold IsFatal at 2. rewrite Hm.
      by rewrite orb_true_r. }
    split; [done |]. unfold SetError, CheckError. rewrite Hfatal. simpl.
    eexists. split; [reflexivity |]. unfold HasError. simpl.
    apply bool_decide_eq_true, elem_of_union. left.
    by apply elem_of_singleton. }
  destruct (sym_isVariableName (symbol_at G s)); simpl;
    [| eexists; split; [reflexivity |]; eexists; split; [reflexivity |];
       repeat split; by apply Hreport].
  destruct (sym_rank (symbol_at G s)) as [|rank]; simpl;
    [| eexists; split; [reflexivity |]; eexists; split; [reflexivity |];
       repeat split; by apply Hreport].
  destruct (sym_type (symbol_at G s)) as [[category kind]|]; simpl;
    [| eexists; split; [reflexivity |]; eexists; split; [reflexivity |];
       repeat split; by apply Hreport].
  destruct (decide (category = Integer)) as [-> | Hcategory].
  - destruct (decide (kind = defaultIntegerKind_ c)) as [-> | Hkind].
    + rewrite !bool_decide_eq_true_2 by done. simpl. by eexists.
    + rewrite (bool_decide_eq_false_2 (kind = _)) by done.
      rewrite (bool_decide_eq_false_2 (Some _ = Some _)) by congruence.
      rewrite bool_decide_eq_true_2 by done. simpl.
      eexists; split; [reflexivity |]; eexists; split; [reflexivity |].
      repeat split; by apply Hreport.
  - rewrite (bool_decide_eq_false_2 (category = _)) by done.
    rewrite (bool_decide_eq_false_2 (Some _ = Some _)) by congruence.
    simpl.
    eexists; split; [reflexivity |]; eexists; split; [reflexivity |].
    repeat split; by apply Hreport.
Qed.
